(** * qbittorrent-automate: the retention policy, the cleanup pass and the
      scheduler loop of [main.py], embedded in Rocq.

    The development follows the source file top-down:

    - Python values the program computes with: strings as sequences of code
      points, [int] and [float] numbers with Python's mixed comparison and
      true division, exceptions;
    - the torrent dictionaries and the configuration dictionary, as records
      whose optional entries are the keys read with [.get];
    - a small state, exception and trace monad for the effects of the
      program: the assignment of [self.qb], the requests to the qBittorrent
      client, the records handed to [logger];
    - the methods of [QBittorrentAutoMate], [load_config] and [main];
    - the vocabulary of the properties and a simulated service to run the
      program on;
    - the properties.

    Two libraries stand outside the program.  The qBittorrent client is an
    interface, [ClientAPI], whose calls act on an arbitrary outside world;
    the theorems hold for every implementation of it.  The blocking
    scheduler is a loop over what reaches it while it blocks: fires of the
    interval trigger, the operator's interrupt, an exception of its own; the
    constructor of the interval trigger is a parameter, like [float] and
    [int], since it may raise.
    Wall-clock time, the log files of [setup_logging] and the threads of the
    scheduler are not modelled; a pass is atomic. *)

From Stdlib Require Import ZArith NArith List String Ascii Bool Lia Floats.
Import ListNotations.

Set Implicit Arguments.

(* ================================================================= *)
(** ** Python strings *)

(** A [str] is a sequence of Unicode code points. *)
Definition str := list N.

(** String literals of the source, written in ASCII. *)
Definition lit (s : string) : str := map N_of_ascii (list_ascii_of_string s).

Fixpoint str_eqb (a b : str) : bool :=
  match a, b with
  | [], [] => true
  | x :: a', y :: b' => N.eqb x y && str_eqb a' b'
  | _, _ => false
  end.

(** [x in l] for a list of strings [l]: some element compares equal. *)
Definition str_in (x : str) (l : list str) : bool := existsb (str_eqb x) l.

(** Truth value of a string or of a list: non-empty. *)
Definition truthy {A : Type} (l : list A) : bool :=
  match l with [] => false | _ :: _ => true end.

(** [str.isspace] for one character: the code points Python treats as
    whitespace. *)
Definition isspace (c : N) : bool :=
  ((9 <=? c) && (c <=? 13) || (28 <=? c) && (c <=? 32)
   || (c =? 133) || (c =? 160) || (c =? 5760)
   || (8192 <=? c) && (c <=? 8202)
   || (c =? 8232) || (c =? 8233) || (c =? 8239) || (c =? 8287)
   || (c =? 12288))%N.

Fixpoint lstrip (s : str) : str :=
  match s with
  | [] => []
  | c :: s' => if isspace c then lstrip s' else s
  end.

Definition rstrip (s : str) : str := rev (lstrip (rev s)).

(** [s.strip()] *)
Definition strip (s : str) : str := rstrip (lstrip s).

(** [s.split(sep)] for a one-character separator; never the empty list. *)
Fixpoint split (sep : N) (s : str) : list str :=
  match s with
  | [] => [[]]
  | c :: s' =>
      if N.eqb c sep then [] :: split sep s'
      else match split sep s' with
           | h :: t => (c :: h) :: t
           | [] => [[c]]
           end
  end.

Definition comma : N := 44.

(* ================================================================= *)
(** ** Exceptions *)

(** The exceptions of the model are all subclasses of [Exception]; an
    [except Exception] clause catches every one of them.  The operator's
    interrupt is not one of them: it reaches the program as an event of the
    scheduler (see [SchedEvent]). *)
Inductive exn : Type :=
| LoginFailed (msg : str)
| KeyError (key : str)
| AttributeError (msg : str)
| OverflowError (msg : str)
| ZeroDivisionError (msg : str)
| ValueError (msg : str)
| OtherException (cls msg : str).

Definition is_LoginFailed (e : exn) : bool :=
  match e with LoginFailed _ => true | _ => false end.

(* ================================================================= *)
(** ** Python numbers *)

(** JSON numbers arrive as [int] or [float]; a [float] is an IEEE binary64
    value. *)
Inductive num : Type :=
| PyInt (z : Z)
| PyFloat (f : float).

(** Exact comparison of an integer with the value of a float; [None] when the
    float is a NaN. *)
Definition Z_compare_float (z : Z) (f : float) : option comparison :=
  match Prim2SF f with
  | S754_nan => None
  | S754_infinity s => Some (if s then Gt else Lt)
  | S754_zero _ => Some (Z.compare z 0)
  | S754_finite s m e =>
      let v := if s then Zneg m else Zpos m in
      Some (match e with
            | Zneg p => Z.compare (Z.shiftl z (Zpos p)) v
            | _ => Z.compare z (Z.shiftl v e)
            end)
  end.

(** [x >= y].  Two floats compare as IEEE values, two ints as integers, and
    an int with a float by their exact values; any comparison with a NaN is
    false. *)
Definition ge (x y : num) : bool :=
  match x, y with
  | PyInt a, PyInt b => (b <=? a)%Z
  | PyFloat a, PyFloat b => PrimFloat.leb b a
  | PyInt a, PyFloat b =>
      match Z_compare_float a b with
      | Some Lt | None => false
      | Some _ => true
      end
  | PyFloat a, PyInt b =>
      match Z_compare_float b a with
      | Some Gt | None => false
      | Some _ => true
      end
  end.

Definition Z_to_SF (z : Z) : spec_float :=
  match z with
  | Z0 => S754_zero false
  | Zpos p => S754_finite false p 0
  | Zneg p => S754_finite true p 0
  end.

Definition SF_is_infinity (f : spec_float) : bool :=
  match f with S754_infinity _ => true | _ => false end.

(** [float(z)]: the nearest float, [OverflowError] beyond the float range. *)
Definition float_of_int (z : Z) : exn + float :=
  let r := binary_normalize prec emax z 0 false in
  if SF_is_infinity r
  then inl (OverflowError (lit "int too large to convert to float"))
  else inr (SF2Prim r).

(** [a / b] on two ints: the correctly rounded quotient of the integers. *)
Definition int_truediv (a b : Z) : exn + float :=
  if (b =? 0)%Z then inl (ZeroDivisionError (lit "division by zero"))
  else
    let r := SFdiv prec emax (Z_to_SF a) (Z_to_SF b) in
    if SF_is_infinity r
    then inl (OverflowError (lit "integer division result too large for a float"))
    else inr (SF2Prim r).

Definition float_truediv (a b : float) : exn + float :=
  if PrimFloat.eqb b PrimFloat.zero
  then inl (ZeroDivisionError (lit "float division by zero"))
  else inr (PrimFloat.div a b).

(** [x / y], Python's true division. *)
Definition truediv (x y : num) : exn + num :=
  match x, y with
  | PyInt a, PyInt b =>
      match int_truediv a b with inl e => inl e | inr f => inr (PyFloat f) end
  | PyFloat a, PyFloat b =>
      match float_truediv a b with inl e => inl e | inr f => inr (PyFloat f) end
  | PyFloat a, PyInt b =>
      match float_of_int b with
      | inl e => inl e
      | inr fb =>
          match float_truediv a fb with inl e => inl e | inr f => inr (PyFloat f) end
      end
  | PyInt a, PyFloat b =>
      match float_of_int a with
      | inl e => inl e
      | inr fa =>
          match float_truediv fa b with inl e => inl e | inr f => inr (PyFloat f) end
      end
  end.

(** [format(x, '.2f')] and [format(x, '.1f')], the format specifications of
    the log record of line 111, as far as raising goes: an [int] is converted
    to a [float] first, which raises [OverflowError] beyond the float range;
    a [float] is always formatted, also an infinity or a NaN. *)
Definition format_f (x : num) : exn + unit :=
  match x with
  | PyInt z =>
      match float_of_int z with inl e => inl e | inr _ => inr tt end
  | PyFloat _ => inr tt
  end.

(* ================================================================= *)
(** ** Dictionaries of the program *)

(** [d.get(key, default)] on an entry that may be absent. *)
Definition get {A : Type} (entry : option A) (default : A) : A :=
  match entry with Some v => v | None => default end.

(** A torrent dictionary as the client returns it.  [tags] is read with
    [.get('tags', '')] and may be absent; the other keys are read with
    [torrent[...]] and are part of every listing entry. *)
Record Torrent : Type := {
  tags : option str;
  ratio : num;
  seeding_time : num;
  name : str;
  hash : str
}.

(** [config['qbittorrent']]; an entry is [None] when [.get] finds nothing. *)
Module QbConfig.
Record t : Type := {
  url : option str;
  port : option str;
  username : option str;
  password : option str;
  ratio_limit : option num;
  seeding_time_limit : option num;
  delete_files : option bool;
  exclude_tags : option (list str);
  include_tags : option (list str)
}.
End QbConfig.

Record SchedulerConfig : Type := { interval_minutes : Z }.

Record Config : Type := {
  qbittorrent : QbConfig.t;
  scheduler : SchedulerConfig
}.

(* ================================================================= *)
(** ** Observable events: log records and requests *)

Inductive Level : Type := INFO | ERROR.

(** One constructor per [logger] call of the source, with the values its
    message is formatted from. *)
Inductive LogMsg : Type :=
| MsgConfigMissing                                  (* connect: url, username or password missing *)
| MsgConnecting (url port username : str)
| MsgConnected (version : str)
| MsgConnectFailed (e : exn)
| MsgMeetsCondition (name : str) (ratio seeding_time : num)
| MsgListFailed (e : exn)
| MsgDeleted (name : str) (delete_files : bool)
| MsgDeleteFailed (name : str) (e : exn)
| MsgChecking
| MsgFound (n : nat)
| MsgCleanupDone (deleted_count : nat)
| MsgCleanupError (e : exn)
| MsgServiceStarting
| MsgInitialConnectFailed
| MsgFirstCheck
| MsgServiceStarted (interval_minutes : Z)
| MsgStopSignal
| MsgSchedulerError (e : exn).

(** The calls the program makes on the qBittorrent client. *)
Inductive Request : Type :=
| ReqClient (host port username password : str)
| ReqAuthLogIn
| ReqAppVersion
| ReqTorrentsInfo (status_filter : str)
| ReqTorrentsDelete (delete_files : bool) (torrent_hashes : str).

Inductive Event : Type :=
| Log (level : Level) (msg : LogMsg)
| Call (req : Request) (failure : option exn)       (* a request and whether it raised *)
| PrintExc (e : exn)                                (* traceback.print_exc() *)
| AddJob (minutes : Z)                              (* scheduler.add_job with an IntervalTrigger *)
| Shutdown.                                         (* scheduler.shutdown() *)

(** The qBittorrent client library, seen from the program: each call acts on
    the outside world [W] and returns or raises. *)
Class ClientAPI (W Client : Type) : Type := {
  new_Client : str -> str -> str -> str -> W -> (exn + Client) * W;
  auth_log_in : Client -> W -> (exn + unit) * W;
  app_version : Client -> W -> (exn + str) * W;
  torrents_info : Client -> str -> W -> (exn + list Torrent) * W;
  torrents_delete : Client -> bool -> str -> W -> (exn + unit) * W
}.

(** The [QBittorrentAutoMate] object. *)
Record QBittorrentAutoMate (Client : Type) : Type := {
  qb_config : QbConfig.t;
  qb : option Client;
  ratio_limit : num;
  seeding_time_limit : num;
  exclude_tags : list str;
  include_tags : list str
}.

(** [QBittorrentAutoMate.__init__] (main.py, lines 57-65) *)
Definition init (Client : Type) (qb_config : QbConfig.t) : QBittorrentAutoMate Client :=
  {| qb_config := qb_config;
     qb := None;
     ratio_limit := get (QbConfig.ratio_limit qb_config) (PyFloat 2.0);
     seeding_time_limit := get (QbConfig.seeding_time_limit qb_config) (PyInt 120);
     exclude_tags := get (QbConfig.exclude_tags qb_config) [];
     include_tags := get (QbConfig.include_tags qb_config) [] |}.

(* ================================================================= *)
(** ** The effect monad *)

Section Effects.
Context {W Client : Type}.

(** The object [self] is mutable ([self.qb] is assigned), so it lives in the
    state next to the outside world. *)
Record State : Type := mkState {
  self : QBittorrentAutoMate Client;
  world : W
}.

(** The outcome of a computation: it returned or raised, the state it left,
    and the events it produced, oldest first. *)
Record Result (A : Type) : Type := mkResult {
  res : exn + A;
  state : State;
  events : list Event
}.

Definition M (A : Type) : Type := State -> Result A.

Definition ret {A : Type} (a : A) : M A :=
  fun s => mkResult (inr a) s [].

Definition raise {A : Type} (e : exn) : M A :=
  fun s => mkResult (inl e) s [].

Definition bind {A B : Type} (m : M A) (k : A -> M B) : M B :=
  fun s =>
    match m s with
    | mkResult (inl e) s1 evs => mkResult (inl e) s1 evs
    | mkResult (inr a) s1 evs =>
        match k a s1 with
        | mkResult v s2 evs' => mkResult v s2 (evs ++ evs')
        end
    end.

(** [try: body / except Exception as e: handler e] *)
Definition try_except {A : Type} (body : M A) (handler : exn -> M A) : M A :=
  fun s =>
    match body s with
    | mkResult (inl e) s1 evs =>
        match handler e s1 with
        | mkResult v s2 evs' => mkResult v s2 (evs ++ evs')
        end
    | mkResult (inr a) s1 evs => mkResult (inr a) s1 evs
    end.

(** [try: body / except C as e: handler e] for an exception class [C]: other
    exceptions propagate. *)
Definition try_except_class {A : Type} (C : exn -> bool)
           (body : M A) (handler : exn -> M A) : M A :=
  try_except body (fun e => if C e then handler e else raise e).

Definition emit (ev : Event) : M unit :=
  fun s => mkResult (inr tt) s [ev].

(** [logger.info] and [logger.error] *)
Definition logger_info (msg : LogMsg) : M unit := emit (Log INFO msg).
Definition logger_error (msg : LogMsg) : M unit := emit (Log ERROR msg).

(** Reading [self] and assigning [self.qb]. *)
Definition this : M (QBittorrentAutoMate Client) :=
  fun s => mkResult (inr (self s)) s [].

Definition set_qb (c : Client) : M unit :=
  fun s =>
    let o := self s in
    mkResult (inr tt)
      (mkState {| qb_config := qb_config o; qb := Some c;
                  ratio_limit := ratio_limit o;
                  seeding_time_limit := seeding_time_limit o;
                  exclude_tags := exclude_tags o;
                  include_tags := include_tags o |} (world s)) [].

(** A pure operation that may raise. *)
Definition lift {A : Type} (v : exn + A) : M A :=
  match v with inl e => raise e | inr a => ret a end.

(** A request to the client library: it acts on the world, and the request
    and its outcome are recorded. *)
Definition request {A : Type} (req : Request)
           (op : W -> (exn + A) * W) : M A :=
  fun s =>
    let (v, w') := op (world s) in
    mkResult v (mkState (self s) w')
      [Call req (match v with inl e => Some e | inr _ => None end)].

End Effects.

Arguments State : clear implicits.
Arguments Result : clear implicits.
Arguments M : clear implicits.

Declare Scope py_scope.
Delimit Scope py_scope with py.
Notation "x <- m ;; k" := (bind m (fun x => k))
  (at level 61, m at next level, right associativity) : py_scope.
Notation "m ;; k" := (bind m (fun _ => k))
  (at level 61, right associativity) : py_scope.
Open Scope py_scope.

(* ================================================================= *)
(** ** class QBittorrentAutoMate *)

(** [d[key]]: [KeyError] when the entry is absent. *)
Definition getitem {A : Type} (key : str) (entry : option A) : exn + A :=
  match entry with
  | Some v => inr v
  | None => inl (KeyError key)
  end.

(** [self.qb.<method>]: [AttributeError] while [self.qb] is [None]. *)
Definition getattr_qb {Client : Type} (handle : option Client) (method : str)
  : exn + Client :=
  match handle with
  | Some c => inr c
  | None => inl (AttributeError method)
  end.

Section Methods.
Context {W Client : Type} {api : ClientAPI W Client}.

Local Abbreviation M := (M W Client).

(** [connect_qbittorrent] (lines 67-92): a property, run each time it is
    read. *)
Definition connect_qbittorrent : M bool :=
  self <- this;;
  let cfg := qb_config self in
  match QbConfig.url cfg, QbConfig.username cfg, QbConfig.password cfg with
  | Some url, Some username, Some password =>
      try_except
        (port <- lift (getitem (lit "port") (QbConfig.port cfg));;
         logger_info (MsgConnecting url port username);;
         c <- request (ReqClient url port username password)
                      (new_Client url port username password);;
         set_qb c;;
         try_except_class is_LoginFailed
           (request ReqAuthLogIn (auth_log_in c);;
            version <- request ReqAppVersion (app_version c);;
            logger_info (MsgConnected version))
           (fun e => logger_error (MsgConnectFailed e));;
         ret true)
        (fun e =>
           emit (PrintExc e);;
           logger_error (MsgConnectFailed e);;
           ret false)
  | _, _, _ =>
      logger_error MsgConfigMissing;;
      ret false
  end.

(** [should_delete_torrent(self, torrent)] (lines 94-114) *)
Definition should_delete_torrent (torrent : Torrent) : M bool :=
  self <- this;;
  let tags := get (tags torrent) (lit "") in
  if str_in tags (exclude_tags self) then ret false
  else if truthy (include_tags self) && negb (str_in tags (include_tags self))
  then ret false
  else
    let ratio := ratio torrent in
    seeding_time <- lift (truediv (seeding_time torrent) (PyInt 60));;
    if ge ratio (ratio_limit self) || ge seeding_time (seeding_time_limit self)
    then
      (* the f-string of line 111 is formatted before [logger.info] is
         called: [{ratio:.2f}], then [{seeding_time:.1f}] *)
      lift (format_f ratio);;
      lift (format_f seeding_time);;
      logger_info (MsgMeetsCondition (name torrent) ratio seeding_time);;
      ret true
    else ret false.

(** [get_completed_torrents(self)] (lines 116-123) *)
Definition get_completed_torrents : M (list Torrent) :=
  try_except
    (self <- this;;
     c <- lift (getattr_qb (qb self) (lit "torrents_info"));;
     request (ReqTorrentsInfo (lit "completed"))
             (torrents_info c (lit "completed")))
    (fun e =>
       logger_error (MsgListFailed e);;
       ret []).

(** [delete_torrent(self, torrent, delete_files)] (lines 125-137) *)
Definition delete_torrent (torrent : Torrent) (delete_files : bool) : M bool :=
  try_except
    (let torrent_name := name torrent in
     let torrent_hash := hash torrent in
     self <- this;;
     c <- lift (getattr_qb (qb self) (lit "torrents_delete"));;
     request (ReqTorrentsDelete delete_files torrent_hash)
             (torrents_delete c delete_files torrent_hash);;
     logger_info (MsgDeleted torrent_name delete_files);;
     ret true)
    (fun e =>
       logger_error (MsgDeleteFailed (name torrent) e);;
       ret false).

(** The [for torrent in completed_torrents] loop of [cleanup_torrents] (lines
    151-155), with its counter. *)
Fixpoint cleanup_loop (completed_torrents : list Torrent) (deleted_count : nat)
  : M nat :=
  match completed_torrents with
  | [] => ret deleted_count
  | torrent :: rest =>
      verdict <- should_delete_torrent torrent;;
      if verdict then
        self <- this;;
        deleted <- delete_torrent torrent
                     (get (QbConfig.delete_files (qb_config self)) false);;
        cleanup_loop rest (if deleted then S deleted_count else deleted_count)
      else cleanup_loop rest deleted_count
  end.

(** [cleanup_torrents(self)] (lines 139-160) *)
Definition cleanup_torrents : M unit :=
  self <- this;;
  connected <- match qb self with
               | None => connect_qbittorrent
               | Some _ => ret true
               end;;
  if negb connected then ret tt
  else
    logger_info MsgChecking;;
    try_except
      (completed_torrents <- get_completed_torrents;;
       logger_info (MsgFound (List.length completed_torrents));;
       deleted_count <- cleanup_loop completed_torrents 0;;
       logger_info (MsgCleanupDone deleted_count))
      (fun e => logger_error (MsgCleanupError e)).

End Methods.

(* ================================================================= *)
(** ** load_config (lines 163-183) *)

Section LoadConfig.

(** The builtins [float(s)], [int(s)] and [s.lower()] are taken as given. *)
Variable py_float : str -> exn + float.
Variable py_int : str -> exn + Z.
Variable lower : str -> str.

(** [os.getenv(key, default)] in the environment [environ]. *)
Definition getenv (environ : str -> option str) (key default : str) : str :=
  get (environ key) default.

Definition load_config (environ : str -> option str) : exn + Config :=
  match py_float (getenv environ (lit "RATIO_LIMIT") (lit "2.0")) with
  | inl e => inl e
  | inr ratio_limit =>
  match py_float (getenv environ (lit "SEEDING_TIME_LIMIT") (lit "120")) with
  | inl e => inl e
  | inr seeding_time_limit =>
  match py_int (getenv environ (lit "CHECK_INTERVAL") (lit "60")) with
  | inl e => inl e
  | inr interval =>
      inr {|
        qbittorrent := {|
          QbConfig.url := Some (getenv environ (lit "QB_URL") (lit "http://localhost"));
          QbConfig.port := Some (getenv environ (lit "QB_PORT") (lit "8080"));
          QbConfig.username := Some (getenv environ (lit "QB_USERNAME") (lit "admin"));
          QbConfig.password := Some (getenv environ (lit "QB_PASSWORD") (lit "adminadmin"));
          QbConfig.ratio_limit := Some (PyFloat ratio_limit);
          QbConfig.seeding_time_limit := Some (PyFloat seeding_time_limit);
          QbConfig.delete_files :=
            Some (str_eqb (lower (getenv environ (lit "DELETE_FILES") (lit "false")))
                          (lit "true"));
          QbConfig.exclude_tags :=
            Some (map strip
                    (filter (fun cat => truthy (strip cat))
                            (split comma (getenv environ (lit "EXCLUDE_TAGS") (lit "")))));
          QbConfig.include_tags :=
            Some (map strip
                    (filter (fun cat => truthy (strip cat))
                            (split comma (getenv environ (lit "INCLUDE_TAGS") (lit "")))))
        |};
        scheduler := {| interval_minutes := interval |}
      |}
  end end end.

End LoadConfig.

(* ================================================================= *)
(** ** main and the blocking scheduler *)

(** What reaches [scheduler.start()] from outside while it blocks: the
    interval trigger fires, the operator interrupts, or the scheduler itself
    fails with an exception. *)
Inductive SchedEvent : Type :=
| Fire
| Interrupt
| Fault (e : exn).

(** How [scheduler.start()] stands after the events seen so far. *)
Inductive StartExit : Type :=
| StillBlocking
| RaisedKeyboardInterrupt
| RaisedException (e : exn).

(** Where [main] stands: it returned before the scheduler was created, it is
    inside [scheduler.start()] waiting for the next fire, or it left the
    scheduler and shut it down. *)
Inductive LoopState : Type :=
| NotStarted
| Waiting
| Stopped.

Section Main.
Context {W Client : Type} {api : ClientAPI W Client}.
Variable py_float : str -> exn + float.
Variable py_int : str -> exn + Z.
Variable lower : str -> str.

(** [IntervalTrigger(minutes=m)] of APScheduler, taken as given like [float]
    and [int]: it returns the trigger or raises, [OverflowError] when the
    interval is more than a [timedelta] holds or when the first run time, now
    plus the interval, is past the last date a [datetime] holds. *)
Variable IntervalTrigger : Z -> exn + unit.

Local Abbreviation M := (M W Client).

(** [BlockingScheduler.start()] with one interval job: every fire runs the
    job, and the executor keeps whatever the job raises away from the
    scheduler. *)
Fixpoint scheduler_start (job : M unit) (pending : list SchedEvent) : M StartExit :=
  match pending with
  | [] => ret StillBlocking
  | Fire :: later =>
      try_except job (fun _ => ret tt);;
      scheduler_start job later
  | Interrupt :: _ => ret RaisedKeyboardInterrupt
  | Fault e :: _ => ret (RaisedException e)
  end.

(** [main] from the connection test on (lines 198-228).  [pending] is what
    will reach the scheduler while it blocks. *)
Definition main_loop (scheduler_config : SchedulerConfig)
           (pending : list SchedEvent) : M LoopState :=
  connected <- connect_qbittorrent;;
  if negb connected then
    logger_error MsgInitialConnectFailed;;
    ret NotStarted
  else
    (* line 207, outside every [try]: what the constructor raises leaves
       [main] *)
    lift (IntervalTrigger (interval_minutes scheduler_config));;
    emit (AddJob (interval_minutes scheduler_config));;
    logger_info MsgFirstCheck;;
    cleanup_torrents;;
    logger_info (MsgServiceStarted (interval_minutes scheduler_config));;
    exit <- scheduler_start cleanup_torrents pending;;
    match exit with
    | StillBlocking => ret Waiting
    | RaisedKeyboardInterrupt =>
        logger_info MsgStopSignal;;
        emit Shutdown;;
        ret Stopped
    | RaisedException e =>
        logger_error (MsgSchedulerError e);;
        emit Shutdown;;
        ret Stopped
    end.

(** The outcome of [main]: it raised or stands in a loop state, the world it
    left and everything it logged and requested. *)
Record MainResult : Type := mkMain {
  exit : exn + LoopState;
  world_after : W;
  trace : list Event
}.

(** [main()] (lines 186-228), in the environment [environ]. *)
Definition main (environ : str -> option str) (pending : list SchedEvent)
           (w : W) : MainResult :=
  match load_config py_float py_int lower environ with
  | inl e => mkMain (inl e) w [Log INFO MsgServiceStarting]
  | inr config =>
      let qb_config := qbittorrent config in
      let scheduler_config := scheduler config in
      let cleaner := init Client qb_config in
      let r := main_loop scheduler_config pending (mkState cleaner w) in
      mkMain (res r) (world (state r)) (Log INFO MsgServiceStarting :: events r)
  end.

End Main.

(* ================================================================= *)
(** * Vocabulary of the properties *)

(** ** Reading a trace *)

(** The events of a trace that [f] selects, in order. *)
Definition pick {A : Type} (f : Event -> option A) (evs : list Event) : list A :=
  flat_map (fun ev => match f ev with Some a => [a] | None => [] end) evs.

(** What [logger.error] received: the errors a pass reports. *)
Definition errors : list Event -> list LogMsg :=
  pick (fun ev => match ev with Log ERROR msg => Some msg | _ => None end).

(** The listing requests, each with the exception it raised, if any. *)
Definition listing_calls : list Event -> list (option exn) :=
  pick (fun ev => match ev with
                  | Call (ReqTorrentsInfo _) failure => Some failure
                  | _ => None
                  end).

(** The deletion requests: the hash asked for and the exception raised. *)
Definition delete_calls : list Event -> list (str * option exn) :=
  pick (fun ev => match ev with
                  | Call (ReqTorrentsDelete _ h) failure => Some (h, failure)
                  | _ => None
                  end).

(** The records found to meet the deletion condition, by name. *)
Definition condemned : list Event -> list str :=
  pick (fun ev => match ev with
                  | Log INFO (MsgMeetsCondition nm _ _) => Some nm
                  | _ => None
                  end).

(** The number of completed records a pass reports having found. *)
Definition considered : list Event -> list nat :=
  pick (fun ev => match ev with Log INFO (MsgFound n) => Some n | _ => None end).

(** The number of deletions a pass reports at its end. *)
Definition deleted : list Event -> list nat :=
  pick (fun ev => match ev with
                  | Log INFO (MsgCleanupDone n) => Some n
                  | _ => None
                  end).

(** What the client answered, as the trace records it. *)
Definition failure_of {A : Type} (v : exn + A) : option exn :=
  match v with inl e => Some e | inr _ => None end.

(** ** The policy *)

(** The category the policy looks at: the [tags] entry, or the empty string
    when there is none. *)
Definition category (torrent : Torrent) : str := get (tags torrent) (lit "").

(** [self] with another include list. *)
Definition with_include_tags {Client : Type}
           (o : QBittorrentAutoMate Client) (l : list str)
  : QBittorrentAutoMate Client :=
  {| qb_config := qb_config o; qb := qb o;
     ratio_limit := ratio_limit o; seeding_time_limit := seeding_time_limit o;
     exclude_tags := exclude_tags o; include_tags := l |}.

(** The value of a number, exactly.  Every finite float is a whole multiple
    of [2^-1074], the smallest positive float, and so is every [int]: a
    finite value is given as that multiple. *)
Inductive Exact : Type :=
| NotANumber
| MinusInfinity
| PlusInfinity
| Finite (n : Z).

Definition SF_exact (f : spec_float) : Exact :=
  match f with
  | S754_nan => NotANumber
  | S754_infinity s => if s then MinusInfinity else PlusInfinity
  | S754_zero _ => Finite 0
  | S754_finite s m e => Finite ((if s then Zneg m else Zpos m) * 2 ^ (e + 1074))
  end.

Definition exact (x : num) : Exact :=
  match x with
  | PyInt z => Finite (z * 2 ^ 1074)
  | PyFloat f => SF_exact (Prim2SF f)
  end.

(** The order of exact values; nothing compares with what is not a number. *)
Definition exact_compare (a b : Exact) : option comparison :=
  match a, b with
  | NotANumber, _ | _, NotANumber => None
  | MinusInfinity, MinusInfinity => Some Eq
  | MinusInfinity, _ => Some Lt
  | _, MinusInfinity => Some Gt
  | PlusInfinity, PlusInfinity => Some Eq
  | PlusInfinity, _ => Some Gt
  | _, PlusInfinity => Some Lt
  | Finite p, Finite q => Some (p ?= q)%Z
  end.

(** [a >= b] read as a statement on exact values: the value of [a] is at
    least the value of [b]. *)
Definition at_least (a b : Exact) : bool :=
  match a, b with
  | NotANumber, _ | _, NotANumber => false
  | _, MinusInfinity => true
  | PlusInfinity, _ => true
  | MinusInfinity, _ => false
  | _, PlusInfinity => false
  | Finite p, Finite q => (q <=? p)%Z
  end.

(** The number [x] reaches the limit [y]. *)
Definition reaches (x y : num) : Prop := at_least (exact x) (exact y) = true.

(** The record can be written to the log: its ratio is a [float], or an
    [int] within the range of floats. *)
Definition loggable (torrent : Torrent) : Prop := format_f (ratio torrent) = inr tt.

(** The three entries [connect_qbittorrent] insists on. *)
Definition credentials_present (cfg : QbConfig.t) : bool :=
  match QbConfig.url cfg, QbConfig.username cfg, QbConfig.password cfg with
  | Some _, Some _, Some _ => true
  | _, _, _ => false
  end.

(** ** The scheduler's events *)

(** The events up to the first one that is not a fire: the number of fires,
    and what ended them. *)
Fixpoint fires (pending : list SchedEvent) : nat :=
  match pending with
  | Fire :: later => S (fires later)
  | _ => 0
  end.

Fixpoint stop_cause (pending : list SchedEvent) : option SchedEvent :=
  match pending with
  | [] => None
  | Fire :: later => stop_cause later
  | ev :: _ => Some ev
  end.

(** What [main] logs and does when [scheduler.start()] is left. *)
Definition closing (cause : option SchedEvent) : list Event :=
  match cause with
  | Some Interrupt => [Log INFO MsgStopSignal; Shutdown]
  | Some (Fault e) => [Log ERROR (MsgSchedulerError e); Shutdown]
  | _ => []
  end.

Definition is_Interrupt (ev : SchedEvent) : bool :=
  match ev with Interrupt => true | _ => false end.

(** ** Passes *)

Section Vocabulary.
Context {W Client : Type} {api : ClientAPI W Client}.

(** [self.qb_config.get('delete_files', False)] *)
Definition purge (s : State W Client) : bool :=
  get (QbConfig.delete_files (qb_config (self s))) false.

(** The record qualifies for deletion in state [s]. *)
Definition qualifies (s : State W Client) (torrent : Torrent) : bool :=
  match res (should_delete_torrent torrent s) with
  | inr true => true
  | _ => false
  end.

(** The policy gives a verdict on the record (the decision does not raise). *)
Definition decided (s : State W Client) (torrent : Torrent) : Prop :=
  exists verdict, res (should_delete_torrent torrent s) = inr verdict.

(** The part of [cleanup_torrents] after the connection check. *)
Definition checked_pass : M W Client unit :=
  logger_info MsgChecking;;
  try_except
    (completed_torrents <- get_completed_torrents;;
     logger_info (MsgFound (List.length completed_torrents));;
     deleted_count <- cleanup_loop completed_torrents 0;;
     logger_info (MsgCleanupDone deleted_count))
    (fun e => logger_error (MsgCleanupError e)).

(** [n] passes in a row. *)
Fixpoint passes (n : nat) : M W Client unit :=
  match n with
  | O => ret tt
  | S k => cleanup_torrents;; passes k
  end.

(** Something in the [try] block of [connect_qbittorrent] raises an
    exception that the inner [except LoginFailed] does not take: the lookup of
    the port, the construction of the client, or, with an exception other
    than [LoginFailed], the login or the version request. *)
Definition attempt_raises (s : State W Client) : Prop :=
  let cfg := qb_config (self s) in
  exists url username password,
    QbConfig.url cfg = Some url /\
    QbConfig.username cfg = Some username /\
    QbConfig.password cfg = Some password /\
    (QbConfig.port cfg = None \/
     exists port,
       QbConfig.port cfg = Some port /\
       ((exists e w1,
            new_Client url port username password (world s) = (inl e, w1)) \/
        (exists c w1 e w2,
            new_Client url port username password (world s) = (inr c, w1) /\
            auth_log_in c w1 = (inl e, w2) /\
            is_LoginFailed e = false) \/
        (exists c w1 w2 e w3,
            new_Client url port username password (world s) = (inr c, w1) /\
            auth_log_in c w1 = (inr tt, w2) /\
            app_version c w2 = (inl e, w3) /\
            is_LoginFailed e = false))).

End Vocabulary.

(* ================================================================= *)
(** * A simulated qBittorrent service *)

(** A small service to run the program against.  The world is the list of
    completed torrents the service holds; a successful deletion removes the
    torrent; [Faults] tells which calls fail, and how. *)
Module Sim.

Record Faults : Type := {
  client_error : option exn;             (* raised by [Client(...)] *)
  login_error : option exn;              (* raised by [auth_log_in] *)
  version_error : option exn;            (* raised by [app_version] *)
  listing_error : option exn;            (* raised by [torrents_info] *)
  delete_errors : list (str * exn)       (* raised by [torrents_delete], by hash *)
}.

Definition Inventory : Type := list Torrent.

(** The client handle remembers what it was built from. *)
Record Handle : Type := {
  host : str;
  port : str;
  username : str;
  password : str
}.

Fixpoint lookup (h : str) (l : list (str * exn)) : option exn :=
  match l with
  | [] => None
  | (k, e) :: l' => if str_eqb h k then Some e else lookup h l'
  end.

Definition answer {A : Type} (failure : option exn) (a : A) (w : Inventory)
  : (exn + A) * Inventory :=
  match failure with
  | Some e => (inl e, w)
  | None => (inr a, w)
  end.

Definition api (f : Faults) : ClientAPI Inventory Handle := {|
  new_Client := fun h p u pw w =>
    answer (client_error f)
           {| host := h; port := p; username := u; password := pw |} w;
  auth_log_in := fun _ w => answer (login_error f) tt w;
  app_version := fun _ w => answer (version_error f) (lit "v5.0.0") w;
  torrents_info := fun _ _ w => answer (listing_error f) w w;
  torrents_delete := fun _ _ h w =>
    match lookup h (delete_errors f) with
    | Some e => (inl e, w)
    | None => (inr tt, filter (fun t => negb (str_eqb (hash t) h)) w)
    end
|}.

(** No call fails. *)
Definition healthy : Faults :=
  {| client_error := None; login_error := None; version_error := None;
     listing_error := None; delete_errors := [] |}.

Definition connection_refused : exn :=
  OtherException (lit "APIConnectionError") (lit "connection refused").

Definition not_found : exn :=
  OtherException (lit "NotFound404Error") (lit "torrent is gone").

(** The login request cannot reach the service. *)
Definition unreachable : Faults :=
  {| client_error := None; login_error := Some connection_refused;
     version_error := None; listing_error := None; delete_errors := [] |}.

Definition forbidden : exn :=
  OtherException (lit "Forbidden403Error") (lit "not logged in").

(** The service refuses the credentials, and then every request. *)
Definition bad_password : Faults :=
  {| client_error := None; login_error := Some (LoginFailed (lit "Forbidden"));
     version_error := Some forbidden; listing_error := Some forbidden;
     delete_errors := [] |}.

(** The listing request fails. *)
Definition listing_down : Faults :=
  {| client_error := None; login_error := None; version_error := None;
     listing_error := Some connection_refused; delete_errors := [] |}.

(** The torrent with hash [h] cannot be deleted. *)
Definition undeletable (h : string) : Faults :=
  {| client_error := None; login_error := None; version_error := None;
     listing_error := None; delete_errors := [(lit h, not_found)] |}.

(** A torrent whose hash is its name. *)
Definition torrent (nm tg : string) (r : num) (secs : Z) : Torrent :=
  {| tags := Some (lit tg); ratio := r; seeding_time := PyInt secs;
     name := lit nm; hash := lit nm |}.

(** The configuration [load_config] builds from an empty environment, with
    the given category lists. *)
Definition config (exclude include : list string) : QbConfig.t :=
  {| QbConfig.url := Some (lit "http://localhost");
     QbConfig.port := Some (lit "8080");
     QbConfig.username := Some (lit "admin");
     QbConfig.password := Some (lit "adminadmin");
     QbConfig.ratio_limit := Some (PyFloat 2.0);
     QbConfig.seeding_time_limit := Some (PyFloat 120);
     QbConfig.delete_files := Some false;
     QbConfig.exclude_tags := Some (map lit exclude);
     QbConfig.include_tags := Some (map lit include) |}.

(** A configuration without the address of the service. *)
Definition config_without_url : QbConfig.t :=
  {| QbConfig.url := None;
     QbConfig.port := Some (lit "8080");
     QbConfig.username := Some (lit "admin");
     QbConfig.password := Some (lit "adminadmin");
     QbConfig.ratio_limit := None;
     QbConfig.seeding_time_limit := None;
     QbConfig.delete_files := None;
     QbConfig.exclude_tags := None;
     QbConfig.include_tags := None |}.

Definition handle : Handle :=
  {| host := lit "http://localhost"; port := lit "8080";
     username := lit "admin"; password := lit "adminadmin" |}.

(** A cleaner that already holds a handle. *)
Definition connected (cfg : QbConfig.t) : QBittorrentAutoMate Handle :=
  {| qb_config := cfg;
     qb := Some handle;
     ratio_limit := get (QbConfig.ratio_limit cfg) (PyFloat 2.0);
     seeding_time_limit := get (QbConfig.seeding_time_limit cfg) (PyInt 120);
     exclude_tags := get (QbConfig.exclude_tags cfg) [];
     include_tags := get (QbConfig.include_tags cfg) [] |}.

(** Four completed torrents: over the ratio limit, over the seeding-time
    limit, under both, and a well-seeded one tagged [movies]. *)
Definition over_ratio : Torrent := torrent "a" "" (PyFloat 2.5) 3600.
Definition over_time : Torrent := torrent "b" "" (PyFloat 0.5) 9000.
Definition under_both : Torrent := torrent "c" "" (PyFloat 0.5) 3000.
Definition movie : Torrent := torrent "d" "movies" (PyInt 10) 9000.

Definition inventory : Inventory := [over_ratio; over_time; under_both; movie].

(** Stand-ins for [float(s)], [int(s)] and [s.lower()], enough for the
    values of the examples. *)
Definition py_float (s : str) : exn + float :=
  if str_eqb s (lit "2.0") then inr 2.0%float
  else if str_eqb s (lit "120") then inr 120%float
  else inl (ValueError (lit "could not convert string to float")).

Definition py_int (s : str) : exn + Z :=
  if str_eqb s (lit "60") then inr 60%Z
  else inl (ValueError (lit "invalid literal for int() with base 10")).

Definition lower (s : str) : str :=
  map (fun c => if ((65 <=? c) && (c <=? 90))%N then (c + 32)%N else c) s.

(** A stand-in for [IntervalTrigger(minutes=m)]: within a thousand million
    minutes the first run time is a date, far beyond it is not. *)
Definition IntervalTrigger (minutes : Z) : exn + unit :=
  if (Z.abs minutes <=? 1000000000)%Z then inr tt
  else inl (OverflowError (lit "date value out of range")).

(** An environment that sets the two category lists. *)
Definition environ (exclude include : string) (key : str) : option str :=
  if str_eqb key (lit "EXCLUDE_TAGS") then Some (lit exclude)
  else if str_eqb key (lit "INCLUDE_TAGS") then Some (lit include)
  else None.

(** What [load_config] returns in such an environment. *)
Definition loaded (exclude include : list string) : Config :=
  {| qbittorrent := config exclude include;
     scheduler := {| interval_minutes := 60 |} |}.

End Sim.

(* ================================================================= *)
(** * Further vocabulary *)

(** ** More readings of a trace *)

(** The requests that build the client and log in. *)
Definition connection_calls : list Event -> list Request :=
  pick (fun ev => match ev with
                  | Call (ReqClient h p u pw) _ => Some (ReqClient h p u pw)
                  | Call ReqAuthLogIn _ => Some ReqAuthLogIn
                  | Call ReqAppVersion _ => Some ReqAppVersion
                  | _ => None
                  end).

(** The [status_filter] of each listing request. *)
Definition listing_filters : list Event -> list str :=
  pick (fun ev => match ev with
                  | Call (ReqTorrentsInfo f) _ => Some f
                  | _ => None
                  end).

(** The [delete_files] flag of each deletion request. *)
Definition delete_flags : list Event -> list bool :=
  pick (fun ev => match ev with
                  | Call (ReqTorrentsDelete df _) _ => Some df
                  | _ => None
                  end).

(** The jobs registered with the scheduler, by interval. *)
Definition jobs : list Event -> list Z :=
  pick (fun ev => match ev with AddJob minutes => Some minutes | _ => None end).

(** The error records that a list of deletion answers calls for: one for
    each record whose deletion raised. *)
Definition refusals (answers : list (Torrent * option exn)) : list LogMsg :=
  flat_map (fun a => match snd a with
                     | Some e => [MsgDeleteFailed (name (fst a)) e]
                     | None => []
                     end) answers.

(** The number of answers that are not an exception. *)
Definition successes (answers : list (option exn)) : nat :=
  List.length (filter (fun a => match a with None => true | Some _ => false end)
                      answers).

(** ** The object and its policy *)

(** Two objects that differ at most in their handle. *)
Definition same_policy {Client : Type} (o o' : QBittorrentAutoMate Client) : Prop :=
  qb_config o = qb_config o' /\
  ratio_limit o = ratio_limit o' /\
  seeding_time_limit o = seeding_time_limit o' /\
  exclude_tags o = exclude_tags o' /\
  include_tags o = include_tags o'.

(** A number that is a float NaN. *)
Definition is_nan (x : num) : bool :=
  match x with
  | PyFloat f => PrimFloat.is_nan f
  | PyInt _ => false
  end.

(** ** Category lists in the environment *)

(** [sep.join(l)] for a one-character separator. *)
Fixpoint join (sep : N) (l : list str) : str :=
  match l with
  | [] => []
  | [x] => x
  | x :: l' => x ++ sep :: join sep l'
  end.

(** A string that does not start with white space. *)
Definition starts_clean (s : str) : Prop :=
  match s with
  | [] => True
  | c :: _ => isspace c = false
  end.

(** A category that can be written in a comma-separated list as it is: not
    empty, without a comma, without white space at either end. *)
Definition plain_tag (x : str) : Prop :=
  x <> [] /\ ~ In comma x /\ strip x = x.

(** The list [load_config] reads from the value of a category variable. *)
Definition parsed_tags (value : str) : list str :=
  map strip (filter (fun cat => truthy (strip cat)) (split comma value)).

(** The calls of [scheduler.shutdown()]. *)
Definition shutdowns : list Event -> list unit :=
  pick (fun ev => match ev with Shutdown => Some tt | _ => None end).

(** ** A service that does what it is asked *)

(** The inventory without the torrents whose hash is among [hashes]. *)
Definition survivors (hashes : list str) (ts : list Torrent) : list Torrent :=
  filter (fun t => negb (str_in (hash t) hashes)) ts.

(** The service is obedient, as seen through [view], the completed torrents
    it holds: a listing shows them and changes nothing, and a deletion
    succeeds and removes the torrents of the hash it names, and no other. *)
Definition obedient {W Client : Type} {api : ClientAPI W Client}
           (view : W -> list Torrent) : Prop :=
  (forall c f w, torrents_info c f w = (inr (view w), w)) /\
  (forall c df h w, exists w',
      torrents_delete c df h w = (inr tt, w') /\
      view w' = survivors [h] (view w)).

(** ** Inputs of the further examples *)

Module Cases.

(** A seeding time past the range of floats: dividing it raises. *)
Definition endless : Torrent :=
  {| tags := Some (lit ""); ratio := PyFloat 3.0; seeding_time := PyInt (2 ^ 1100);
     name := lit "x"; hash := lit "x" |}.

(** [over_ratio], then [endless], then [over_time]. *)
Definition with_endless : Sim.Inventory := [Sim.over_ratio; endless; Sim.over_time].

(** Two of the three condemned torrents cannot be deleted. *)
Definition two_undeletable : Sim.Faults :=
  {| Sim.client_error := None; Sim.login_error := None; Sim.version_error := None;
     Sim.listing_error := None;
     Sim.delete_errors := [(lit "a", Sim.not_found); (lit "d", Sim.connection_refused)] |}.

(** A configuration without the port of the service. *)
Definition config_without_port : QbConfig.t :=
  {| QbConfig.url := Some (lit "http://localhost");
     QbConfig.port := None;
     QbConfig.username := Some (lit "admin");
     QbConfig.password := Some (lit "adminadmin");
     QbConfig.ratio_limit := None;
     QbConfig.seeding_time_limit := None;
     QbConfig.delete_files := Some true;
     QbConfig.exclude_tags := None;
     QbConfig.include_tags := None |}.

(** A ratio no float can hold, so none that the log record can format; the
    record has not been seeded at all. *)
Definition huge_ratio : Torrent :=
  {| tags := Some (lit ""); ratio := PyInt (10 ^ 400); seeding_time := PyInt 0;
     name := lit "h"; hash := lit "h" |}.

(** [over_ratio], whose deletion fails, then [huge_ratio], then
    [over_time]. *)
Definition with_huge_ratio : Sim.Inventory :=
  [Sim.over_ratio; huge_ratio; Sim.over_time].

(** An environment whose [CHECK_INTERVAL] is ten thousand million minutes,
    some nineteen thousand years. *)
Definition far_interval_environ (key : str) : option str :=
  if str_eqb key (lit "CHECK_INTERVAL") then Some (lit "10000000000") else None.

(** [int(s)] for the values of the examples, that interval included. *)
Definition py_int (s : str) : exn + Z :=
  if str_eqb s (lit "10000000000") then inr 10000000000%Z else Sim.py_int s.

(** An environment whose [RATIO_LIMIT] is not a number. *)
Definition bad_ratio_environ (key : str) : option str :=
  if str_eqb key (lit "RATIO_LIMIT") then Some (lit "two") else None.

(** The configuration read when both limits are the text [nan], which
    [float] accepts. *)
Definition nan_config : QbConfig.t :=
  {| QbConfig.url := Some (lit "http://localhost");
     QbConfig.port := Some (lit "8080");
     QbConfig.username := Some (lit "admin");
     QbConfig.password := Some (lit "adminadmin");
     QbConfig.ratio_limit := Some (PyFloat PrimFloat.nan);
     QbConfig.seeding_time_limit := Some (PyFloat PrimFloat.nan);
     QbConfig.delete_files := Some false;
     QbConfig.exclude_tags := Some [];
     QbConfig.include_tags := Some [] |}.

End Cases.

(* ================================================================= *)
(** * Properties *)

Unset Implicit Arguments.

(** ** Strings and membership *)

Lemma str_eqb_eq (a b : str) : str_eqb a b = true <-> a = b.
Proof.
  revert b; induction a as [|x a IH]; intros [|y b]; simpl.
  - tauto.
  - split; discriminate.
  - split; discriminate.
  - rewrite andb_true_iff, N.eqb_eq, IH.
    split; [intros [-> ->]; reflexivity | intros [= -> ->]; auto].
Qed.

Lemma str_eqb_refl (a : str) : str_eqb a a = true.
Proof. apply str_eqb_eq; reflexivity. Qed.

(** [x in l] decides membership. *)
Lemma str_in_In (x : str) (l : list str) : str_in x l = true <-> In x l.
Proof.
  unfold str_in; rewrite existsb_exists; split.
  - intros (y & Hy & E); apply str_eqb_eq in E; subst; assumption.
  - intros H; exists x; split; [assumption | apply str_eqb_refl].
Qed.

Lemma str_in_not_In (x : str) (l : list str) : str_in x l = false <-> ~ In x l.
Proof.
  rewrite <- str_in_In; destruct (str_in x l); split; congruence.
Qed.

(* ================================================================= *)
(** ** Numbers: the order of the program is the order of the values *)

Lemma digits2_bounds (m : positive) :
  (2 ^ (Zpos (digits2_pos m) - 1) <= Zpos m < 2 ^ Zpos (digits2_pos m))%Z.
Proof.
  assert (step : forall d : Z, (0 < d)%Z -> (2 ^ d = 2 * 2 ^ (d - 1))%Z).
  { intros d H; rewrite <- Z.pow_succ_r by lia; f_equal; lia. }
  induction m as [m IH | m IH |]; cbn [digits2_pos].
  - rewrite Pos2Z.inj_succ, (Pos2Z.inj_xI m).
    set (d := Zpos (digits2_pos m)) in *.
    assert (H : (0 < d)%Z) by (subst d; lia).
    clearbody d.
    pose proof (step (Z.succ d) ltac:(lia)) as S1.
    pose proof (step d H) as S2.
    replace (Z.succ d - 1)%Z with d in * by lia.
    generalize dependent (2 ^ Z.succ d)%Z; generalize dependent (2 ^ (d - 1))%Z;
      generalize dependent (2 ^ d)%Z; intros; clear step; lia.
  - rewrite Pos2Z.inj_succ, (Pos2Z.inj_xO m).
    set (d := Zpos (digits2_pos m)) in *.
    assert (H : (0 < d)%Z) by (subst d; lia).
    clearbody d.
    pose proof (step (Z.succ d) ltac:(lia)) as S1.
    pose proof (step d H) as S2.
    replace (Z.succ d - 1)%Z with d in * by lia.
    generalize dependent (2 ^ Z.succ d)%Z; generalize dependent (2 ^ (d - 1))%Z;
      generalize dependent (2 ^ d)%Z; intros; clear step; lia.
  - simpl; lia.
Qed.

(** What validity says of a finite float: the exponent is at least -1074, the
    mantissa has at most 53 bits, and exactly 53 above the least exponent. *)
Lemma valid_finite (s : bool) (m : positive) (e : Z) :
  valid_binary (S754_finite s m e) = true ->
  (-1074 <= e)%Z /\ (Zpos m < 2 ^ 53)%Z /\ (e = -1074 \/ 2 ^ 52 <= Zpos m)%Z.
Proof.
  unfold SpecFloat.valid_binary, bounded, canonical_mantissa, fexp, SpecFloat.emin.
  intros H; apply andb_true_iff in H; destruct H as [H _].
  apply Z.eqb_eq in H.
  change prec with 53%Z in H; change emax with 1024%Z in H.
  pose proof (digits2_bounds m) as [L U].
  set (d := Zpos (digits2_pos m)) in *.
  assert (0 < d)%Z by (subst d; lia).
  assert (D : (d <= 53)%Z) by lia.
  split; [lia |]; split.
  - apply Z.lt_le_trans with (2 ^ d)%Z; [exact U |].
    apply Z.pow_le_mono_r; lia.
  - destruct (Z.eq_dec e (-1074)) as [E | N]; [left; exact E | right].
    assert (d = 53)%Z by lia.
    replace 52%Z with (d - 1)%Z by lia; exact L.
Qed.

Lemma pow2_pos (k : Z) : (0 <= k -> 0 < 2 ^ k)%Z.
Proof. intros; apply Z.pow_pos_nonneg; lia. Qed.

Lemma compare_scaled (a b p : Z) : (0 < p)%Z -> (a * p ?= b * p)%Z = (a ?= b)%Z.
Proof.
  intros H; destruct (Z.compare_spec a b) as [E | L | G].
  - subst b; apply Z.compare_refl.
  - apply Z.compare_lt_iff; nia.
  - apply Z.compare_gt_iff; nia.
Qed.

(** Two valid finite floats of the same sign: a smaller exponent is a
    smaller magnitude. *)
Lemma magnitude_lt (m1 m2 : positive) (e1 e2 : Z) :
  valid_binary (S754_finite false m1 e1) = true ->
  valid_binary (S754_finite false m2 e2) = true ->
  (e1 < e2)%Z ->
  (Zpos m1 * 2 ^ (e1 + 1074) < Zpos m2 * 2 ^ (e2 + 1074))%Z.
Proof.
  intros V1 V2 L.
  apply (valid_finite false) in V1; destruct V1 as (A1 & B1 & _).
  apply (valid_finite false) in V2; destruct V2 as (A2 & _ & [C2 | C2]); [lia |].
  replace (e2 + 1074)%Z with ((e2 - e1 - 1) + 1 + (e1 + 1074))%Z by lia.
  rewrite (Z.pow_add_r 2 (e2 - e1 - 1 + 1) (e1 + 1074)) by lia.
  rewrite (Z.pow_add_r 2 (e2 - e1 - 1) 1) by lia.
  pose proof (pow2_pos (e1 + 1074) ltac:(lia)) as P.
  pose proof (pow2_pos (e2 - e1 - 1) ltac:(lia)) as Q.
  change (2 ^ 1)%Z with 2%Z.
  change (2 ^ 53)%Z with (2 * 2 ^ 52)%Z in B1.
  set (p := (2 ^ (e1 + 1074))%Z) in *.
  set (q := (2 ^ (e2 - e1 - 1))%Z) in *.
  set (h := (2 ^ 52)%Z) in *.
  assert (Zpos m1 * p < 2 * h * p)%Z by nia.
  assert (2 * h * p <= Zpos m2 * (1 * 2 * p))%Z by nia.
  assert (Zpos m2 * (1 * 2 * p) <= Zpos m2 * (q * 2 * p))%Z by nia.
  lia.
Qed.

(** [SFcompare] on valid floats is the order of their exact values. *)
Lemma SFcompare_exact (p q : spec_float) :
  valid_binary p = true -> valid_binary q = true ->
  SFcompare p q = exact_compare (SF_exact p) (SF_exact q).
Proof.
  intros Vp Vq.
  destruct p as [sp | sp | | sp mp ep], q as [sq | sq | | sq mq eq];
    try reflexivity; cbn [SFcompare SF_exact exact_compare].
  - (* zero, infinity *) destruct sq; reflexivity.
  - (* zero, finite *)
    destruct (valid_finite sq mq eq Vq) as (A & _).
    pose proof (pow2_pos (eq + 1074) ltac:(lia)).
    f_equal; destruct sq; symmetry.
    + apply Z.compare_gt_iff; nia.
    + apply Z.compare_lt_iff; nia.
  - destruct sp; reflexivity.
  - destruct sp, sq; reflexivity.
  - destruct sp; reflexivity.
  - destruct sp; reflexivity.
  - (* finite, zero *)
    destruct (valid_finite sp mp ep Vp) as (A & _).
    pose proof (pow2_pos (ep + 1074) ltac:(lia)).
    f_equal; destruct sp; symmetry.
    + apply Z.compare_lt_iff; nia.
    + apply Z.compare_gt_iff; nia.
  - destruct sq; reflexivity.
  - (* finite, finite *)
    destruct (valid_finite sp mp ep Vp) as (A1 & _).
    destruct (valid_finite sq mq eq Vq) as (A2 & _).
    pose proof (pow2_pos (ep + 1074) ltac:(lia)) as P1.
    pose proof (pow2_pos (eq + 1074) ltac:(lia)) as P2.
    f_equal.
    change (PosDef.Pos.compare_cont Eq mp mq) with (Pos.compare mp mq).
    destruct sp, sq.
    + (* both negative *)
      destruct (Z.compare_spec ep eq) as [E | L | G]; symmetry.
      * subst eq.
        destruct (Pos.compare_spec mp mq) as [E' | L' | G']; cbn [CompOpp].
        -- apply Z.compare_eq_iff; subst mq; reflexivity.
        -- apply Z.compare_gt_iff.
           change (Zneg mp) with (- Zpos mp)%Z; change (Zneg mq) with (- Zpos mq)%Z; nia.
        -- apply Z.compare_lt_iff.
           change (Zneg mp) with (- Zpos mp)%Z; change (Zneg mq) with (- Zpos mq)%Z; nia.
      * pose proof (magnitude_lt mp mq ep eq Vp Vq L).
        apply Z.compare_gt_iff.
        change (Zneg mp) with (- Zpos mp)%Z; change (Zneg mq) with (- Zpos mq)%Z; lia.
      * pose proof (magnitude_lt mq mp eq ep Vq Vp G).
        apply Z.compare_lt_iff.
        change (Zneg mp) with (- Zpos mp)%Z; change (Zneg mq) with (- Zpos mq)%Z; lia.
    + symmetry; apply Z.compare_lt_iff.
      change (Zneg mp) with (- Zpos mp)%Z; nia.
    + symmetry; apply Z.compare_gt_iff.
      change (Zneg mq) with (- Zpos mq)%Z; nia.
    + destruct (Z.compare_spec ep eq) as [E | L | G]; symmetry.
      * subst eq.
        destruct (Pos.compare_spec mp mq) as [E' | L' | G'].
        -- apply Z.compare_eq_iff; subst mq; reflexivity.
        -- apply Z.compare_lt_iff; nia.
        -- apply Z.compare_gt_iff; nia.
      * apply Z.compare_lt_iff; exact (magnitude_lt mp mq ep eq Vp Vq L).
      * apply Z.compare_gt_iff; exact (magnitude_lt mq mp eq ep Vq Vp G).
Qed.

Lemma at_least_compare (a b : Exact) :
  at_least a b = match exact_compare b a with
                 | Some Eq | Some Lt => true
                 | _ => false
                 end.
Proof.
  destruct a as [| | | p], b as [| | | q]; reflexivity.
Qed.

(** The comparison of an [int] with a float is the order of the exact
    values. *)
Lemma Z_compare_float_exact (z : Z) (f : float) :
  Z_compare_float z f = exact_compare (exact (PyInt z)) (exact (PyFloat f)).
Proof.
  unfold Z_compare_float; cbn [exact].
  pose proof (Prim2SF_valid f) as V.
  destruct (Prim2SF f) as [s | s | | s m e]; cbn [SF_exact exact_compare].
  - f_equal; symmetry.
    pose proof (pow2_pos 1074 ltac:(lia)) as P.
    destruct (Z.compare_spec z 0) as [E | L | G].
    + subst z; reflexivity.
    + apply Z.compare_lt_iff; nia.
    + apply Z.compare_gt_iff; nia.
  - destruct s; reflexivity.
  - reflexivity.
  - destruct (valid_finite s m e V) as (A & _).
    set (v := if s then Zneg m else Zpos m).
    f_equal.
    destruct e as [| pe | pe].
    + rewrite Z.shiftl_0_r; cbn [Z.add].
      pose proof (pow2_pos 1074 ltac:(lia)) as P.
      symmetry; apply compare_scaled; exact P.
    + rewrite Z.shiftl_mul_pow2 by lia.
      rewrite Z.pow_add_r by lia.
      rewrite Z.mul_assoc.
      pose proof (pow2_pos 1074 ltac:(lia)) as P.
      symmetry; apply compare_scaled; exact P.
    + rewrite Z.shiftl_mul_pow2 by lia.
      replace 1074%Z with (Zpos pe + (Zneg pe + 1074))%Z at 1 by lia.
      rewrite Z.pow_add_r by lia.
      rewrite Z.mul_assoc.
      pose proof (pow2_pos (Zneg pe + 1074) ltac:(lia)) as P.
      symmetry; apply compare_scaled; exact P.
Qed.

Lemma exact_compare_antisym (a b : Exact) :
  exact_compare b a = match exact_compare a b with
                      | Some c => Some (CompOpp c)
                      | None => None
                      end.
Proof.
  destruct a as [| | | p], b as [| | | q]; try reflexivity.
  cbn [exact_compare]; rewrite (Z.compare_antisym p q); reflexivity.
Qed.

(** [x >= y] of the program is the order of the exact values. *)
Lemma ge_exact (x y : num) : ge x y = at_least (exact x) (exact y).
Proof.
  rewrite at_least_compare.
  destruct x as [a | a], y as [b | b]; cbn [ge].
  - cbn [exact exact_compare].
    pose proof (pow2_pos 1074 ltac:(lia)) as P.
    rewrite (compare_scaled b a _ P).
    unfold Z.leb; destruct (b ?= a)%Z; reflexivity.
  - rewrite (exact_compare_antisym (exact (PyInt a)) (exact (PyFloat b))).
    rewrite <- Z_compare_float_exact.
    destruct (Z_compare_float a b) as [[| |]|]; reflexivity.
  - rewrite <- Z_compare_float_exact.
    destruct (Z_compare_float b a) as [[| |]|]; reflexivity.
  - rewrite leb_spec; unfold SFleb; cbn [exact].
    rewrite (SFcompare_exact _ _ (Prim2SF_valid b) (Prim2SF_valid a)).
    reflexivity.
Qed.

(** [x >= y] holds exactly when [x] reaches [y]. *)
Lemma ge_reaches (x y : num) : ge x y = true <-> reaches x y.
Proof. unfold reaches; rewrite ge_exact; tauto. Qed.

(** True division returns a [float]. *)
Lemma truediv_float (x y m : num) :
  truediv x y = inr m -> exists f, m = PyFloat f.
Proof.
  destruct x as [a | a], y as [b | b]; cbn [truediv]; intros H.
  - destruct (int_truediv a b); [discriminate | injection H as <-; eexists; reflexivity].
  - destruct (float_of_int a); [discriminate |].
    destruct (float_truediv _ b); [discriminate | injection H as <-; eexists; reflexivity].
  - destruct (float_of_int b); [discriminate |].
    destruct (float_truediv a _); [discriminate | injection H as <-; eexists; reflexivity].
  - destruct (float_truediv a b); [discriminate | injection H as <-; eexists; reflexivity].
Qed.

(** The edge of formatting: the first [int] that no float holds rounds to
    [2^1024]. *)
Example format_f_edge :
  format_f (PyInt (2 ^ 1024 - 2 ^ 970 - 1)) = inr tt /\
  format_f (PyInt (2 ^ 1024 - 2 ^ 970))
    = inl (OverflowError (lit "int too large to convert to float")) /\
  format_f (PyFloat infinity) = inr tt.
Proof. vm_compute; repeat split; reflexivity. Qed.

(** The [int] 2 and the [float] 2.0 have the same value; 0.5 is less. *)
Example exact_values :
  exact (PyInt 2) = exact (PyFloat 2.0) /\
  exact (PyFloat 0.5) = Finite (2 ^ 1073) /\
  at_least (exact (PyFloat 0.5)) (exact (PyInt 2)) = false.
Proof. vm_compute; repeat split; reflexivity. Qed.

(** So a quotient is always formatted. *)
Lemma format_f_quotient (x y m : num) : truediv x y = inr m -> format_f m = inr tt.
Proof. intros H; destruct (truediv_float x y m H) as [f ->]; reflexivity. Qed.

(** What formatting raises is the overflow of the conversion to [float]. *)
Lemma format_f_raises (x : num) (e : exn) :
  format_f x = inl e ->
  e = OverflowError (lit "int too large to convert to float") /\
  exists z, x = PyInt z /\ float_of_int z = inl e.
Proof.
  destruct x as [z | f]; cbn [format_f]; [| discriminate].
  destruct (float_of_int z) as [e' |] eqn:F; [| discriminate].
  intros [= <-]; split; [| exists z; split; [reflexivity | exact F]].
  unfold float_of_int in F; destruct (SF_is_infinity _); congruence.
Qed.

(* ================================================================= *)
(** ** The retention policy: [should_delete_torrent] *)

Section Policy.
Context {W Client : Type} {api : ClientAPI W Client}.

Implicit Types (s : State W Client) (torrent : Torrent).

(** The threshold test on a record that passed both category gates: the
    verdict of line 110, and on a positive verdict the formatting of the log
    record, which raises when the ratio is an [int] no float can hold. *)
Lemma should_delete_thresholds s torrent minutes :
  ~ In (category torrent) (exclude_tags (self s)) ->
  include_tags (self s) = [] \/ In (category torrent) (include_tags (self s)) ->
  truediv (seeding_time torrent) (PyInt 60) = inr minutes ->
  should_delete_torrent torrent s =
    if ge (ratio torrent) (ratio_limit (self s))
       || ge minutes (seeding_time_limit (self s))
    then match format_f (ratio torrent) with
         | inl e => mkResult (inl e) s []
         | inr _ =>
             mkResult (inr true) s
               [Log INFO (MsgMeetsCondition (name torrent) (ratio torrent) minutes)]
         end
    else mkResult (inr false) s [].
Proof.
  intros Hex Hin Hdiv.
  apply str_in_not_In in Hex.
  unfold should_delete_torrent, bind, this; simpl.
  fold (category torrent); rewrite Hex.
  assert (G : truthy (include_tags (self s))
              && negb (str_in (category torrent) (include_tags (self s))) = false).
  { destruct Hin as [E | I].
    - rewrite E; reflexivity.
    - apply str_in_In in I; rewrite I; apply andb_false_r. }
  rewrite G, Hdiv; simpl.
  destruct (ge _ _ || ge _ _); [| reflexivity].
  unfold lift; rewrite (format_f_quotient _ _ _ Hdiv).
  destruct (format_f (ratio torrent)) as [e | []]; reflexivity.
Qed.

(** The same on a record whose ratio can be formatted. *)
Lemma should_delete_loggable s torrent minutes :
  ~ In (category torrent) (exclude_tags (self s)) ->
  include_tags (self s) = [] \/ In (category torrent) (include_tags (self s)) ->
  truediv (seeding_time torrent) (PyInt 60) = inr minutes ->
  loggable torrent ->
  let verdict := ge (ratio torrent) (ratio_limit (self s))
                 || ge minutes (seeding_time_limit (self s)) in
  should_delete_torrent torrent s =
    mkResult (inr verdict) s
      (if verdict
       then [Log INFO (MsgMeetsCondition (name torrent) (ratio torrent) minutes)]
       else []).
Proof.
  intros Hex Hin Hdiv Hlog verdict.
  rewrite (should_delete_thresholds s torrent minutes Hex Hin Hdiv).
  fold verdict; unfold loggable in Hlog; rewrite Hlog.
  destruct verdict; reflexivity.
Qed.

(** C3. A record whose category is in the exclude list is never deleted,
    whatever its ratio and seeding time.  The exclusion is decided before
    anything else: the answer does not depend on the include list, and the
    seeding time is not even divided (no exception can come from it). *)
Theorem excluded_category_never_deleted s torrent :
  In (category torrent) (exclude_tags (self s)) ->
  should_delete_torrent torrent s = mkResult (inr false) s [].
Proof.
  intros H; apply str_in_In in H.
  unfold should_delete_torrent, bind, this; simpl.
  fold (category torrent); rewrite H; reflexivity.
Qed.

(** The include list, when there is one, turns away every other category. *)
Lemma should_delete_not_included s torrent :
  include_tags (self s) <> [] ->
  ~ In (category torrent) (include_tags (self s)) ->
  should_delete_torrent torrent s = mkResult (inr false) s [].
Proof.
  intros Hne Hnot; apply str_in_not_In in Hnot.
  unfold should_delete_torrent, bind, this; simpl.
  fold (category torrent); rewrite Hnot.
  destruct (include_tags (self s)) as [|x l]; [congruence |].
  destruct (str_in (category torrent) (exclude_tags (self s))); reflexivity.
Qed.

(** C4. With a non-empty include list, a record whose category is not in it
    is never deleted.  With an empty include list nothing is restricted:
    every record gets the verdict it would get if its own category were
    listed. *)
Theorem include_list_gate s torrent :
  (include_tags (self s) <> [] ->
   ~ In (category torrent) (include_tags (self s)) ->
   should_delete_torrent torrent s = mkResult (inr false) s []) /\
  (include_tags (self s) = [] ->
   let allowed :=
     mkState (with_include_tags (self s) [category torrent]) (world s) in
   res (should_delete_torrent torrent s)
     = res (should_delete_torrent torrent allowed) /\
   events (should_delete_torrent torrent s)
     = events (should_delete_torrent torrent allowed)).
Proof.
  split.
  - apply should_delete_not_included.
  - intros E allowed; subst allowed.
    unfold should_delete_torrent, bind, this; simpl.
    fold (category torrent); rewrite E; simpl.
    rewrite str_eqb_refl; simpl.
    destruct (str_in (category torrent) (exclude_tags (self s))); simpl; auto.
    destruct (truediv (seeding_time torrent) (PyInt 60)) as [e | m]; simpl; auto.
    destruct (ge (ratio torrent) (ratio_limit (self s))
              || ge m (seeding_time_limit (self s))); simpl; auto.
    unfold lift.
    destruct (format_f (ratio torrent)); simpl; auto.
    destruct (format_f m); simpl; auto.
Qed.

End Policy.

(** C1. The claim fails where the log record cannot be written.  Under the
    default policy the record [huge_ratio], an untagged record whose ratio is
    the [int] 10^400, passes both category gates and its ratio reaches the
    ratio limit of 2.0; the decision evaluates the condition of line 110 as
    true and then raises [OverflowError] while it formats the ratio for the
    log record of line 111: it logs nothing and returns no verdict. *)
Theorem should_delete_huge_ratio_raises :
  let s := mkState (Sim.connected (Sim.config [] [])) Sim.inventory in
  let r := should_delete_torrent Cases.huge_ratio s in
  ~ In (category Cases.huge_ratio) (exclude_tags (self s)) /\
  include_tags (self s) = [] /\
  reaches (ratio Cases.huge_ratio) (ratio_limit (self s)) /\
  truediv (seeding_time Cases.huge_ratio) (PyInt 60) = inr (PyFloat 0) /\
  res r = inl (OverflowError (lit "int too large to convert to float")) /\
  events r = [] /\
  state r = s.
Proof.
  cbv zeta; split; [intros [] |].
  split; [reflexivity |].
  split; [vm_compute; reflexivity |].
  split; [vm_compute; reflexivity |].
  vm_compute; repeat split; reflexivity.
Qed.

(** The scenarios of the policy with the default limits (ratio 2.0, 120
    minutes). *)
Example should_delete_scenarios :
  let s := mkState (Sim.connected (Sim.config [] [])) Sim.inventory in
  let verdict t := res (should_delete_torrent t s) in
  verdict Sim.over_ratio = inr true /\
  verdict Sim.over_time = inr true /\
  verdict Sim.under_both = inr false /\
  verdict (Sim.torrent "e" "" (PyInt 2) 0) = inr true /\
  verdict (Sim.torrent "f" "" (PyInt 1) 7199) = inr false /\
  verdict (Sim.torrent "g" "" (PyInt 1) 7200) = inr true.
Proof. vm_compute; repeat split; reflexivity. Qed.

(** With [movies] excluded, the well-seeded movie stays. *)
Lemma excluded_category_never_deleted_witness :
  let s := mkState (Sim.connected (Sim.config ["movies"%string] [])) Sim.inventory in
  should_delete_torrent Sim.movie s
    = mkResult (inr false) s [].
Proof.
  apply (excluded_category_never_deleted
           (mkState (Sim.connected (Sim.config ["movies"%string] [])) Sim.inventory)
           Sim.movie).
  left; reflexivity.
Defined.

(** With only [tv] included, the movie stays although it is over both
    limits. *)
Lemma include_list_gate_witness :
  let s := mkState (Sim.connected (Sim.config [] ["tv"%string])) Sim.inventory in
  should_delete_torrent Sim.movie s
    = mkResult (inr false) s [].
Proof.
  apply (proj1 (include_list_gate
                  (mkState (Sim.connected (Sim.config [] ["tv"%string])) Sim.inventory)
                  Sim.movie)).
  - discriminate.
  - vm_compute; intros [H | []]; discriminate.
Defined.

(* ================================================================= *)
(** ** Reading a trace *)

Lemma pick_app {A : Type} (f : Event -> option A) (l1 l2 : list Event) :
  pick f (l1 ++ l2) = pick f l1 ++ pick f l2.
Proof. apply flat_map_app. Qed.

Lemma pick_In {A : Type} (f : Event -> option A) (evs : list Event) (a : A) :
  In a (pick f evs) <-> exists ev, In ev evs /\ f ev = Some a.
Proof.
  unfold pick; rewrite in_flat_map; split; intros (ev & Hin & H); exists ev; split; auto.
  - destruct (f ev); simpl in H; [destruct H as [-> | []]; reflexivity | contradiction].
  - rewrite H; left; reflexivity.
Qed.

(* ================================================================= *)
(** ** The policy decision and its effects *)

Section PolicyEffects.
Context {W Client : Type} {api : ClientAPI W Client}.

Implicit Types (s : State W Client) (torrent : Torrent).

(** A decision leaves the object and the world as they were. *)
Lemma should_delete_state s torrent :
  state (should_delete_torrent torrent s) = s.
Proof.
  unfold should_delete_torrent, bind, this; simpl.
  destruct (str_in _ (exclude_tags (self s))); simpl; auto.
  destruct (truthy _ && _); simpl; auto.
  destruct (truediv _ _) as [e | m]; simpl; auto.
  destruct (ge _ _ || ge _ _); simpl; auto.
  unfold lift.
  destruct (format_f (ratio torrent)); simpl; auto.
  destruct (format_f m); simpl; auto.
Qed.

(** All a decision emits is, on a positive verdict, one INFO record. *)
Lemma should_delete_events s torrent :
  let r := should_delete_torrent torrent s in
  (res r = inr true /\
   exists minutes,
     truediv (seeding_time torrent) (PyInt 60) = inr minutes /\
     events r = [Log INFO (MsgMeetsCondition (name torrent) (ratio torrent) minutes)])
  \/ (res r <> inr true /\ events r = []).
Proof.
  unfold should_delete_torrent, bind, this; simpl.
  destruct (str_in _ (exclude_tags (self s))); simpl;
    [right; split; [discriminate | reflexivity] |].
  destruct (truthy _ && _); simpl; [right; split; [discriminate | reflexivity] |].
  destruct (truediv _ _) as [e | m]; simpl; [right; split; [discriminate | reflexivity] |].
  destruct (ge _ _ || ge _ _); simpl;
    [| right; split; [discriminate | reflexivity]].
  unfold lift.
  destruct (format_f (ratio torrent)); simpl;
    [right; split; [discriminate | reflexivity] |].
  destruct (format_f m); simpl; [right; split; [discriminate | reflexivity] |].
  left; split; [reflexivity | exists m; split; reflexivity].
Qed.

(** The verdict is a function of the record and of the four policy
    attributes of [self]. *)
Lemma should_delete_policy_only s1 s2 torrent :
  exclude_tags (self s1) = exclude_tags (self s2) ->
  include_tags (self s1) = include_tags (self s2) ->
  ratio_limit (self s1) = ratio_limit (self s2) ->
  seeding_time_limit (self s1) = seeding_time_limit (self s2) ->
  res (should_delete_torrent torrent s1) = res (should_delete_torrent torrent s2) /\
  events (should_delete_torrent torrent s1) = events (should_delete_torrent torrent s2).
Proof.
  intros E1 E2 E3 E4.
  unfold should_delete_torrent, bind, this; simpl.
  rewrite E1, E2, E3, E4.
  destruct (str_in _ (exclude_tags (self s2))); simpl; auto.
  destruct (truthy _ && _); simpl; auto.
  destruct (truediv _ _) as [e | m]; simpl; auto.
  destruct (ge _ _ || ge _ _); simpl; auto.
  unfold lift.
  destruct (format_f (ratio torrent)); simpl; auto.
  destruct (format_f m); simpl; auto.
Qed.

(** C8 (amended). The decision is a deterministic function of the record and
    the policy: two invocations under the same exclude list, include list,
    ratio limit and seeding-time limit give the same verdict and the same
    output, whatever the connection and the outside world are.  It makes no
    request to the client and changes neither the object nor the world.  It
    is not free of I/O: a positive verdict, and only a positive verdict,
    writes one INFO record to the log. *)
Theorem should_delete_deterministic_and_logs s1 s2 torrent :
  exclude_tags (self s1) = exclude_tags (self s2) ->
  include_tags (self s1) = include_tags (self s2) ->
  ratio_limit (self s1) = ratio_limit (self s2) ->
  seeding_time_limit (self s1) = seeding_time_limit (self s2) ->
  let r1 := should_delete_torrent torrent s1 in
  let r2 := should_delete_torrent torrent s2 in
  res r1 = res r2 /\
  events r1 = events r2 /\
  state r1 = s1 /\
  (forall req failure, ~ In (Call req failure) (events r1)) /\
  (res r1 = inr true <->
   exists minutes,
     events r1 = [Log INFO (MsgMeetsCondition (name torrent) (ratio torrent) minutes)]) /\
  (res r1 <> inr true <-> events r1 = []).
Proof.
  intros E1 E2 E3 E4 r1 r2; subst r1 r2.
  destruct (should_delete_policy_only s1 s2 torrent E1 E2 E3 E4) as [Hr He].
  repeat split; auto using should_delete_state.
  - intros req failure Hin.
    destruct (should_delete_events s1 torrent) as [(_ & m & _ & Ev) | (_ & Ev)];
      rewrite Ev in Hin; simpl in Hin; [destruct Hin as [H | []]; discriminate | contradiction].
  - intros Ht.
    destruct (should_delete_events s1 torrent) as [(_ & m & _ & Ev) | (N & _)];
      [exists m; exact Ev | contradiction].
  - intros (m & Ev).
    destruct (should_delete_events s1 torrent) as [(T & _) | (_ & Ev')];
      [exact T | rewrite Ev' in Ev; discriminate].
  - intros Hn.
    destruct (should_delete_events s1 torrent) as [(T & _) | (_ & Ev)];
      [contradiction | exact Ev].
  - intros Ev T.
    destruct (should_delete_events s1 torrent) as [(_ & m & _ & Ev') | (N & _)];
      [rewrite Ev' in Ev; discriminate | contradiction].
Qed.

End PolicyEffects.

(* ================================================================= *)
(** ** Connecting *)

(** Unfold the monad down to results. *)
Ltac run :=
  unfold try_except_class, try_except, bind, ret, raise, this, set_qb, emit,
         logger_info, logger_error, lift, request, getitem, getattr_qb in *;
  simpl in *.

(** Split on the next thing the computation in the goal inspects. *)
Ltac next_case :=
  match goal with
  | |- context [match ?x with _ => _ end] =>
      lazymatch x with
      | context [match _ with _ => _ end] => fail
      | _ => destruct x eqn:?; simpl in *
      end
  end.

Section Connect.
Context {W Client : Type} {api : ClientAPI W Client}.

Implicit Types (s : State W Client).

(** The connection attempt never raises. *)
Lemma connect_returns s : exists ok, res (connect_qbittorrent s) = inr ok.
Proof.
  unfold connect_qbittorrent; run.
  repeat next_case; eexists; reflexivity.
Qed.

(** It asks the client for neither a listing nor a deletion. *)
Lemma connect_no_pass_requests s :
  listing_calls (events (connect_qbittorrent s)) = [] /\
  delete_calls (events (connect_qbittorrent s)) = [].
Proof.
  unfold connect_qbittorrent; run.
  repeat next_case; split; reflexivity.
Qed.

(** When it reports success, the handle is set. *)
Lemma connect_true_handle s :
  res (connect_qbittorrent s) = inr true ->
  exists c, qb (self (state (connect_qbittorrent s))) = Some c.
Proof.
  unfold connect_qbittorrent; run.
  repeat next_case; intros H; try discriminate; eexists; reflexivity.
Qed.

(** When it reports failure, it has logged why. *)
Lemma connect_false_logged s :
  res (connect_qbittorrent s) = inr false ->
  In MsgConfigMissing (errors (events (connect_qbittorrent s))) \/
  exists e, In (MsgConnectFailed e) (errors (events (connect_qbittorrent s))).
Proof.
  unfold connect_qbittorrent; run.
  repeat next_case; intros H; try discriminate;
    first [ left; simpl; tauto | right; eexists; simpl; tauto ].
Qed.

(** It only ever assigns [self.qb]. *)
Lemma connect_keeps_policy s :
  let o := self (state (connect_qbittorrent s)) in
  qb_config o = qb_config (self s) /\
  exclude_tags o = exclude_tags (self s) /\
  include_tags o = include_tags (self s) /\
  ratio_limit o = ratio_limit (self s) /\
  seeding_time_limit o = seeding_time_limit (self s).
Proof.
  unfold connect_qbittorrent; run.
  repeat next_case; repeat split; reflexivity.
Qed.

End Connect.

(* ================================================================= *)
(** ** One cleanup pass *)

Section Pass.
Context {W Client : Type} {api : ClientAPI W Client}.

Implicit Types (s : State W Client) (torrent : Torrent) (c : Client).

Lemma qualifies_self s s' torrent :
  self s = self s' -> qualifies s torrent = qualifies s' torrent.
Proof.
  intros E; unfold qualifies.
  destruct (should_delete_policy_only s s' torrent) as [-> _]; rewrite ?E; reflexivity.
Qed.

Lemma decided_self s s' torrent :
  self s = self s' -> decided s torrent -> decided s' torrent.
Proof.
  intros E (b & H); exists b; rewrite <- H; symmetry.
  destruct (should_delete_policy_only s s' torrent) as [-> _]; rewrite ?E; reflexivity.
Qed.

(** A deletion on a live handle: one request, one log record, and the answer
    of the client decides the result.  It never raises. *)
Lemma delete_torrent_live s c torrent delete_files v w' :
  qb (self s) = Some c ->
  torrents_delete c delete_files (hash torrent) (world s) = (v, w') ->
  delete_torrent torrent delete_files s =
    mkResult (inr (match v with inr _ => true | inl _ => false end))
      (mkState (self s) w')
      [Call (ReqTorrentsDelete delete_files (hash torrent)) (failure_of v);
       match v with
       | inr _ => Log INFO (MsgDeleted (name torrent) delete_files)
       | inl e => Log ERROR (MsgDeleteFailed (name torrent) e)
       end].
Proof.
  intros Hc Hd; unfold delete_torrent; run.
  rewrite Hc; simpl; rewrite Hd; destruct v; reflexivity.
Qed.

(** The listing on a live handle; a failure is logged and read as an empty
    listing. *)
Lemma get_completed_live s c v w' :
  qb (self s) = Some c ->
  torrents_info c (lit "completed") (world s) = (v, w') ->
  get_completed_torrents s =
    mkResult (inr (match v with inr l => l | inl _ => [] end))
      (mkState (self s) w')
      (Call (ReqTorrentsInfo (lit "completed")) (failure_of v)
       :: match v with
          | inr _ => []
          | inl e => [Log ERROR (MsgListFailed e)]
          end).
Proof.
  intros Hc Hl; unfold get_completed_torrents; run.
  rewrite Hc; simpl; rewrite Hl; destruct v; reflexivity.
Qed.

(** *** The loop, one record at a time *)

Lemma should_delete_eta s torrent :
  should_delete_torrent torrent s =
    mkResult (res (should_delete_torrent torrent s)) s
             (events (should_delete_torrent torrent s)).
Proof.
  rewrite <- (should_delete_state s torrent) at 3.
  destruct (should_delete_torrent torrent s); reflexivity.
Qed.

Lemma should_delete_quiet s torrent :
  res (should_delete_torrent torrent s) <> inr true ->
  events (should_delete_torrent torrent s) = [].
Proof.
  intros H; destruct (should_delete_events s torrent) as [(T & _) | (_ & E)];
    [contradiction | exact E].
Qed.

(** A record the policy keeps leaves no mark. *)
Lemma cleanup_loop_keep s torrent rest n :
  res (should_delete_torrent torrent s) = inr false ->
  cleanup_loop (torrent :: rest) n s = cleanup_loop rest n s.
Proof.
  intros H; simpl; unfold bind at 1.
  rewrite should_delete_eta; simpl; rewrite H.
  rewrite should_delete_quiet by (rewrite H; discriminate); simpl.
  destruct (cleanup_loop rest n s); reflexivity.
Qed.

(** A decision that raises ends the loop there. *)
Lemma cleanup_loop_raise s torrent rest n e :
  res (should_delete_torrent torrent s) = inl e ->
  cleanup_loop (torrent :: rest) n s = mkResult (inl e) s [].
Proof.
  intros H; simpl; unfold bind at 1.
  rewrite should_delete_eta; simpl; rewrite H.
  rewrite should_delete_quiet by (rewrite H; discriminate); reflexivity.
Qed.

(** A record the policy condemns is asked to be deleted; whatever the client
    answers, the loop goes on with the rest. *)
Lemma cleanup_loop_delete s c torrent rest n v w' :
  res (should_delete_torrent torrent s) = inr true ->
  qb (self s) = Some c ->
  torrents_delete c (purge s) (hash torrent) (world s) = (v, w') ->
  let r' := cleanup_loop rest (match v with inr _ => S n | inl _ => n end)
                         (mkState (self s) w') in
  cleanup_loop (torrent :: rest) n s =
    mkResult (res r') (state r')
      (events (should_delete_torrent torrent s)
       ++ [Call (ReqTorrentsDelete (purge s) (hash torrent)) (failure_of v);
           match v with
           | inr _ => Log INFO (MsgDeleted (name torrent) (purge s))
           | inl e => Log ERROR (MsgDeleteFailed (name torrent) e)
           end]
       ++ events r').
Proof.
  intros H Hc Hd r'; subst r'; simpl; unfold bind at 1.
  rewrite should_delete_eta; simpl; rewrite H.
  unfold bind at 1; unfold this at 1; simpl.
  unfold bind at 1.
  fold (purge s).
  rewrite (delete_torrent_live s c torrent (purge s) v w' Hc Hd); simpl.
  destruct v as [e | []]; simpl;
    match goal with |- context [cleanup_loop rest ?k ?st] =>
      destruct (cleanup_loop rest k st) as [[?|?] ? ?] end; reflexivity.
Qed.

End Pass.

Section PassAccounting.
Context {W Client : Type} {api : ClientAPI W Client}.

Implicit Types (s : State W Client) (torrent : Torrent) (c : Client).

(** What a decision contributes to each reading of the trace. *)
Lemma should_delete_readings s torrent :
  let evs := events (should_delete_torrent torrent s) in
  errors evs = [] /\ listing_calls evs = [] /\ delete_calls evs = [] /\
  considered evs = [] /\ deleted evs = [] /\
  condemned evs = (if qualifies s torrent then [name torrent] else []).
Proof.
  unfold qualifies.
  destruct (should_delete_events s torrent) as [(T & m & _ & E) | (N & E)];
    simpl; rewrite E.
  - rewrite T; repeat split; reflexivity.
  - destruct (res (should_delete_torrent torrent s)) as [e | [|]];
      try congruence; repeat split; reflexivity.
Qed.

(** The loop keeps the object, and asks for no listing and reports no count:
    all it emits are decisions, deletion requests and their log records. *)
Lemma cleanup_loop_frame c ts : forall n s,
  qb (self s) = Some c ->
  let r := cleanup_loop ts n s in
  self (state r) = self s /\
  listing_calls (events r) = [] /\
  considered (events r) = [] /\
  deleted (events r) = [].
Proof.
  induction ts as [|t rest IH]; intros n s Hc.
  - simpl; repeat split; reflexivity.
  - cbv zeta.
    destruct (res (should_delete_torrent t s)) as [e | [|]] eqn:V.
    + rewrite (cleanup_loop_raise s t rest n e V); simpl; repeat split; reflexivity.
    + destruct (torrents_delete c (purge s) (hash t) (world s)) as [v w'] eqn:D.
      rewrite (cleanup_loop_delete s c t rest n v w' V Hc D);
        cbn [res state events self world].
      destruct (IH (match v with inr _ => S n | inl _ => n end)
                   (mkState (self s) w') Hc) as (I1 & I2 & I3 & I4).
      destruct (should_delete_readings s t) as (_ & R2 & _ & R4 & R5 & _).
      unfold listing_calls, considered, deleted in *.
      rewrite !pick_app, R2, R4, R5, I2, I3, I4.
      repeat split; auto; destruct v; reflexivity.
    + rewrite (cleanup_loop_keep s t rest n V); apply IH; assumption.
Qed.

(** The loop when the client refuses to delete the hash [hk], with [e], and
    deletes every other condemned record: every condemned record is asked
    for, in order; each refusal is logged as an error; the counter counts the
    others. *)
Lemma cleanup_loop_one_refused c hk e ts : forall n s,
  qb (self s) = Some c ->
  Forall (decided s) ts ->
  (forall w, fst (torrents_delete c (purge s) hk w) = inl e) ->
  (forall t w, In t ts -> qualifies s t = true -> hash t <> hk ->
               fst (torrents_delete c (purge s) (hash t) w) = inr tt) ->
  let r := cleanup_loop ts n s in
  let cands := filter (qualifies s) ts in
  res r = inr (n + List.length (filter (fun t => negb (str_eqb (hash t) hk)) cands)) /\
  delete_calls (events r) =
    map (fun t => (hash t, if str_eqb (hash t) hk then Some e else None)) cands /\
  errors (events r) =
    flat_map (fun t => if str_eqb (hash t) hk
                       then [MsgDeleteFailed (name t) e] else []) cands /\
  condemned (events r) = map name cands.
Proof.
  induction ts as [|t rest IH]; intros n s Hc Hdec Hbad Hgood.
  - simpl; rewrite Nat.add_0_r; repeat split; reflexivity.
  - cbv zeta.
    inversion Hdec as [|? ? [b V] Hrest]; subst.
    assert (Q : qualifies s t = b) by (unfold qualifies; rewrite V; destruct b; reflexivity).
    destruct b.
    + destruct (torrents_delete c (purge s) (hash t) (world s)) as [v w'] eqn:D.
      rewrite (cleanup_loop_delete s c t rest n v w' V Hc D);
        cbn [res state events self world filter].
      set (s' := mkState (self s) w').
      assert (Es : self s = self s') by reflexivity.
      assert (Ef : filter (qualifies s) rest = filter (qualifies s') rest).
      { apply filter_ext; intros; apply qualifies_self; assumption. }
      assert (Hdec' : Forall (decided s') rest).
      { eapply Forall_impl; [| exact Hrest]; intros a; apply decided_self; assumption. }
      assert (Hgood' : forall t0 w, In t0 rest -> qualifies s' t0 = true ->
                 hash t0 <> hk ->
                 fst (torrents_delete c (purge s') (hash t0) w) = inr tt).
      { intros t0 w I Q0 N0; apply Hgood; [right; exact I | | exact N0].
        rewrite (qualifies_self s s' t0 Es); exact Q0. }
      destruct (should_delete_readings s t) as (R1 & _ & R3 & _ & _ & R6).
      rewrite Q in *.
      destruct (str_eqb (hash t) hk) eqn:K.
      * pose proof (proj1 (str_eqb_eq _ _) K) as K'.
        pose proof (Hbad (world s)) as B; rewrite <- K', D in B; simpl in B; subst v.
        destruct (IH n s' Hc Hdec' Hbad Hgood') as (I1 & I2 & I3 & I4).
        unfold delete_calls, errors, condemned in *.
        rewrite !pick_app, R1, R3, R6, I2, I3, I4, <- Ef.
        cbn [res filter map flat_map pick app failure_of].
        rewrite K, I1, <- Ef; cbn [negb app].
        repeat split; reflexivity.
      * assert (N0 : hash t <> hk).
        { intros E0; apply str_eqb_eq in E0; congruence. }
        pose proof (Hgood t (world s) (or_introl eq_refl) Q N0) as G.
        rewrite D in G; simpl in G; subst v.
        destruct (IH (S n) s' Hc Hdec' Hbad Hgood') as (I1 & I2 & I3 & I4).
        unfold delete_calls, errors, condemned in *.
        rewrite !pick_app, R1, R3, R6, I2, I3, I4, <- Ef.
        cbn [res filter map flat_map pick app failure_of].
        rewrite K, I1, <- Ef; cbn [negb app List.length].
        repeat split; try reflexivity.
        f_equal; lia.
    + rewrite (cleanup_loop_keep s t rest n V).
      cbn [filter]; rewrite Q.
      apply IH; auto.
      intros t0 w I; apply Hgood; right; exact I.
Qed.

End PassAccounting.

Section PassShape.
Context {W Client : Type} {api : ClientAPI W Client}.

Implicit Types (s : State W Client) (torrent : Torrent) (c : Client).

Lemma prepend_nil {A : Type} (r : Result W Client A) :
  match r with
  | mkResult v st evs => mkResult v st ([] ++ evs)
  end = r.
Proof. destruct r; reflexivity. Qed.

(** A pass first makes sure there is a handle. *)
Lemma cleanup_torrents_unfold s :
  cleanup_torrents s =
    match qb (self s) with
    | Some _ => checked_pass s
    | None =>
        match connect_qbittorrent s with
        | mkResult (inl e) st evs => mkResult (inl e) st evs
        | mkResult (inr false) st evs => mkResult (inr tt) st evs
        | mkResult (inr true) st evs =>
            match checked_pass st with
            | mkResult v st' evs' => mkResult v st' (evs ++ evs')
            end
        end
    end.
Proof.
  unfold cleanup_torrents.
  unfold bind at 1; unfold this at 1; cbn iota.
  destruct (qb (self s)) as [c|].
  - unfold bind at 1; unfold ret at 1; cbn iota beta; cbn [negb].
    fold checked_pass; rewrite !prepend_nil; reflexivity.
  - unfold bind at 1.
    destruct (connect_qbittorrent s) as [[e | [|]] st evs]; cbn iota beta.
    + reflexivity.
    + cbn [negb]; fold checked_pass.
      destruct (checked_pass st); rewrite !app_nil_l; reflexivity.
    + unfold ret; cbn; rewrite app_nil_r; reflexivity.
Qed.

(** On a live handle whose listing succeeds: the listing, the loop, and the
    closing record (an exception out of the loop is caught and logged). *)
Lemma checked_pass_listed s c ts w1 :
  qb (self s) = Some c ->
  torrents_info c (lit "completed") (world s) = (inr ts, w1) ->
  let r' := cleanup_loop ts 0 (mkState (self s) w1) in
  checked_pass s =
    mkResult (inr tt) (state r')
      ([Log INFO MsgChecking;
        Call (ReqTorrentsInfo (lit "completed")) None;
        Log INFO (MsgFound (List.length ts))]
       ++ events r'
       ++ [match res r' with
           | inr n => Log INFO (MsgCleanupDone n)
           | inl e => Log ERROR (MsgCleanupError e)
           end]).
Proof.
  intros Hc Hl r'; subst r'.
  unfold checked_pass.
  unfold bind at 1; unfold logger_info at 1, emit at 1; cbn iota beta.
  unfold try_except.
  unfold bind at 1.
  rewrite (get_completed_live s c (inr ts) w1 Hc Hl); cbn iota beta.
  unfold bind at 1; unfold logger_info at 1, emit at 1; cbn iota beta.
  unfold bind at 1.
  destruct (cleanup_loop ts 0 (mkState (self s) w1)) as [[e | n] st evs]; simpl;
    rewrite ?app_nil_r; reflexivity.
Qed.

(** On a live handle whose listing fails. *)
Lemma checked_pass_listing_failed s c e w1 :
  qb (self s) = Some c ->
  torrents_info c (lit "completed") (world s) = (inl e, w1) ->
  checked_pass s =
    mkResult (inr tt) (mkState (self s) w1)
      [Log INFO MsgChecking;
       Call (ReqTorrentsInfo (lit "completed")) (Some e);
       Log ERROR (MsgListFailed e);
       Log INFO (MsgFound 0);
       Log INFO (MsgCleanupDone 0)].
Proof.
  intros Hc Hl.
  unfold checked_pass.
  unfold bind at 1; unfold logger_info at 1, emit at 1; cbn iota beta.
  unfold try_except.
  unfold bind at 1.
  rewrite (get_completed_live s c (inl e) w1 Hc Hl); reflexivity.
Qed.

End PassShape.

(* ================================================================= *)
(** ** Theorems on the cleanup pass *)

(** One record of a list is refused, by its hash. *)
Lemma refused_nowhere (hk : str) (e : exn) (l : list Torrent) :
  (forall t, In t l -> hash t <> hk) ->
  flat_map (fun t => if str_eqb (hash t) hk
                     then [MsgDeleteFailed (name t) e] else []) l = [] /\
  filter (fun t => negb (str_eqb (hash t) hk)) l = l.
Proof.
  induction l as [|t l IH]; intros H; simpl; [split; reflexivity |].
  destruct (str_eqb (hash t) hk) eqn:K.
  - apply str_eqb_eq in K; exfalso; apply (H t); [left; reflexivity | exact K].
  - destruct IH as [I1 I2]; [intros t0 I; apply H; right; exact I |].
    simpl; rewrite I1, I2; split; reflexivity.
Qed.

Lemma refused_once (e : exn) (l : list Torrent) : forall k tk,
  nth_error l k = Some tk ->
  (forall j t, nth_error l j = Some t -> j <> k -> hash t <> hash tk) ->
  flat_map (fun t => if str_eqb (hash t) (hash tk)
                     then [MsgDeleteFailed (name t) e] else []) l
    = [MsgDeleteFailed (name tk) e] /\
  S (List.length (filter (fun t => negb (str_eqb (hash t) (hash tk))) l))
    = List.length l.
Proof.
  induction l as [|t l IH]; intros [|k] tk Hk Hu; simpl in Hk; try discriminate.
  - injection Hk as ->; simpl; rewrite str_eqb_refl; simpl.
    destruct (@refused_nowhere (hash tk) e l) as [N1 N2].
    { intros t0 I; destruct (In_nth_error _ _ I) as [j Hj].
      apply (Hu (S j) t0 Hj); discriminate. }
    rewrite N1, N2; split; reflexivity.
  - assert (K : str_eqb (hash t) (hash tk) = false).
    { destruct (str_eqb (hash t) (hash tk)) eqn:K; [| reflexivity].
      apply str_eqb_eq in K; exfalso.
      apply (Hu 0 t eq_refl); [discriminate | exact K]. }
    destruct (IH k tk Hk) as [I1 I2].
    { intros j t0 Hj Hne; apply (Hu (S j) t0 Hj); congruence. }
    simpl; rewrite K; simpl; rewrite I1, I2; split; reflexivity.
Qed.

Section PassTheorems.
Context {W Client : Type} {api : ClientAPI W Client}.

Implicit Types (s : State W Client) (torrent : Torrent) (c : Client).

(** C2 (amended). Partial-failure isolation.  In a pass on a live connection
    whose listing returns [ts], on every record of which the policy gives a
    verdict, let the candidates be the records of [ts] the policy condemns,
    [N] of them.  If the client refuses to delete candidate
    number [k] and deletes every other candidate, the pass still decides on
    every record and asks for the deletion of all [N] candidates, in order;
    the errors it reports are exactly one, the failed deletion of candidate
    [k]; and the count it reports is [N - 1].  The pass itself returns
    normally. *)
Theorem partial_failure_isolation s c ts w1 k tk e :
  qb (self s) = Some c ->
  torrents_info c (lit "completed") (world s) = (inr ts, w1) ->
  Forall (decided s) ts ->
  let cands := filter (qualifies s) ts in
  nth_error cands k = Some tk ->
  (forall j t, nth_error cands j = Some t -> j <> k -> hash t <> hash tk) ->
  (forall w, fst (torrents_delete c (purge s) (hash tk) w) = inl e) ->
  (forall j t w, nth_error cands j = Some t -> j <> k ->
                 fst (torrents_delete c (purge s) (hash t) w) = inr tt) ->
  let r := cleanup_torrents s in
  res r = inr tt /\
  considered (events r) = [List.length ts] /\
  condemned (events r) = map name cands /\
  map fst (delete_calls (events r)) = map hash cands /\
  errors (events r) = [MsgDeleteFailed (name tk) e] /\
  deleted (events r) = [List.length cands - 1].
Proof.
  intros Hc Hl Hdec cands Hk Huniq Hbad Hgood r; subst r.
  rewrite cleanup_torrents_unfold, Hc.
  rewrite (checked_pass_listed s c ts w1 Hc Hl); cbn [res state events].
  set (s1 := mkState (self s) w1).
  assert (Es : self s = self s1) by reflexivity.
  assert (Ef : filter (qualifies s1) ts = cands).
  { apply filter_ext; intros; symmetry; apply qualifies_self; assumption. }
  assert (Hdec1 : Forall (decided s1) ts).
  { eapply Forall_impl; [| exact Hdec]; intros a; apply decided_self; assumption. }
  assert (Hgood1 : forall t w, In t ts -> qualifies s1 t = true ->
             hash t <> hash tk ->
             fst (torrents_delete c (purge s1) (hash t) w) = inr tt).
  { intros t w I Q N0.
    assert (Ic : In t cands).
    { apply filter_In; split; [exact I |].
      rewrite (qualifies_self s s1 t Es); exact Q. }
    destruct (In_nth_error _ _ Ic) as [j Hj].
    apply (Hgood j t w Hj).
    intros ->; rewrite Hk in Hj; injection Hj as ->; apply N0; reflexivity. }
  destruct (cleanup_loop_one_refused c (hash tk) e ts 0 s1 Hc Hdec1 Hbad Hgood1)
    as (L1 & L2 & L3 & L4).
  destruct (cleanup_loop_frame c ts 0 s1 Hc) as (_ & F2 & F3 & F4).
  rewrite Ef in *.
  destruct (@refused_once e cands k tk Hk Huniq) as [U1 U2].
  rewrite L1.
  unfold considered, condemned, delete_calls, errors, deleted in *.
  rewrite !pick_app, L2, L3, L4, F3, F4, U1; cbn.
  rewrite ?app_nil_r, map_map; cbn.
  repeat split; try reflexivity.
  - do 2 f_equal; lia.
Qed.

End PassTheorems.

(* ================================================================= *)
(** ** Passes never raise; the scheduler *)

Section Passes.
Context {W Client : Type} {api : ClientAPI W Client}.

Implicit Types (s : State W Client) (c : Client).

Lemma checked_pass_returns s c :
  qb (self s) = Some c -> res (checked_pass s) = inr tt.
Proof.
  intros Hc.
  destruct (torrents_info c (lit "completed") (world s)) as [[e | ts] w1] eqn:L.
  - rewrite (checked_pass_listing_failed s c e w1 Hc L); reflexivity.
  - rewrite (checked_pass_listed s c ts w1 Hc L); reflexivity.
Qed.

Lemma checked_pass_keeps_handle s c :
  qb (self s) = Some c -> qb (self (state (checked_pass s))) = Some c.
Proof.
  intros Hc.
  destruct (torrents_info c (lit "completed") (world s)) as [[e | ts] w1] eqn:L.
  - rewrite (checked_pass_listing_failed s c e w1 Hc L); exact Hc.
  - rewrite (checked_pass_listed s c ts w1 Hc L); cbn [state].
    destruct (cleanup_loop_frame c ts 0 (mkState (self s) w1) Hc) as (E & _).
    rewrite E; exact Hc.
Qed.

(** No failure inside a pass leaves it as an exception: a pass always
    returns. *)
Lemma cleanup_returns s : res (cleanup_torrents s) = inr tt.
Proof.
  rewrite cleanup_torrents_unfold.
  destruct (qb (self s)) as [c|] eqn:Hq.
  - apply (checked_pass_returns s c Hq).
  - destruct (connect_returns s) as [ok Hok].
    pose proof (connect_true_handle s) as Hh.
    destruct (connect_qbittorrent s) as [v st evs]; cbn [res state] in *; subst v.
    destruct ok; [| reflexivity].
    destruct (Hh eq_refl) as [c Hc].
    pose proof (checked_pass_returns st c Hc) as R.
    destruct (checked_pass st); cbn [res] in *; exact R.
Qed.

(** Once there is a handle, every later pass finds it. *)
Lemma cleanup_keeps_handle s c :
  qb (self s) = Some c -> qb (self (state (cleanup_torrents s))) = Some c.
Proof.
  intros Hc; rewrite cleanup_torrents_unfold, Hc.
  apply checked_pass_keeps_handle; exact Hc.
Qed.

(** One fire: the pass runs, and the scheduler goes on with what follows. *)
Lemma scheduler_start_fire s later :
  scheduler_start cleanup_torrents (Fire :: later) s =
    match scheduler_start cleanup_torrents later (state (cleanup_torrents s)) with
    | mkResult v st evs => mkResult v st (events (cleanup_torrents s) ++ evs)
    end.
Proof.
  cbn [scheduler_start]; unfold bind at 1, try_except at 1.
  pose proof (cleanup_returns s) as R.
  destruct (cleanup_torrents s) as [v st evs]; cbn [res state events] in *; subst v.
  reflexivity.
Qed.

Lemma passes_S s n :
  passes (S n) s =
    match passes n (state (cleanup_torrents s)) with
    | mkResult v st evs => mkResult v st (events (cleanup_torrents s) ++ evs)
    end.
Proof.
  cbn [passes]; unfold bind at 1.
  pose proof (cleanup_returns s) as R.
  destruct (cleanup_torrents s) as [v st evs]; cbn [res state events] in *; subst v.
  reflexivity.
Qed.

(** The scheduler runs one pass per fire, until something else arrives. *)
Lemma scheduler_start_passes pending : forall s,
  let r := scheduler_start cleanup_torrents pending s in
  let rp := passes (fires pending) s in
  res r = inr (match stop_cause pending with
               | None | Some Fire => StillBlocking
               | Some Interrupt => RaisedKeyboardInterrupt
               | Some (Fault e) => RaisedException e
               end) /\
  state r = state rp /\
  events r = events rp.
Proof.
  induction pending as [|ev later IH]; intros s.
  - cbn; repeat split; reflexivity.
  - destruct ev.
    + cbv zeta; cbn [fires stop_cause].
      rewrite scheduler_start_fire, passes_S.
      destruct (IH (state (cleanup_torrents s))) as (I1 & I2 & I3).
      destruct (scheduler_start cleanup_torrents later (state (cleanup_torrents s)));
        destruct (passes (fires later) (state (cleanup_torrents s)));
        cbn [res state events] in *; subst; repeat split; reflexivity.
    + cbn; repeat split; reflexivity.
    + cbn; repeat split; reflexivity.
Qed.

End Passes.

Section PassFailures.
Context {W Client : Type} {api : ClientAPI W Client}.

Implicit Types (s : State W Client) (c : Client).

(** A connection attempt reports no counts. *)
Lemma connect_no_counts s :
  considered (events (connect_qbittorrent s)) = [] /\
  deleted (events (connect_qbittorrent s)) = [].
Proof.
  unfold connect_qbittorrent; run.
  repeat next_case; split; reflexivity.
Qed.

(** On a live handle, a failed listing request in the trace of a pass means
    the pass was the short one. *)
Lemma checked_pass_failed_listing s c f e :
  qb (self s) = Some c ->
  In (Call (ReqTorrentsInfo f) (Some e)) (events (checked_pass s)) ->
  exists w1,
    checked_pass s =
      mkResult (inr tt) (mkState (self s) w1)
        [Log INFO MsgChecking;
         Call (ReqTorrentsInfo (lit "completed")) (Some e);
         Log ERROR (MsgListFailed e);
         Log INFO (MsgFound 0);
         Log INFO (MsgCleanupDone 0)].
Proof.
  intros Hc Hin.
  assert (Hl : In (Some e) (listing_calls (events (checked_pass s)))).
  { apply pick_In; eexists; split; [exact Hin | reflexivity]. }
  destruct (torrents_info c (lit "completed") (world s)) as [[e' | ts] w1] eqn:L.
  - rewrite (checked_pass_listing_failed s c e' w1 Hc L) in *.
    cbn in Hl; destruct Hl as [[= ->] | []].
    exists w1; reflexivity.
  - rewrite (checked_pass_listed s c ts w1 Hc L) in Hl; cbn [events] in Hl.
    destruct (cleanup_loop_frame c ts 0 (mkState (self s) w1) Hc) as (_ & F & _).
    unfold listing_calls in *; rewrite !pick_app, F in Hl.
    cbn in Hl.
    destruct (res (cleanup_loop ts 0 (mkState (self s) w1))); cbn in Hl;
      destruct Hl as [H | []]; discriminate.
Qed.

(** C5. If the listing request of a pass fails, the pass ends with nothing
    found and nothing deleted (it reports 0 and 0) and no deletion asked for;
    the failure is among the errors it reports; the pass returns normally,
    and the scheduler that ran it keeps blocking, waiting for the next fire
    and handling whatever comes later. *)
Theorem listing_failure_empties_pass s f e :
  let r := cleanup_torrents s in
  In (Call (ReqTorrentsInfo f) (Some e)) (events r) ->
  res r = inr tt /\
  considered (events r) = [0] /\
  deleted (events r) = [0] /\
  delete_calls (events r) = [] /\
  In (MsgListFailed e) (errors (events r)) /\
  res (scheduler_start cleanup_torrents [Fire] s) = inr StillBlocking /\
  (forall later,
     res (scheduler_start cleanup_torrents (Fire :: later) s)
       = res (scheduler_start cleanup_torrents later (state r))).
Proof.
  intros r Hin; subst r.
  split; [apply cleanup_returns |].
  assert (Sched : forall later,
     res (scheduler_start cleanup_torrents (Fire :: later) s)
       = res (scheduler_start cleanup_torrents later (state (cleanup_torrents s)))).
  { intros later; rewrite scheduler_start_fire.
    destruct (scheduler_start cleanup_torrents later _); reflexivity. }
  assert (Core :
    considered (events (cleanup_torrents s)) = [0] /\
    deleted (events (cleanup_torrents s)) = [0] /\
    delete_calls (events (cleanup_torrents s)) = [] /\
    In (MsgListFailed e) (errors (events (cleanup_torrents s)))).
  { revert Hin; rewrite cleanup_torrents_unfold.
    destruct (qb (self s)) as [c|] eqn:Hq.
    - intros Hin.
      destruct (checked_pass_failed_listing s c f e Hq Hin) as [w1 ->].
      cbn; auto.
    - pose proof (connect_true_handle s) as Hh.
      destruct (connect_no_pass_requests s) as [N1 N2].
      destruct (connect_no_counts s) as [N3 N4].
      destruct (connect_returns s) as [ok Hok].
      destruct (connect_qbittorrent s) as [v st evs];
        cbn [res state events] in *; subst v.
      assert (NoList : ~ In (Call (ReqTorrentsInfo f) (Some e)) evs).
      { intros I.
        assert (J : In (Some e) (listing_calls evs))
          by (apply pick_In; eexists; split; [exact I | reflexivity]).
        rewrite N1 in J; destruct J. }
      destruct ok.
      + destruct (Hh eq_refl) as [c Hc].
        intros Hin.
        assert (Hin' : In (Call (ReqTorrentsInfo f) (Some e)) (events (checked_pass st))).
        { destruct (checked_pass st) as [v' st' evs']; cbn [events] in *.
          apply in_app_or in Hin; destruct Hin as [I | I]; [contradiction | exact I]. }
        destruct (checked_pass_failed_listing st c f e Hc Hin') as [w1 E].
        rewrite E; cbn [events].
        unfold considered, deleted, delete_calls, errors in *.
        rewrite !pick_app, N2, N3, N4; cbn.
        repeat split; auto.
        apply in_or_app; right; left; reflexivity.
      + intros Hin; cbn [events] in Hin; contradiction. }
  destruct Core as (C1 & C2 & C3 & C4).
  split; [exact C1 |]; split; [exact C2 |]; split; [exact C3 |].
  split; [exact C4 |]; split; [| exact Sched].
  rewrite Sched; reflexivity.
Qed.

End PassFailures.

(* ================================================================= *)
(** ** What a connection attempt reports *)

Section ConnectOutcome.
Context {W Client : Type} {api : ClientAPI W Client}.

Implicit Types (s : State W Client) (c : Client).

Lemma connect_false_iff s :
  res (connect_qbittorrent s) = inr false <->
  credentials_present (qb_config (self s)) = false \/ attempt_raises s.
Proof.
  unfold attempt_raises, credentials_present, connect_qbittorrent; run.
  repeat next_case;
    repeat match goal with u : unit |- _ => destruct u end;
    (split; intros H;
     [ try discriminate;
       first [ left; reflexivity
             | right; do 3 eexists; repeat (split; [reflexivity |]);
               first [ left; reflexivity
                     | right; eexists; split; [reflexivity |];
                       first [ left; do 2 eexists; eassumption
                             | right; left; do 4 eexists; repeat split; eassumption
                             | right; right; do 5 eexists; repeat split; eassumption ] ] ]
     | try reflexivity; exfalso;
       destruct H as [H | (u & un & pw & E1 & E2 & E3 &
         [E4 | (p & E4 & [ (e' & w1' & N)
                         | [ (c' & w1' & e' & w2' & N & A & L)
                           | (c' & w1' & w2' & e' & w3' & N & A & V & L) ] ])])];
       congruence ]).
Qed.

(** A login refused with [LoginFailed] is reported as success, with the
    handle set. *)
Lemma connect_login_failed s url port username password c w1 msg w2 :
  QbConfig.url (qb_config (self s)) = Some url ->
  QbConfig.port (qb_config (self s)) = Some port ->
  QbConfig.username (qb_config (self s)) = Some username ->
  QbConfig.password (qb_config (self s)) = Some password ->
  new_Client url port username password (world s) = (inr c, w1) ->
  auth_log_in c w1 = (inl (LoginFailed msg), w2) ->
  let r := connect_qbittorrent s in
  res r = inr true /\
  qb (self (state r)) = Some c /\
  world (state r) = w2 /\
  events r =
    [Log INFO (MsgConnecting url port username);
     Call (ReqClient url port username password) None;
     Call ReqAuthLogIn (Some (LoginFailed msg));
     Log ERROR (MsgConnectFailed (LoginFailed msg))].
Proof.
  intros E1 E2 E3 E4 N A.
  unfold connect_qbittorrent; run.
  rewrite E1, E3, E4, E2; simpl; rewrite N; simpl; rewrite A; simpl.
  repeat split; reflexivity.
Qed.

(** A pass on a live handle asks for the listing, once. *)
Lemma checked_pass_lists_once s c :
  qb (self s) = Some c ->
  exists failure, listing_calls (events (checked_pass s)) = [failure].
Proof.
  intros Hc.
  destruct (torrents_info c (lit "completed") (world s)) as [[e | ts] w1] eqn:L.
  - rewrite (checked_pass_listing_failed s c e w1 Hc L); eexists; reflexivity.
  - rewrite (checked_pass_listed s c ts w1 Hc L); cbn [events].
    destruct (cleanup_loop_frame c ts 0 (mkState (self s) w1) Hc) as (_ & F & _).
    unfold listing_calls in *; rewrite !pick_app, F.
    destruct (res (cleanup_loop ts 0 (mkState (self s) w1)));
      eexists; reflexivity.
Qed.

(** C9 (amended). The connection attempt never raises.  It reports success,
    with the client handle set, even when the login is refused with a login
    failure, and the next pass then skips the connection step and goes
    straight to the listing request.  It reports failure exactly when the
    url, username or password entry is absent or when something in its [try]
    block raises an exception that is not a login failure of the login or
    version request: the lookup of the port entry, the construction of the
    client, or the login or version request failing in another way (a
    connection error, say). *)
Theorem connect_reports s :
  let r := connect_qbittorrent s in
  (exists ok, res r = inr ok) /\
  (forall url port username password c w1 msg w2,
     QbConfig.url (qb_config (self s)) = Some url ->
     QbConfig.port (qb_config (self s)) = Some port ->
     QbConfig.username (qb_config (self s)) = Some username ->
     QbConfig.password (qb_config (self s)) = Some password ->
     new_Client url port username password (world s) = (inr c, w1) ->
     auth_log_in c w1 = (inl (LoginFailed msg), w2) ->
     res r = inr true /\
     qb (self (state r)) = Some c /\
     errors (events r) = [MsgConnectFailed (LoginFailed msg)] /\
     cleanup_torrents (state r) = checked_pass (state r) /\
     exists failure,
       listing_calls (events (cleanup_torrents (state r))) = [failure]) /\
  (res r = inr false <->
   credentials_present (qb_config (self s)) = false \/ attempt_raises s).
Proof.
  intros r; subst r.
  split; [apply connect_returns |].
  split; [| apply connect_false_iff].
  intros url port username password c w1 msg w2 E1 E2 E3 E4 N A.
  destruct (connect_login_failed s url port username password c w1 msg w2
              E1 E2 E3 E4 N A) as (R & Hq & _ & Ev).
  assert (U : cleanup_torrents (state (connect_qbittorrent s))
              = checked_pass (state (connect_qbittorrent s))).
  { rewrite cleanup_torrents_unfold, Hq; reflexivity. }
  repeat split; auto.
  - rewrite Ev; reflexivity.
  - rewrite U; apply (checked_pass_lists_once _ c Hq).
Qed.

End ConnectOutcome.

Section PassWithoutHandle.
Context {W Client : Type} {api : ClientAPI W Client}.

Implicit Types (s : State W Client) (c : Client).

(** When the attempt of a pass without a handle reports success, the pass
    goes on and asks for the listing. *)
Lemma connected_pass_lists s :
  qb (self s) = None ->
  res (connect_qbittorrent s) = inr true ->
  exists failure, listing_calls (events (cleanup_torrents s)) = [failure].
Proof.
  intros Hq Ht.
  destruct (connect_true_handle s Ht) as [c Hc].
  destruct (connect_no_pass_requests s) as [N1 _].
  destruct (checked_pass_lists_once _ c Hc) as [failure L].
  rewrite cleanup_torrents_unfold, Hq.
  destruct (connect_qbittorrent s) as [v st evs];
    cbn [res state events] in *; subst v.
  destruct (checked_pass st) as [v' st' evs']; cbn [events] in *.
  exists failure; unfold listing_calls in *; rewrite pick_app, N1, L; reflexivity.
Qed.

(** C6 (amended). A pass that starts without a client handle and whose
    connection attempt reports failure ends there: it returns at once, all it
    did and logged is what the attempt did and logged, among it the error
    that tells the connection failure, and it asked the client for no listing
    and for no deletion. *)
Theorem failed_connection_aborts_pass s :
  qb (self s) = None ->
  res (connect_qbittorrent s) = inr false ->
  let rc := connect_qbittorrent s in
  let r := cleanup_torrents s in
  res r = inr tt /\
  events r = events rc /\
  state r = state rc /\
  listing_calls (events r) = [] /\
  delete_calls (events r) = [] /\
  (In MsgConfigMissing (errors (events r)) \/
   exists e, In (MsgConnectFailed e) (errors (events r))).
Proof.
  intros Hq Hf rc r; subst rc r.
  pose proof (connect_false_logged s Hf) as Hlog.
  destruct (connect_no_pass_requests s) as [N1 N2].
  rewrite cleanup_torrents_unfold, Hq.
  destruct (connect_qbittorrent s) as [v st evs];
    cbn [res state events] in *; subst v.
  cbn [res state events]; repeat split; assumption.
Qed.

End PassWithoutHandle.

(* ================================================================= *)
(** ** The scheduler loop of [main] *)

Lemma stop_cause_None (pending : list SchedEvent) :
  stop_cause pending = None <-> forall ev, In ev pending -> ev = Fire.
Proof.
  induction pending as [|ev later IH]; simpl.
  - split; [intros _ ev [] | reflexivity].
  - destruct ev; simpl.
    + rewrite IH; split.
      * intros H ev [<- | I]; [reflexivity | apply H; exact I].
      * intros H ev I; apply H; right; exact I.
    + split; [discriminate | intros H; discriminate (H Interrupt (or_introl eq_refl))].
    + split; [discriminate | intros H; discriminate (H (Fault e) (or_introl eq_refl))].
Qed.

Lemma stop_cause_Some (pending : list SchedEvent) (ev : SchedEvent) :
  stop_cause pending = Some ev -> In ev pending /\ ev <> Fire.
Proof.
  induction pending as [|ev' later IH]; simpl; [discriminate |].
  destruct ev'; simpl.
  - intros H; destruct (IH H); split; [right |]; assumption.
  - intros [= <-]; split; [left; reflexivity | discriminate].
  - intros [= <-]; split; [left; reflexivity | discriminate].
Qed.

Section MainLoop.
Context {W Client : Type} {api : ClientAPI W Client}.
Variable py_float : str -> exn + float.
Variable py_int : str -> exn + Z.
Variable lower : str -> str.
Variable IntervalTrigger : Z -> exn + unit.

Implicit Types (s : State W Client) (c : Client).

(** [main_loop] once the start-up connection test has succeeded and the
    interval trigger is built. *)
Lemma main_loop_connected scheduler_config pending s :
  res (connect_qbittorrent s) = inr true ->
  IntervalTrigger (interval_minutes scheduler_config) = inr tt ->
  let rc := connect_qbittorrent s in
  let first := cleanup_torrents (state rc) in
  let rest := passes (fires pending) (state first) in
  let interval := interval_minutes scheduler_config in
  main_loop IntervalTrigger scheduler_config pending s =
    mkResult
      (inr (match stop_cause pending with
            | None => Waiting
            | Some _ => Stopped
            end))
      (state rest)
      (events rc
       ++ [AddJob interval; Log INFO MsgFirstCheck]
       ++ events first
       ++ [Log INFO (MsgServiceStarted interval)]
       ++ events rest
       ++ closing (stop_cause pending)).
Proof.
  intros Hc Ht rc first rest interval; subst rc first rest interval.
  unfold main_loop.
  unfold bind at 1.
  destruct (connect_qbittorrent s) as [v st evs]; cbn [res state events] in *; subst v.
  cbn [negb].
  unfold bind at 1; unfold lift at 1; rewrite Ht; unfold ret at 1; cbn iota beta.
  unfold bind at 1; unfold emit at 1; cbn iota beta.
  unfold bind at 1; unfold logger_info at 1, emit at 1; cbn iota beta.
  unfold bind at 1.
  pose proof (cleanup_returns st) as R.
  destruct (cleanup_torrents st) as [v1 st1 evs1]; cbn [res state events] in *; subst v1.
  unfold bind at 1; unfold logger_info at 1, emit at 1; cbn iota beta.
  unfold bind at 1.
  destruct (scheduler_start_passes pending st1) as (S1 & S2 & S3).
  destruct (scheduler_start cleanup_torrents pending st1) as [v2 st2 evs2];
    cbn [res state events] in *; subst v2 st2 evs2.
  pose proof (stop_cause_Some pending) as NF.
  destruct (stop_cause pending) as [[| |e]|]; cbn.
  - destruct (NF Fire eq_refl) as [_ []]; reflexivity.
  - rewrite ?app_nil_r, <- ?app_assoc; reflexivity.
  - rewrite ?app_nil_r, <- ?app_assoc; reflexivity.
  - rewrite ?app_nil_r, <- ?app_assoc; reflexivity.
Qed.

(** [main_loop] when the connection test succeeds and the constructor of the
    interval trigger raises: the exception leaves [main_loop] at once. *)
Lemma main_loop_trigger_raises scheduler_config pending s e :
  res (connect_qbittorrent s) = inr true ->
  IntervalTrigger (interval_minutes scheduler_config) = inl e ->
  main_loop IntervalTrigger scheduler_config pending s =
    mkResult (inl e) (state (connect_qbittorrent s)) (events (connect_qbittorrent s)).
Proof.
  intros Hc Ht; unfold main_loop, bind at 1.
  destruct (connect_qbittorrent s) as [v st evs]; cbn [res state events] in *; subst v.
  cbn [negb]; unfold bind at 1, lift at 1; rewrite Ht; unfold raise; cbn iota beta.
  rewrite app_nil_r; reflexivity.
Qed.

(** The interval of a loaded configuration is what [CHECK_INTERVAL] says, 60
    when it is not set. *)
Lemma load_config_interval environ config :
  load_config py_float py_int lower environ = inr config ->
  py_int (getenv environ (lit "CHECK_INTERVAL") (lit "60"))
    = inr (interval_minutes (scheduler config)).
Proof.
  unfold load_config.
  destruct (py_float _) as [e1 | rl]; [discriminate |].
  destruct (py_float _) as [e2 | sl]; [discriminate |].
  destruct (py_int _) as [e3 | iv]; [discriminate |].
  intros [= <-]; reflexivity.
Qed.

(** C7 (amended). Provided the configuration loads, the start-up
    connection test succeeds and the interval trigger is built from the
    configured interval, [main] registers the cleanup job with an interval
    trigger of the configured number of minutes, runs one pass at once,
    before the scheduler starts, and then one pass for each firing of that
    trigger.  No failure inside a pass ends the loop or crashes [main]: as
    long as only fires arrive [main] stays inside the scheduler, waiting, and
    it reaches the stopped state exactly when an event that is not a fire
    arrives, the operator's interrupt or an exception of the scheduler
    itself. *)
Theorem scheduler_loop_runs environ pending w config :
  load_config py_float py_int lower environ = inr config ->
  let s0 := mkState (init Client (qbittorrent config)) w in
  res (connect_qbittorrent s0) = inr true ->
  IntervalTrigger (interval_minutes (scheduler config)) = inr tt ->
  let rc := connect_qbittorrent s0 in
  let first := cleanup_torrents (state rc) in
  let rest := passes (fires pending) (state first) in
  let interval := interval_minutes (scheduler config) in
  let m := main py_float py_int lower IntervalTrigger environ pending w in
  py_int (getenv environ (lit "CHECK_INTERVAL") (lit "60")) = inr interval /\
  trace m = Log INFO MsgServiceStarting
            :: events rc
            ++ [AddJob interval; Log INFO MsgFirstCheck]
            ++ events first
            ++ [Log INFO (MsgServiceStarted interval)]
            ++ events rest
            ++ closing (stop_cause pending) /\
  world_after m = world (state rest) /\
  ((forall ev, In ev pending -> ev = Fire) -> exit m = inr Waiting) /\
  (exit m = inr Stopped <->
   exists ev, In ev pending /\ (ev = Interrupt \/ exists e, ev = Fault e)).
Proof.
  intros Hload s0 Hc Ht rc first rest interval m; subst rc first rest interval m.
  split; [apply load_config_interval; exact Hload |].
  unfold main; rewrite Hload; cbn [trace world_after exit].
  fold s0; rewrite (main_loop_connected (scheduler config) pending s0 Hc Ht).
  cbn [res state events].
  split; [reflexivity |]; split; [reflexivity |]; split.
  - intros AllFire; apply stop_cause_None in AllFire; rewrite AllFire; reflexivity.
  - split.
    + destruct (stop_cause pending) as [ev|] eqn:SC; [| discriminate].
      intros _; destruct (stop_cause_Some pending ev SC) as [I NF].
      exists ev; split; [exact I |].
      destruct ev; [contradiction NF; reflexivity | left; reflexivity
                   | right; eexists; reflexivity].
    + intros (ev & I & Hev).
      destruct (stop_cause pending) as [ev'|] eqn:SC; [reflexivity |].
      pose proof (proj1 (stop_cause_None pending) SC ev I) as F.
      destruct Hev as [-> | [e ->]]; discriminate.
Qed.

End MainLoop.

(* ================================================================= *)
(** ** Category lists read by [load_config] *)


Section LoadedConfig.
Context {W Client : Type} {api : ClientAPI W Client}.
Variable py_float : str -> exn + float.
Variable py_int : str -> exn + Z.
Variable lower : str -> str.

Implicit Types (s : State W Client) (torrent : Torrent).



End LoadedConfig.

(* ================================================================= *)
(** * The theorems on the simulated service *)

(** ** The decision writes to the log *)

(** Condemning a record writes an INFO record: the decision is not free of
    output. *)
Lemma should_delete_writes_log :
  let s := mkState (Sim.connected (Sim.config [] [])) Sim.inventory in
  res (should_delete_torrent Sim.over_ratio s) = inr true /\
  events (should_delete_torrent Sim.over_ratio s)
    = [Log INFO (MsgMeetsCondition (lit "a") (PyFloat 2.5%float) (PyFloat 60%float))].
Proof. vm_compute; split; reflexivity. Qed.

(** Two cleaners with the same policy, one connected to a full service and one
    not connected at all, decide alike. *)
Lemma should_delete_deterministic_and_logs_witness :
  let s1 := mkState (Sim.connected (Sim.config [] [])) Sim.inventory in
  let s2 := mkState (init Sim.Handle (Sim.config [] [])) ([] : Sim.Inventory) in
  let r1 := should_delete_torrent Sim.over_time s1 in
  let r2 := should_delete_torrent Sim.over_time s2 in
  res r1 = res r2 /\
  events r1 = events r2 /\
  state r1 = s1 /\
  (forall req failure, ~ In (Call req failure) (events r1)) /\
  (res r1 = inr true <->
   exists minutes,
     events r1 = [Log INFO (MsgMeetsCondition (name Sim.over_time)
                              (ratio Sim.over_time) minutes)]) /\
  (res r1 <> inr true <-> events r1 = []).
Proof.
  apply (should_delete_deterministic_and_logs
           (mkState (Sim.connected (Sim.config [] [])) Sim.inventory)
           (mkState (init Sim.Handle (Sim.config [] [])) ([] : Sim.Inventory))
           Sim.over_time); reflexivity.
Defined.

(** ** One refused deletion among three *)

(** Of the four torrents three are condemned; the service refuses to delete
    the second of them. *)
Lemma partial_failure_isolation_witness :
  let s := mkState (Sim.connected (Sim.config [] [])) Sim.inventory in
  let r := cleanup_torrents (api := Sim.api (Sim.undeletable "b")) s in
  let cands := filter (qualifies s) Sim.inventory in
  res r = inr tt /\
  considered (events r) = [4] /\
  condemned (events r) = map name cands /\
  map fst (delete_calls (events r)) = map hash cands /\
  errors (events r) = [MsgDeleteFailed (name Sim.over_time) Sim.not_found] /\
  deleted (events r) = [List.length cands - 1].
Proof.
  apply (partial_failure_isolation (api := Sim.api (Sim.undeletable "b"))
           (mkState (Sim.connected (Sim.config [] [])) Sim.inventory)
           Sim.handle Sim.inventory Sim.inventory 1 Sim.over_time Sim.not_found).
  - reflexivity.
  - reflexivity.
  - repeat (apply Forall_cons; [eexists; vm_compute; reflexivity |]).
    apply Forall_nil.
  - vm_compute; reflexivity.
  - intros [|[|[|j]]] t H Hj; vm_compute in H; try discriminate;
      try (exfalso; apply Hj; reflexivity);
      try (destruct j; discriminate);
      injection H as <-; vm_compute; discriminate.
  - intros w; reflexivity.
  - intros [|[|[|j]]] t w H Hj; vm_compute in H; try discriminate;
      try (exfalso; apply Hj; reflexivity);
      try (destruct j; discriminate);
      injection H as <-; reflexivity.
Defined.

(** The whole trace of that pass. *)
Example partial_failure_trace :
  let s := mkState (Sim.connected (Sim.config [] [])) Sim.inventory in
  let r := cleanup_torrents (api := Sim.api (Sim.undeletable "b")) s in
  map name (world (state r)) = [lit "b"; lit "c"] /\
  errors (events r) = [MsgDeleteFailed (lit "b") Sim.not_found] /\
  map fst (delete_calls (events r)) = [lit "a"; lit "b"; lit "d"] /\
  considered (events r) = [4] /\
  deleted (events r) = [2].
Proof. vm_compute; repeat split; reflexivity. Qed.

(** A decision that raises is another matter.  The listing holds two
    candidates, [a] and [b], and between them a record on which the decision
    raises; the service refuses to delete [a].  The failed deletion stops
    nothing, but the raising decision ends the pass: the deletion of [b] is
    never asked for, two errors are reported, and no count. *)
Lemma raising_decision_breaks_isolation :
  let s := mkState (Sim.connected (Sim.config [] [])) Cases.with_huge_ratio in
  let r := cleanup_torrents (api := Sim.api (Sim.undeletable "a")) s in
  filter (qualifies s) Cases.with_huge_ratio = [Sim.over_ratio; Sim.over_time] /\
  res r = inr tt /\
  delete_calls (events r) = [(lit "a", Some Sim.not_found)] /\
  errors (events r)
    = [MsgDeleteFailed (lit "a") Sim.not_found;
       MsgCleanupError (OverflowError (lit "int too large to convert to float"))] /\
  deleted (events r) = [].
Proof. vm_compute; repeat split; reflexivity. Qed.

(** ** A failing listing *)

Lemma listing_failure_empties_pass_witness :
  let s := mkState (Sim.connected (Sim.config [] [])) Sim.inventory in
  let r := cleanup_torrents (api := Sim.api Sim.listing_down) s in
  res r = inr tt /\
  considered (events r) = [0] /\
  deleted (events r) = [0] /\
  delete_calls (events r) = [] /\
  In (MsgListFailed Sim.connection_refused) (errors (events r)) /\
  res (scheduler_start (cleanup_torrents (api := Sim.api Sim.listing_down)) [Fire] s)
    = inr StillBlocking /\
  (forall later,
     res (scheduler_start (cleanup_torrents (api := Sim.api Sim.listing_down))
            (Fire :: later) s)
       = res (scheduler_start (cleanup_torrents (api := Sim.api Sim.listing_down))
                later (state r))).
Proof.
  apply (listing_failure_empties_pass (api := Sim.api Sim.listing_down)
           (mkState (Sim.connected (Sim.config [] [])) Sim.inventory)
           (lit "completed") Sim.connection_refused).
  vm_compute; right; left; reflexivity.
Defined.

(** ** A pass that cannot connect *)

Lemma failed_connection_aborts_pass_witness :
  let s := mkState (init Sim.Handle Sim.config_without_url) Sim.inventory in
  let rc := connect_qbittorrent (api := Sim.api Sim.healthy) s in
  let r := cleanup_torrents (api := Sim.api Sim.healthy) s in
  res r = inr tt /\
  events r = events rc /\
  state r = state rc /\
  listing_calls (events r) = [] /\
  delete_calls (events r) = [] /\
  (In MsgConfigMissing (errors (events r)) \/
   exists e, In (MsgConnectFailed e) (errors (events r))).
Proof.
  apply (failed_connection_aborts_pass (api := Sim.api Sim.healthy)
           (mkState (init Sim.Handle Sim.config_without_url) Sim.inventory));
    reflexivity.
Defined.

(** The service refuses the password of a cleaner that has no handle yet: the
    failure to connect is logged, and the pass goes on to ask for the
    listing. *)
Lemma refused_login_pass_goes_on :
  let s := mkState (init Sim.Handle (Sim.config [] [])) Sim.inventory in
  let r := cleanup_torrents (api := Sim.api Sim.bad_password) s in
  qb (self s) = None /\
  res (connect_qbittorrent (api := Sim.api Sim.bad_password) s) = inr true /\
  errors (events r)
    = [MsgConnectFailed (LoginFailed (lit "Forbidden")); MsgListFailed Sim.forbidden] /\
  listing_calls (events r) = [Some Sim.forbidden].
Proof. vm_compute; repeat split; reflexivity. Qed.

(** ** Connection attempts *)

(** The service cannot be reached: the configuration is complete and the
    client is constructed, yet the attempt reports failure, because the login
    request raises a connection error.  The handle stays set. *)
Lemma connect_fails_on_connection_error :
  let s := mkState (init Sim.Handle (Sim.config [] [])) Sim.inventory in
  let r := connect_qbittorrent (api := Sim.api Sim.unreachable) s in
  credentials_present (qb_config (self s)) = true /\
  res r = inr false /\
  qb (self (state r)) = Some Sim.handle /\
  events r =
    [Log INFO (MsgConnecting (lit "http://localhost") (lit "8080") (lit "admin"));
     Call (ReqClient (lit "http://localhost") (lit "8080") (lit "admin")
                     (lit "adminadmin")) None;
     Call ReqAuthLogIn (Some Sim.connection_refused);
     PrintExc Sim.connection_refused;
     Log ERROR (MsgConnectFailed Sim.connection_refused)].
Proof. vm_compute; repeat split; reflexivity. Qed.

(** The service refuses the password: the attempt reports success. *)
Lemma connect_reports_witness :
  let s := mkState (init Sim.Handle (Sim.config [] [])) Sim.inventory in
  let r := connect_qbittorrent (api := Sim.api Sim.bad_password) s in
  res r = inr true /\
  qb (self (state r)) = Some Sim.handle /\
  errors (events r) = [MsgConnectFailed (LoginFailed (lit "Forbidden"))] /\
  cleanup_torrents (api := Sim.api Sim.bad_password) (state r)
    = checked_pass (api := Sim.api Sim.bad_password) (state r) /\
  exists failure,
    listing_calls (events (cleanup_torrents (api := Sim.api Sim.bad_password)
                             (state r))) = [failure].
Proof.
  apply (proj1 (proj2 (connect_reports (api := Sim.api Sim.bad_password)
                         (mkState (init Sim.Handle (Sim.config [] [])) Sim.inventory)))
           (lit "http://localhost") (lit "8080") (lit "admin") (lit "adminadmin")
           Sim.handle Sim.inventory (lit "Forbidden") Sim.inventory);
    reflexivity.
Defined.

(** ** The scheduler loop *)

(** Two fires, then the operator's interrupt. *)
Lemma scheduler_loop_runs_witness :
  let pending := [Fire; Fire; Interrupt] in
  let s0 := mkState (init Sim.Handle (Sim.config [] [])) Sim.inventory in
  let rc := connect_qbittorrent (api := Sim.api Sim.healthy) s0 in
  let first := cleanup_torrents (api := Sim.api Sim.healthy) (state rc) in
  let rest := passes (api := Sim.api Sim.healthy) (fires pending) (state first) in
  let m := main (api := Sim.api Sim.healthy) Sim.py_float Sim.py_int Sim.lower Sim.IntervalTrigger
                (Sim.environ "" "") pending Sim.inventory in
  Sim.py_int (getenv (Sim.environ "" "") (lit "CHECK_INTERVAL") (lit "60")) = inr 60%Z /\
  trace m = Log INFO MsgServiceStarting
            :: events rc
            ++ [AddJob 60; Log INFO MsgFirstCheck]
            ++ events first
            ++ [Log INFO (MsgServiceStarted 60)]
            ++ events rest
            ++ closing (stop_cause pending) /\
  world_after m = world (state rest) /\
  ((forall ev, In ev pending -> ev = Fire) -> exit m = inr Waiting) /\
  (exit m = inr Stopped <->
   exists ev, In ev pending /\ (ev = Interrupt \/ exists e, ev = Fault e)).
Proof.
  apply (scheduler_loop_runs (api := Sim.api Sim.healthy)
           Sim.py_float Sim.py_int Sim.lower Sim.IntervalTrigger
           (Sim.environ "" "") [Fire; Fire; Interrupt] Sim.inventory
           (Sim.loaded [] [])).
  - vm_compute; reflexivity.
  - vm_compute; reflexivity.
  - vm_compute; reflexivity.
Defined.

(** Three runs of [main] on which the loop is not what the claim says.  An
    exception of the scheduler itself ends the loop, with no stop signal from
    outside.  When the service cannot be reached at the start, no pass runs
    at all, neither at once nor on a fire.  When the configured interval is
    more than the interval trigger takes, [main] raises before any pass and
    before the job is registered. *)
Lemma scheduler_loop_exceptions :
  (let pending := [Fire; Fault Sim.connection_refused] in
   let m := main (api := Sim.api Sim.healthy)
                 Sim.py_float Sim.py_int Sim.lower Sim.IntervalTrigger
                 (Sim.environ "" "") pending Sim.inventory in
   exit m = inr Stopped /\
   existsb is_Interrupt pending = false /\
   errors (trace m) = [MsgSchedulerError Sim.connection_refused]) /\
  (let m := main (api := Sim.api Sim.unreachable)
                 Sim.py_float Sim.py_int Sim.lower Sim.IntervalTrigger
                 (Sim.environ "" "") [Fire; Fire] Sim.inventory in
   exit m = inr NotStarted /\
   listing_calls (trace m) = [] /\
   jobs (trace m) = []) /\
  (let m := main (api := Sim.api Sim.healthy)
                 Sim.py_float Cases.py_int Sim.lower Sim.IntervalTrigger
                 Cases.far_interval_environ [Fire; Fire] Sim.inventory in
   exit m = inl (OverflowError (lit "date value out of range")) /\
   listing_calls (trace m) = [] /\
   jobs (trace m) = []).
Proof. vm_compute; repeat split; reflexivity. Qed.

(** Without the address of the service [main] returns before any pass. *)
Example main_without_connection :
  let s0 := mkState (init Sim.Handle Sim.config_without_url) Sim.inventory in
  let r := main_loop (api := Sim.api Sim.healthy) Sim.IntervalTrigger
                     {| interval_minutes := 60 |} [Fire; Fire] s0 in
  res r = inr NotStarted /\
  events r = [Log ERROR MsgConfigMissing; Log ERROR MsgInitialConnectFailed].
Proof. vm_compute; split; reflexivity. Qed.

(** ** Loaded category lists *)


(* ================================================================= *)
(** * Further properties of the program *)

(** ** The deletion loop, whatever the client answers *)

Section LoopAccounts.
Context {W Client : Type} {api : ClientAPI W Client}.

Implicit Types (s : State W Client) (torrent : Torrent) (c : Client).

(** What a decision contributes to the further readings. *)
Lemma should_delete_more_readings s torrent :
  let evs := events (should_delete_torrent torrent s) in
  connection_calls evs = [] /\ listing_filters evs = [] /\
  delete_flags evs = [] /\ jobs evs = [].
Proof.
  destruct (should_delete_events s torrent) as [(_ & m & _ & E) | (_ & E)];
    cbv zeta; rewrite E; repeat split; reflexivity.
Qed.

(** The loop builds no client, logs in nowhere and asks for no listing. *)
Lemma cleanup_loop_requests c ts : forall n s,
  qb (self s) = Some c ->
  let r := cleanup_loop ts n s in
  connection_calls (events r) = [] /\
  listing_filters (events r) = [] /\
  jobs (events r) = [].
Proof.
  induction ts as [|t rest IH]; intros n s Hc.
  - simpl; repeat split; reflexivity.
  - cbv zeta.
    destruct (res (should_delete_torrent t s)) as [e | [|]] eqn:V.
    + rewrite (cleanup_loop_raise s t rest n e V); simpl; repeat split; reflexivity.
    + destruct (torrents_delete c (purge s) (hash t) (world s)) as [v w'] eqn:D.
      rewrite (cleanup_loop_delete s c t rest n v w' V Hc D);
        cbn [res state events self world].
      destruct (IH (match v with inr _ => S n | inl _ => n end)
                   (mkState (self s) w') Hc) as (I1 & I2 & I3).
      destruct (should_delete_more_readings s t) as (R1 & R2 & _ & R4).
      unfold connection_calls, listing_filters, jobs in *.
      rewrite !pick_app, R1, R2, R4, I1, I2, I3.
      repeat split; destruct v; reflexivity.
    + rewrite (cleanup_loop_keep s t rest n V); apply IH; assumption.
Qed.

Lemma delete_calls_app (l1 l2 : list Event) :
  delete_calls (l1 ++ l2) = delete_calls l1 ++ delete_calls l2.
Proof. apply pick_app. Qed.

Lemma delete_flags_app (l1 l2 : list Event) :
  delete_flags (l1 ++ l2) = delete_flags l1 ++ delete_flags l2.
Proof. apply pick_app. Qed.

Lemma errors_app (l1 l2 : list Event) :
  errors (l1 ++ l2) = errors l1 ++ errors l2.
Proof. apply pick_app. Qed.

Lemma condemned_app (l1 l2 : list Event) :
  condemned (l1 ++ l2) = condemned l1 ++ condemned l2.
Proof. apply pick_app. Qed.

(** The loop over records the policy decides on: one deletion request for
    each condemned record, in order and with the configured flag; one error
    record for each request that raised; the counter counts the others. *)
Lemma cleanup_loop_accounts c ts : forall n s,
  qb (self s) = Some c ->
  Forall (decided s) ts ->
  let r := cleanup_loop ts n s in
  let cands := filter (qualifies s) ts in
  let answers := map snd (delete_calls (events r)) in
  map fst (delete_calls (events r)) = map hash cands /\
  delete_flags (events r) = map (fun _ => purge s) cands /\
  errors (events r) = refusals (combine cands answers) /\
  condemned (events r) = map name cands /\
  res r = inr (n + successes answers).
Proof.
  induction ts as [|t rest IH]; intros n s Hc Hdec.
  - simpl; rewrite Nat.add_0_r; repeat split; reflexivity.
  - cbv zeta.
    inversion Hdec as [|? ? [b V] Hrest]; subst.
    assert (Q : qualifies s t = b)
      by (unfold qualifies; rewrite V; destruct b; reflexivity).
    destruct b.
    + destruct (torrents_delete c (purge s) (hash t) (world s)) as [v w'] eqn:D.
      rewrite (cleanup_loop_delete s c t rest n v w' V Hc D);
        cbn [res state events self world filter].
      set (s' := mkState (self s) w').
      assert (Es : self s = self s') by reflexivity.
      assert (Ef : filter (qualifies s) rest = filter (qualifies s') rest).
      { apply filter_ext; intros; apply qualifies_self; assumption. }
      assert (Hdec' : Forall (decided s') rest).
      { eapply Forall_impl; [| exact Hrest]; intros a; apply decided_self; assumption. }
      destruct (should_delete_readings s t) as (R1 & _ & R3 & _ & _ & R6).
      destruct (should_delete_more_readings s t) as (_ & _ & R7 & _).
      rewrite Q in *.
      destruct (IH (match v with inr _ => S n | inl _ => n end) s' Hc Hdec')
        as (I1 & I2 & I3 & I4 & I5).
      rewrite !delete_calls_app, !delete_flags_app, !errors_app, !condemned_app.
      rewrite R1, R3, R6, R7, I4, I5, <- Ef.
      set (mid := [Call (ReqTorrentsDelete (purge s) (hash t)) (failure_of v);
                   match v with
                   | inl e => Log ERROR (MsgDeleteFailed (name t) e)
                   | inr _ => Log INFO (MsgDeleted (name t) (purge s))
                   end]).
      assert (M1 : delete_calls mid = [(hash t, failure_of v)])
        by (destruct v; reflexivity).
      assert (M2 : delete_flags mid = [purge s]) by (destruct v; reflexivity).
      assert (M3 : errors mid = refusals [(t, failure_of v)])
        by (destruct v; reflexivity).
      assert (M4 : condemned mid = []) by (destruct v; reflexivity).
      rewrite M1, M2, M3, M4.
      cbn [app map fst snd combine].
      rewrite I1, I2, I3, <- Ef.
      destruct v as [e | []]; unfold successes, refusals;
        cbn [failure_of filter List.length flat_map fst snd app];
        repeat split; try reflexivity; f_equal; lia.
    + rewrite (cleanup_loop_keep s t rest n V).
      cbn [filter]; rewrite Q.
      apply IH; assumption.
Qed.

(** The loop over a list runs the loop over its front and then, unless that
    raised, over its back. *)
Lemma cleanup_loop_app c pre post : forall n s,
  qb (self s) = Some c ->
  Forall (decided s) pre ->
  let r0 := cleanup_loop pre n s in
  exists n',
    res r0 = inr n' /\
    cleanup_loop (pre ++ post) n s =
      match cleanup_loop post n' (state r0) with
      | mkResult v st evs => mkResult v st (events r0 ++ evs)
      end.
Proof.
  induction pre as [|t rest IH]; intros n s Hc Hdec.
  - exists n; split; [reflexivity |].
    cbn [app cleanup_loop ret res state events].
    destruct (cleanup_loop post n s) as [v2 st2 evs2]; reflexivity.
  - cbv zeta.
    inversion Hdec as [|? ? [b V] Hrest]; subst.
    destruct b.
    + destruct (torrents_delete c (purge s) (hash t) (world s)) as [v w'] eqn:D.
      cbn [app].
      rewrite (cleanup_loop_delete s c t rest n v w' V Hc D).
      rewrite (cleanup_loop_delete s c t (rest ++ post) n v w' V Hc D).
      cbn [res state events].
      set (s' := mkState (self s) w').
      assert (Hdec' : Forall (decided s') rest).
      { eapply Forall_impl; [| exact Hrest]; intros a; apply decided_self; reflexivity. }
      destruct (IH (match v with inr _ => S n | inl _ => n end) s' Hc Hdec')
        as (n' & R & E).
      exists n'; split; [exact R |].
      rewrite E.
      destruct (cleanup_loop post n' _) as [v2 st2 evs2]; cbn [res state events].
      rewrite <- !app_assoc; reflexivity.
    + cbn [app].
      rewrite (cleanup_loop_keep s t rest n V).
      rewrite (cleanup_loop_keep s t (rest ++ post) n V).
      apply IH; assumption.
Qed.

End LoopAccounts.

Lemma successes_le (answers : list (option exn)) :
  successes answers <= List.length answers.
Proof. unfold successes; apply filter_length_le. Qed.

Section PassAccounts.
Context {W Client : Type} {api : ClientAPI W Client}.

Implicit Types (s : State W Client) (torrent : Torrent) (c : Client).

(** X1. A pass on a live handle, whatever the client answers to the
    deletions.  It asks once for the listing, of completed torrents only, and
    builds no client.  It asks for the deletion of each record the policy
    condemns, once, in the order of the listing and with the configured
    [delete_files] flag, and of no other record.  It logs one error for each
    deletion that raised and reports as deleted the number of those that did
    not, which is at most the number of condemned records, itself at most the
    number of records found. *)
Theorem pass_accounts s c ts w1 :
  qb (self s) = Some c ->
  torrents_info c (lit "completed") (world s) = (inr ts, w1) ->
  Forall (decided s) ts ->
  let r := cleanup_torrents s in
  let cands := filter (qualifies s) ts in
  let answers := map snd (delete_calls (events r)) in
  res r = inr tt /\
  listing_filters (events r) = [lit "completed"] /\
  connection_calls (events r) = [] /\
  considered (events r) = [List.length ts] /\
  condemned (events r) = map name cands /\
  map fst (delete_calls (events r)) = map hash cands /\
  delete_flags (events r) = map (fun _ => purge s) cands /\
  errors (events r) = refusals (combine cands answers) /\
  deleted (events r) = [successes answers] /\
  successes answers <= List.length cands <= List.length ts.
Proof.
  intros Hc Hl Hdec r cands answers; subst r cands answers.
  rewrite cleanup_torrents_unfold, Hc.
  rewrite (checked_pass_listed s c ts w1 Hc Hl); cbn [res state events].
  set (s1 := mkState (self s) w1).
  assert (Es : self s = self s1) by reflexivity.
  assert (Ef : filter (qualifies s1) ts = filter (qualifies s) ts).
  { apply filter_ext; intros; symmetry; apply qualifies_self; assumption. }
  assert (Hdec1 : Forall (decided s1) ts).
  { eapply Forall_impl; [| exact Hdec]; intros a; apply decided_self; assumption. }
  destruct (cleanup_loop_accounts c ts 0 s1 Hc Hdec1) as (A1 & A2 & A3 & A4 & A5).
  destruct (cleanup_loop_frame c ts 0 s1 Hc) as (_ & _ & F3 & F4).
  destruct (cleanup_loop_requests c ts 0 s1 Hc) as (Q1 & Q2 & _).
  rewrite Ef in *.
  set (r' := cleanup_loop ts 0 s1) in *.
  rewrite A5.
  set (tail := [Log INFO (MsgCleanupDone (0 + successes (map snd (delete_calls (events r')))))]).
  set (front := [Log INFO MsgChecking;
                 Call (ReqTorrentsInfo (lit "completed")) None;
                 Log INFO (MsgFound (List.length ts))]).
  rewrite !delete_calls_app, !delete_flags_app, !errors_app, !condemned_app.
  unfold listing_filters, connection_calls, considered, deleted in *.
  rewrite !pick_app, Q1, Q2, F3, F4.
  fold (delete_calls (events r')) in *.
  change (delete_calls front) with (@nil (str * option exn)).
  change (delete_calls tail) with (@nil (str * option exn)).
  change (delete_flags front) with (@nil bool).
  change (delete_flags tail) with (@nil bool).
  change (errors front) with (@nil LogMsg).
  change (errors tail) with (@nil LogMsg).
  change (condemned front) with (@nil str).
  change (condemned tail) with (@nil str).
  cbn [app]; rewrite !app_nil_r.
  rewrite A1, A2, A3, A4.
  repeat split; try reflexivity.
  - pose proof (successes_le (map snd (delete_calls (events r')))) as L.
    rewrite length_map in L.
    rewrite <- (length_map fst), A1, length_map in L; exact L.
  - apply filter_length_le.
Qed.

(** X2. A decision that raises ends the pass.  When the policy raises on a
    record of the listing, the records before it have been handled as
    usual, the exception is caught and logged as the error of the cleanup,
    the pass returns normally without reporting a count, and no record
    after the failing one is decided on or deleted. *)
Theorem raising_decision_ends_pass s c pre bad post w1 e :
  qb (self s) = Some c ->
  torrents_info c (lit "completed") (world s) = (inr (pre ++ bad :: post), w1) ->
  Forall (decided s) pre ->
  res (should_delete_torrent bad s) = inl e ->
  let r := cleanup_torrents s in
  let cands := filter (qualifies s) pre in
  let answers := map snd (delete_calls (events r)) in
  res r = inr tt /\
  considered (events r) = [List.length (pre ++ bad :: post)] /\
  condemned (events r) = map name cands /\
  map fst (delete_calls (events r)) = map hash cands /\
  errors (events r) = refusals (combine cands answers) ++ [MsgCleanupError e] /\
  deleted (events r) = [].
Proof.
  intros Hc Hl Hdec Hbad r cands answers; subst r cands answers.
  rewrite cleanup_torrents_unfold, Hc.
  rewrite (checked_pass_listed s c (pre ++ bad :: post) w1 Hc Hl);
    cbn [res state events].
  set (s1 := mkState (self s) w1).
  assert (Es : self s = self s1) by reflexivity.
  assert (Ef : filter (qualifies s1) pre = filter (qualifies s) pre).
  { apply filter_ext; intros; symmetry; apply qualifies_self; assumption. }
  assert (Hdec1 : Forall (decided s1) pre).
  { eapply Forall_impl; [| exact Hdec]; intros a; apply decided_self; assumption. }
  destruct (cleanup_loop_app c pre (bad :: post) 0 s1 Hc Hdec1) as (n' & R0 & E).
  destruct (cleanup_loop_accounts c pre 0 s1 Hc Hdec1) as (A1 & A2 & A3 & A4 & A5).
  destruct (cleanup_loop_frame c pre 0 s1 Hc) as (F1 & _ & F3 & F4).
  rewrite Ef in *.
  set (r0 := cleanup_loop pre 0 s1) in *.
  assert (Hbad0 : res (should_delete_torrent bad (state r0)) = inl e).
  { rewrite <- Hbad.
    apply (should_delete_policy_only (state r0) s bad); rewrite F1; reflexivity. }
  rewrite (cleanup_loop_raise (state r0) bad post n' e Hbad0) in E.
  rewrite E; cbn [res state events]; rewrite app_nil_r.
  set (tail := [Log ERROR (MsgCleanupError e)]).
  set (front := [Log INFO MsgChecking;
                 Call (ReqTorrentsInfo (lit "completed")) None;
                 Log INFO (MsgFound (List.length (pre ++ bad :: post)))]).
  rewrite !delete_calls_app, !errors_app, !condemned_app.
  unfold considered, deleted in *.
  rewrite !pick_app, F3, F4.
  change (delete_calls front) with (@nil (str * option exn)).
  change (delete_calls tail) with (@nil (str * option exn)).
  change (errors front) with (@nil LogMsg).
  change (errors tail) with [MsgCleanupError e].
  change (condemned front) with (@nil str).
  change (condemned tail) with (@nil str).
  cbn [app]; rewrite !app_nil_r.
  rewrite A1, A3, A4.
  repeat split; reflexivity.
Qed.

End PassAccounts.

(** Three records are condemned and the service refuses two of them: two
    errors, one deletion counted. *)
Lemma pass_accounts_witness :
  let s := mkState (Sim.connected (Sim.config [] [])) Sim.inventory in
  let r := cleanup_torrents (api := Sim.api Cases.two_undeletable) s in
  let cands := filter (qualifies s) Sim.inventory in
  let answers := map snd (delete_calls (events r)) in
  res r = inr tt /\
  listing_filters (events r) = [lit "completed"] /\
  connection_calls (events r) = [] /\
  considered (events r) = [4] /\
  condemned (events r) = map name cands /\
  map fst (delete_calls (events r)) = map hash cands /\
  delete_flags (events r) = map (fun _ => purge s) cands /\
  errors (events r) = refusals (combine cands answers) /\
  deleted (events r) = [successes answers] /\
  successes answers <= List.length cands <= 4.
Proof.
  apply (pass_accounts (api := Sim.api Cases.two_undeletable)
           (mkState (Sim.connected (Sim.config [] [])) Sim.inventory)
           Sim.handle Sim.inventory Sim.inventory).
  - reflexivity.
  - reflexivity.
  - repeat (apply Forall_cons; [eexists; vm_compute; reflexivity |]).
    apply Forall_nil.
Defined.

Example pass_accounts_trace :
  let s := mkState (Sim.connected (Sim.config [] [])) Sim.inventory in
  let r := cleanup_torrents (api := Sim.api Cases.two_undeletable) s in
  errors (events r) = [MsgDeleteFailed (lit "a") Sim.not_found;
                       MsgDeleteFailed (lit "d") Sim.connection_refused] /\
  deleted (events r) = [1] /\
  map name (world (state r)) = [lit "a"; lit "c"; lit "d"].
Proof. vm_compute; repeat split; reflexivity. Qed.

(** The second of three records has a seeding time no float can hold: the
    first is deleted, the third, though over the limit, is never looked at. *)
Lemma raising_decision_ends_pass_witness :
  let s := mkState (Sim.connected (Sim.config [] [])) Cases.with_endless in
  let r := cleanup_torrents (api := Sim.api Sim.healthy) s in
  let cands := filter (qualifies s) [Sim.over_ratio] in
  let answers := map snd (delete_calls (events r)) in
  res r = inr tt /\
  considered (events r) = [3] /\
  condemned (events r) = map name cands /\
  map fst (delete_calls (events r)) = map hash cands /\
  errors (events r)
    = refusals (combine cands answers)
      ++ [MsgCleanupError
            (OverflowError (lit "integer division result too large for a float"))] /\
  deleted (events r) = [].
Proof.
  apply (raising_decision_ends_pass (api := Sim.api Sim.healthy)
           (mkState (Sim.connected (Sim.config [] [])) Cases.with_endless)
           Sim.handle [Sim.over_ratio] Cases.endless [Sim.over_time]
           Cases.with_endless).
  - reflexivity.
  - reflexivity.
  - repeat (apply Forall_cons; [eexists; vm_compute; reflexivity |]).
    apply Forall_nil.
  - vm_compute; reflexivity.
Defined.

Example raising_decision_trace :
  let s := mkState (Sim.connected (Sim.config [] [])) Cases.with_endless in
  let r := cleanup_torrents (api := Sim.api Sim.healthy) s in
  map fst (delete_calls (events r)) = [lit "a"] /\
  map name (world (state r)) = [lit "x"; lit "b"].
Proof. vm_compute; repeat split; reflexivity. Qed.

(* ================================================================= *)
(** ** The connection attempt and the handle *)

Section Handle.
Context {W Client : Type} {api : ClientAPI W Client}.

Implicit Types (s : State W Client) (c : Client).

(** X3. Missing entries.  When the url, username or password entry is
    absent, or the port entry is, the attempt reports failure without
    building a client or making any request, and leaves the object and the
    world as they were.  The first case is logged as a configuration to
    check, the second as a connection failure with the [KeyError] of the
    port. *)
Theorem connect_missing_entry s :
  credentials_present (qb_config (self s)) = false \/
  QbConfig.port (qb_config (self s)) = None ->
  let r := connect_qbittorrent s in
  res r = inr false /\
  state r = s /\
  (forall req failure, ~ In (Call req failure) (events r)) /\
  errors (events r) =
    (if credentials_present (qb_config (self s))
     then [MsgConnectFailed (KeyError (lit "port"))]
     else [MsgConfigMissing]).
Proof.
  unfold credentials_present, connect_qbittorrent; run.
  intros [H | H].
  - repeat next_case; try discriminate; destruct s;
      repeat split; try reflexivity;
      intros req failure [I | []]; discriminate.
  - rewrite H.
    repeat next_case; destruct s; repeat split; try reflexivity;
      intros req failure I; simpl in I;
      repeat (destruct I as [I | I]; try discriminate); try contradiction.
Qed.

(** X4. The handle outlives a failed attempt.  Once the client has been
    built the handle is assigned, whatever the login does afterwards, also
    when the attempt then reports failure.  The next pass therefore finds a
    handle: it makes no connection attempt and goes to the listing. *)
Theorem handle_set_once_client_built s url port username password c w1 :
  QbConfig.url (qb_config (self s)) = Some url ->
  QbConfig.port (qb_config (self s)) = Some port ->
  QbConfig.username (qb_config (self s)) = Some username ->
  QbConfig.password (qb_config (self s)) = Some password ->
  new_Client url port username password (world s) = (inr c, w1) ->
  let r := connect_qbittorrent s in
  let next := cleanup_torrents (state r) in
  qb (self (state r)) = Some c /\
  next = checked_pass (state r) /\
  exists failure, listing_calls (events next) = [failure].
Proof.
  intros E1 E2 E3 E4 N r next; subst r next.
  assert (Hq : qb (self (state (connect_qbittorrent s))) = Some c).
  { unfold connect_qbittorrent; run.
    rewrite E1, E3, E4, E2; simpl; rewrite N; simpl.
    repeat next_case; reflexivity. }
  assert (U : cleanup_torrents (state (connect_qbittorrent s))
              = checked_pass (state (connect_qbittorrent s))).
  { rewrite cleanup_torrents_unfold, Hq; reflexivity. }
  split; [exact Hq |]; split; [exact U |].
  rewrite U; apply (checked_pass_lists_once _ c Hq).
Qed.

(** A pass on a live handle builds no client and does not log in. *)
Lemma checked_pass_no_connection s c :
  qb (self s) = Some c ->
  connection_calls (events (checked_pass s)) = [] /\
  List.length (listing_calls (events (checked_pass s))) = 1.
Proof.
  intros Hc.
  destruct (torrents_info c (lit "completed") (world s)) as [[e | ts] w1] eqn:L.
  - rewrite (checked_pass_listing_failed s c e w1 Hc L); split; reflexivity.
  - rewrite (checked_pass_listed s c ts w1 Hc L); cbn [events].
    destruct (cleanup_loop_requests c ts 0 (mkState (self s) w1) Hc) as (Q1 & _).
    destruct (cleanup_loop_frame c ts 0 (mkState (self s) w1) Hc) as (_ & F2 & _).
    unfold connection_calls, listing_calls in *.
    rewrite !pick_app, Q1, F2.
    destruct (res (cleanup_loop ts 0 (mkState (self s) w1))); split; reflexivity.
Qed.

(** A pass changes nothing of the object but, at most, the handle. *)
Lemma cleanup_same_policy s : same_policy (self (state (cleanup_torrents s))) (self s).
Proof.
  assert (CP : forall s0 c, qb (self s0) = Some c ->
                self (state (checked_pass s0)) = self s0).
  { intros s0 c Hc.
    destruct (torrents_info c (lit "completed") (world s0)) as [[e | ts] w1] eqn:L.
    - rewrite (checked_pass_listing_failed s0 c e w1 Hc L); reflexivity.
    - rewrite (checked_pass_listed s0 c ts w1 Hc L); cbn [state].
      apply (cleanup_loop_frame c ts 0 (mkState (self s0) w1) Hc). }
  rewrite cleanup_torrents_unfold.
  destruct (qb (self s)) as [c|] eqn:Hq.
  - rewrite (CP s c Hq); repeat split.
  - pose proof (connect_keeps_policy s) as K.
    pose proof (connect_true_handle s) as Hh.
    destruct (connect_returns s) as [ok Hok].
    destruct (connect_qbittorrent s) as [v st evs]; cbn [res state] in *; subst v.
    destruct K as (K1 & K2 & K3 & K4 & K5).
    destruct ok.
    + destruct (Hh eq_refl) as [c Hc].
      pose proof (CP st c Hc) as E.
      destruct (checked_pass st) as [v' st' evs']; cbn [state] in *.
      rewrite E; repeat split; assumption.
    + cbn [state]; repeat split; assumption.
Qed.

(** Passes from a state that holds a handle. *)
Lemma passes_on_handle n : forall s c,
  qb (self s) = Some c ->
  let r := passes n s in
  res r = inr tt /\
  qb (self (state r)) = Some c /\
  same_policy (self (state r)) (self s) /\
  connection_calls (events r) = [] /\
  List.length (listing_calls (events r)) = n.
Proof.
  induction n as [|n IH]; intros s c Hc.
  - cbn; repeat split; auto.
  - cbv zeta; rewrite passes_S.
    pose proof (cleanup_keeps_handle s c Hc) as K.
    pose proof (cleanup_same_policy s) as P.
    assert (Q : connection_calls (events (cleanup_torrents s)) = [] /\
                List.length (listing_calls (events (cleanup_torrents s))) = 1).
    { rewrite cleanup_torrents_unfold, Hc; apply (checked_pass_no_connection s c Hc). }
    destruct Q as [Q1 Q2].
    destruct (IH (state (cleanup_torrents s)) c K) as (I1 & I2 & I3 & I4 & I5).
    destruct (passes n (state (cleanup_torrents s))) as [v st evs];
      cbn [res state events] in *.
    unfold connection_calls, listing_calls in *.
    rewrite !pick_app, Q1, I4, length_app, Q2, I5.
    destruct I3 as (A1 & A2 & A3 & A4 & A5), P as (B1 & B2 & B3 & B4 & B5).
    repeat split; auto; congruence.
Qed.

(** X5. Passes never reconnect and never touch the policy.  Starting from an
    object that holds a handle, any number of passes in a row, whatever the
    client answers and however often the listing fails, keep that handle,
    build no client, send no login, ask for the listing exactly once per
    pass, and leave the configuration, the limits and both category lists of
    the object as they were. *)
Theorem passes_keep_handle_and_policy n : forall s c,
  qb (self s) = Some c ->
  let r := passes n s in
  res r = inr tt /\
  qb (self (state r)) = Some c /\
  same_policy (self (state r)) (self s) /\
  connection_calls (events r) = [] /\
  List.length (listing_calls (events r)) = n.
Proof. exact (passes_on_handle n). Qed.

End Handle.

(** A cleaner without the port entry, asked to connect. *)
Lemma connect_missing_entry_witness :
  let s := mkState (init Sim.Handle Cases.config_without_port) Sim.inventory in
  let r := connect_qbittorrent (api := Sim.api Sim.healthy) s in
  res r = inr false /\
  state r = s /\
  (forall req failure, ~ In (Call req failure) (events r)) /\
  errors (events r) =
    (if credentials_present (qb_config (self s))
     then [MsgConnectFailed (KeyError (lit "port"))]
     else [MsgConfigMissing]).
Proof.
  apply (connect_missing_entry (api := Sim.api Sim.healthy)
           (mkState (init Sim.Handle Cases.config_without_port) Sim.inventory)).
  right; reflexivity.
Defined.

(** The service cannot be reached at the first attempt: the attempt reports
    failure, and the next pass goes to the listing all the same. *)
Lemma handle_set_once_client_built_witness :
  let s := mkState (init Sim.Handle (Sim.config [] [])) Sim.inventory in
  let r := connect_qbittorrent (api := Sim.api Sim.unreachable) s in
  let next := cleanup_torrents (api := Sim.api Sim.unreachable) (state r) in
  qb (self (state r)) = Some Sim.handle /\
  next = checked_pass (api := Sim.api Sim.unreachable) (state r) /\
  exists failure, listing_calls (events next) = [failure].
Proof.
  apply (handle_set_once_client_built (api := Sim.api Sim.unreachable)
           (mkState (init Sim.Handle (Sim.config [] [])) Sim.inventory)
           (lit "http://localhost") (lit "8080") (lit "admin") (lit "adminadmin")
           Sim.handle Sim.inventory); reflexivity.
Defined.

(** Three passes against a service whose listing is down. *)
Lemma passes_keep_handle_and_policy_witness :
  let s := mkState (Sim.connected (Sim.config [] [])) Sim.inventory in
  let r := passes (api := Sim.api Sim.listing_down) 3 s in
  res r = inr tt /\
  qb (self (state r)) = Some Sim.handle /\
  same_policy (self (state r)) (self s) /\
  connection_calls (events r) = [] /\
  List.length (listing_calls (events r)) = 3.
Proof.
  apply (passes_keep_handle_and_policy (api := Sim.api Sim.listing_down) 3
           (mkState (Sim.connected (Sim.config [] [])) Sim.inventory) Sim.handle).
  reflexivity.
Defined.

(* ================================================================= *)
(** ** The start of [main] *)

Section MainStart.
Context {W Client : Type} {api : ClientAPI W Client}.
Variable py_float : str -> exn + float.
Variable py_int : str -> exn + Z.
Variable lower : str -> str.
Variable IntervalTrigger : Z -> exn + unit.

Implicit Types (s : State W Client) (c : Client).

(** A connection attempt registers no job. *)
Lemma connect_no_jobs s : jobs (events (connect_qbittorrent s)) = [].
Proof.
  unfold connect_qbittorrent; run.
  repeat next_case; reflexivity.
Qed.

Lemma checked_pass_no_jobs s c :
  qb (self s) = Some c -> jobs (events (checked_pass s)) = [].
Proof.
  intros Hc.
  destruct (torrents_info c (lit "completed") (world s)) as [[e | ts] w1] eqn:L.
  - rewrite (checked_pass_listing_failed s c e w1 Hc L); reflexivity.
  - rewrite (checked_pass_listed s c ts w1 Hc L); cbn [events].
    destruct (cleanup_loop_requests c ts 0 (mkState (self s) w1) Hc) as (_ & _ & Q3).
    unfold jobs in *; rewrite !pick_app, Q3.
    destruct (res (cleanup_loop ts 0 (mkState (self s) w1))); reflexivity.
Qed.

Lemma passes_no_jobs n : forall s c,
  qb (self s) = Some c -> jobs (events (passes n s)) = [].
Proof.
  induction n as [|n IH]; intros s c Hc; [reflexivity |].
  rewrite passes_S.
  pose proof (cleanup_keeps_handle s c Hc) as K.
  pose proof (IH (state (cleanup_torrents s)) c K) as I.
  assert (J : jobs (events (cleanup_torrents s)) = []).
  { rewrite cleanup_torrents_unfold, Hc; apply (checked_pass_no_jobs s c Hc). }
  destruct (passes n (state (cleanup_torrents s))) as [v st evs]; cbn [events] in *.
  unfold jobs in *; rewrite pick_app, J, I; reflexivity.
Qed.

(** [main_loop] when the connection test fails. *)
Lemma main_loop_failed_start scheduler_config pending s :
  res (connect_qbittorrent s) = inr false ->
  main_loop IntervalTrigger scheduler_config pending s =
    mkResult (inr NotStarted) (state (connect_qbittorrent s))
             (events (connect_qbittorrent s) ++ [Log ERROR MsgInitialConnectFailed]).
Proof.
  intros Hf; unfold main_loop, bind at 1.
  destruct (connect_qbittorrent s) as [v st evs]; cbn [res state events] in *; subst v.
  reflexivity.
Qed.

(** X6. A failed start.  When the connection test at the start of [main]
    reports failure, [main] logs it and returns: no job is registered with
    the scheduler, no pass runs, nothing is listed or deleted, and whatever
    would have reached the scheduler is never looked at. *)
Theorem main_returns_on_failed_start environ pending w config :
  load_config py_float py_int lower environ = inr config ->
  let s0 := mkState (init Client (qbittorrent config)) w in
  res (connect_qbittorrent s0) = inr false ->
  let rc := connect_qbittorrent s0 in
  let m := main py_float py_int lower IntervalTrigger environ pending w in
  exit m = inr NotStarted /\
  world_after m = world (state rc) /\
  trace m = Log INFO MsgServiceStarting
            :: events rc ++ [Log ERROR MsgInitialConnectFailed] /\
  jobs (trace m) = [] /\
  listing_calls (trace m) = [] /\
  delete_calls (trace m) = [].
Proof.
  intros Hload s0 Hf rc m; subst rc m.
  unfold main; rewrite Hload; fold s0.
  rewrite (main_loop_failed_start (scheduler config) pending s0 Hf).
  cbn [exit world_after trace res state events].
  destruct (connect_no_pass_requests s0) as [N1 N2].
  pose proof (connect_no_jobs s0) as N3.
  change (Log INFO MsgServiceStarting :: ?l) with ([Log INFO MsgServiceStarting] ++ l).
  unfold jobs, listing_calls, delete_calls in *.
  rewrite !pick_app, N1, N2, N3.
  repeat split; reflexivity.
Qed.

(** X7. A number that does not parse.  [load_config] raises exactly when
    [float] refuses the ratio limit or the seeding-time limit, or [int] the
    check interval, each read from the environment or from its default, and
    it raises the exception of the first that fails.  [main] then raises it
    too, having only logged its start: it connects to nothing and schedules
    nothing. *)
Theorem main_raises_on_bad_number environ pending w e :
  (load_config py_float py_int lower environ = inl e <->
   py_float (getenv environ (lit "RATIO_LIMIT") (lit "2.0")) = inl e \/
   (exists r,
      py_float (getenv environ (lit "RATIO_LIMIT") (lit "2.0")) = inr r /\
      py_float (getenv environ (lit "SEEDING_TIME_LIMIT") (lit "120")) = inl e) \/
   (exists r t,
      py_float (getenv environ (lit "RATIO_LIMIT") (lit "2.0")) = inr r /\
      py_float (getenv environ (lit "SEEDING_TIME_LIMIT") (lit "120")) = inr t /\
      py_int (getenv environ (lit "CHECK_INTERVAL") (lit "60")) = inl e)) /\
  (load_config py_float py_int lower environ = inl e ->
   main (api := api) py_float py_int lower IntervalTrigger environ pending w
     = mkMain (inl e) w [Log INFO MsgServiceStarting]).
Proof.
  split.
  - unfold load_config.
    destruct (py_float (getenv environ (lit "RATIO_LIMIT") (lit "2.0")))
      as [e1 | r].
    { split; [intros [= ->]; left; reflexivity |].
      intros [[= ->] | [(r & [=] & _) | (r & t & [=] & _)]]; reflexivity. }
    destruct (py_float (getenv environ (lit "SEEDING_TIME_LIMIT") (lit "120")))
      as [e2 | t].
    { split; [intros [= ->]; right; left; exists r; split; reflexivity |].
      intros [[=] | [(r' & _ & [= ->]) | (r' & t & _ & [=] & _)]]; reflexivity. }
    destruct (py_int (getenv environ (lit "CHECK_INTERVAL") (lit "60")))
      as [e3 | i].
    { split; [intros [= ->]; right; right; exists r, t; repeat split; reflexivity |].
      intros [[=] | [(r' & _ & [=]) | (r' & t' & _ & _ & [= ->])]]; reflexivity. }
    split; [discriminate |].
    intros [[=] | [(r' & _ & [=]) | (r' & t' & _ & _ & [=])]].
  - intros H; unfold main; rewrite H; reflexivity.
Qed.

(** X8. One client, one job, one listing per pass.  When [main] gets past
    its connection test and the interval trigger is built from the configured
    interval, the only requests that build a client or log in are those of
    that test, the cleanup job is registered with the scheduler exactly once,
    with the configured interval, and the number of listing requests is the
    number of passes: one, plus one for each fire. *)
Theorem main_connects_once environ pending w config :
  load_config py_float py_int lower environ = inr config ->
  let s0 := mkState (init Client (qbittorrent config)) w in
  res (connect_qbittorrent s0) = inr true ->
  IntervalTrigger (interval_minutes (scheduler config)) = inr tt ->
  let rc := connect_qbittorrent s0 in
  let m := main py_float py_int lower IntervalTrigger environ pending w in
  connection_calls (trace m) = connection_calls (events rc) /\
  jobs (trace m) = [interval_minutes (scheduler config)] /\
  List.length (listing_calls (trace m)) = 1 + fires pending.
Proof.
  intros Hload s0 Hc Ht rc m; subst rc m.
  unfold main; rewrite Hload; cbn [trace]; fold s0.
  rewrite (main_loop_connected IntervalTrigger (scheduler config) pending s0 Hc Ht).
  cbn [events].
  destruct (connect_true_handle s0 Hc) as [c Hq].
  destruct (connect_no_pass_requests s0) as [N1 _].
  pose proof (connect_no_jobs s0) as N3.
  set (s1 := state (connect_qbittorrent s0)) in *.
  pose proof (cleanup_keeps_handle s1 c Hq) as K.
  assert (F : connection_calls (events (cleanup_torrents s1)) = [] /\
              List.length (listing_calls (events (cleanup_torrents s1))) = 1).
  { rewrite cleanup_torrents_unfold, Hq; apply (checked_pass_no_connection s1 c Hq). }
  destruct F as [F1 F2].
  assert (FJ : jobs (events (cleanup_torrents s1)) = []).
  { rewrite cleanup_torrents_unfold, Hq; apply (checked_pass_no_jobs s1 c Hq). }
  destruct (passes_on_handle (fires pending)
              (state (cleanup_torrents s1)) c K) as (_ & _ & _ & P4 & P5).
  pose proof (passes_no_jobs (fires pending) (state (cleanup_torrents s1)) c K) as PJ.
  assert (C : connection_calls (closing (stop_cause pending)) = [] /\
              jobs (closing (stop_cause pending)) = [] /\
              listing_calls (closing (stop_cause pending)) = []).
  { destruct (stop_cause pending) as [[| |e]|]; repeat split; reflexivity. }
  destruct C as (C1 & C2 & C3).
  change (Log INFO MsgServiceStarting :: ?l) with ([Log INFO MsgServiceStarting] ++ l).
  unfold connection_calls, jobs, listing_calls in *.
  rewrite !pick_app, F1, FJ, P4, PJ, C1, C2, C3, N1, N3.
  cbn [pick flat_map app]; rewrite !app_nil_r.
  repeat split; try reflexivity.
  rewrite !length_app, F2, P5; cbn; lia.
Qed.

End MainStart.

(** The login request cannot reach the service: [main] returns before it
    registers the job, whatever is pending. *)
Lemma main_returns_on_failed_start_witness :
  exit (main (api := Sim.api Sim.unreachable) Sim.py_float Sim.py_int Sim.lower Sim.IntervalTrigger
             (Sim.environ "" "") [Fire; Interrupt] Sim.inventory)
    = inr NotStarted.
Proof.
  apply (main_returns_on_failed_start (api := Sim.api Sim.unreachable)
           Sim.py_float Sim.py_int Sim.lower Sim.IntervalTrigger
           (Sim.environ "" "") [Fire; Interrupt] Sim.inventory (Sim.loaded [] []));
    vm_compute; reflexivity.
Defined.

(** Two fires, then the stop signal: three listings, one job of 60 minutes. *)
Lemma main_connects_once_witness :
  jobs (trace (main (api := Sim.api Sim.healthy) Sim.py_float Sim.py_int Sim.lower Sim.IntervalTrigger
                    (Sim.environ "" "") [Fire; Fire; Interrupt] Sim.inventory))
    = [60%Z].
Proof.
  apply (main_connects_once (api := Sim.api Sim.healthy)
           Sim.py_float Sim.py_int Sim.lower Sim.IntervalTrigger
           (Sim.environ "" "") [Fire; Fire; Interrupt] Sim.inventory (Sim.loaded [] []));
    vm_compute; reflexivity.
Defined.

(* ================================================================= *)
(** ** The category lists of the environment *)

(** *** Stripping *)

Lemma lstrip_starts_clean (s : str) : starts_clean (lstrip s).
Proof.
  induction s as [|c s IH]; simpl; [exact I |].
  destruct (isspace c) eqn:E; [exact IH | exact E].
Qed.

Lemma lstrip_clean (s : str) : starts_clean s -> lstrip s = s.
Proof. destruct s as [|c s]; simpl; [reflexivity | intros ->; reflexivity]. Qed.

Lemma lstrip_suffix (s : str) : exists p, s = p ++ lstrip s.
Proof.
  induction s as [|c s [p IH]]; simpl; [exists []; reflexivity |].
  destruct (isspace c).
  - exists (c :: p); simpl; f_equal; exact IH.
  - exists []; reflexivity.
Qed.

Lemma rstrip_prefix (s : str) : exists q, s = rstrip s ++ q.
Proof.
  unfold rstrip; destruct (lstrip_suffix (rev s)) as [p E].
  exists (rev p).
  apply (f_equal (@rev N)) in E.
  rewrite rev_involutive, rev_app_distr in E; exact E.
Qed.

Lemma rstrip_starts_clean (s : str) : starts_clean s -> starts_clean (rstrip s).
Proof.
  intros H; destruct (rstrip_prefix s) as [q E].
  destruct (rstrip s) as [|c r]; [exact I |].
  rewrite E in H; exact H.
Qed.

(** [strip] changes nothing on what it returns. *)
Lemma strip_idempotent (s : str) : strip (strip s) = strip s.
Proof.
  assert (A : starts_clean (strip s)).
  { unfold strip; apply rstrip_starts_clean, lstrip_starts_clean. }
  assert (B : starts_clean (rev (strip s))).
  { unfold strip, rstrip; rewrite rev_involutive; apply lstrip_starts_clean. }
  unfold strip at 1; rewrite (lstrip_clean _ A).
  unfold rstrip; rewrite (lstrip_clean _ B); apply rev_involutive.
Qed.

Lemma In_lstrip (c : N) (s : str) : In c (lstrip s) -> In c s.
Proof.
  destruct (lstrip_suffix s) as [p E]; intros H.
  rewrite E; apply in_or_app; right; exact H.
Qed.

Lemma In_strip (c : N) (s : str) : In c (strip s) -> In c s.
Proof.
  unfold strip, rstrip; intros H.
  apply In_lstrip, in_rev, In_lstrip, in_rev; exact H.
Qed.

(** *** Splitting and joining *)

Lemma split_pieces (sep : N) (s : str) :
  forall x, In x (split sep s) -> ~ In sep x.
Proof.
  induction s as [|c s IH]; simpl; intros x H.
  - destruct H as [<- | []]; intros [].
  - destruct (N.eqb c sep) eqn:E.
    + destruct H as [<- | H]; [intros [] | apply IH; exact H].
    + apply N.eqb_neq in E.
      destruct (split sep s) as [|h t] eqn:S.
      * destruct H as [<- | []]; intros [K | []]; congruence.
      * destruct H as [<- | H].
        -- intros [K | K]; [congruence | apply (IH h (or_introl eq_refl) K)].
        -- apply IH; right; exact H.
Qed.

Lemma split_whole (sep : N) (x : str) : ~ In sep x -> split sep x = [x].
Proof.
  induction x as [|c x IH]; simpl; intros H; [reflexivity |].
  destruct (N.eqb c sep) eqn:E.
  - apply N.eqb_eq in E; exfalso; apply H; left; exact E.
  - rewrite IH; [reflexivity | intros K; apply H; right; exact K].
Qed.

Lemma split_first (sep : N) (x rest : str) :
  ~ In sep x -> split sep (x ++ sep :: rest) = x :: split sep rest.
Proof.
  induction x as [|c x IH]; simpl; intros H.
  - rewrite N.eqb_refl; reflexivity.
  - destruct (N.eqb c sep) eqn:E.
    + apply N.eqb_eq in E; exfalso; apply H; left; exact E.
    + rewrite IH; [reflexivity | intros K; apply H; right; exact K].
Qed.

(** Splitting what was joined gives the pieces back, when none of them
    holds the separator. *)
Lemma split_join (sep : N) (l : list str) :
  l <> [] -> Forall (fun x => ~ In sep x) l -> split sep (join sep l) = l.
Proof.
  induction l as [|x l IH]; intros Hne Hall; [congruence |].
  inversion Hall as [|? ? Hx Hl]; subst.
  destruct l as [|y l].
  - simpl; apply split_whole; exact Hx.
  - change (join sep (x :: y :: l)) with (x ++ sep :: join sep (y :: l)).
    rewrite (split_first sep x _ Hx), IH; [reflexivity | discriminate | exact Hl].
Qed.

(** *** What [load_config] reads *)

Lemma parsed_tags_In (value x : str) :
  In x (parsed_tags value) <->
  x <> [] /\ exists piece, In piece (split comma value) /\ strip piece = x.
Proof.
  unfold parsed_tags; rewrite in_map_iff; split.
  - intros (piece & <- & I); apply filter_In in I; destruct I as [I T].
    split; [intros E; rewrite E in T; discriminate | exists piece; auto].
  - intros (Hne & piece & I & <-); exists piece; split; [reflexivity |].
    apply filter_In; split; [exact I |].
    destruct (strip piece); [congruence | reflexivity].
Qed.

Lemma parsed_tags_plain (value : str) : Forall plain_tag (parsed_tags value).
Proof.
  apply Forall_forall; intros x H.
  apply parsed_tags_In in H; destruct H as (Hne & piece & I & <-).
  split; [exact Hne |]; split.
  - intros K; apply In_strip in K; exact (split_pieces comma value piece I K).
  - apply strip_idempotent.
Qed.

(** X9. Every category [load_config] reads is plain.  Whatever the value of
    the variable, each entry of the list read from it is non-empty, holds no
    comma and has no white space at either end; and an entry is in the list
    exactly when it is the stripped form, not empty, of one of the pieces
    between the commas. *)
Theorem parsed_tags_are_plain (value x : str) :
  (In x (parsed_tags value) -> plain_tag x) /\
  (In x (parsed_tags value) <->
   x <> [] /\ exists piece, In piece (split comma value) /\ strip piece = x).
Proof.
  split; [| apply parsed_tags_In].
  intros H; exact (proj1 (Forall_forall _ _) (parsed_tags_plain value) x H).
Qed.

(** X10. Plain categories come back as written.  A list of plain categories,
    written with commas between them, is read back as that very list, in the
    same order; the empty list is written as the empty string. *)
Theorem plain_tags_round_trip (l : list str) :
  Forall plain_tag l -> parsed_tags (join comma l) = l.
Proof.
  intros H.
  assert (K : forall l0 : list str, Forall plain_tag l0 ->
                map strip (filter (fun cat => truthy (strip cat)) l0) = l0).
  { induction l0 as [|x l0 IH]; intros H0; [reflexivity |].
    inversion H0 as [|? ? (Hne & _ & Hs) Hl]; subst.
    cbn [filter]; rewrite Hs.
    destruct x as [|c x]; [congruence |].
    cbn [truthy map]; rewrite Hs, IH; [reflexivity | exact Hl]. }
  destruct l as [|x l]; [reflexivity |].
  unfold parsed_tags; rewrite split_join.
  - apply K; exact H.
  - discriminate.
  - eapply Forall_impl; [| exact H]; intros a (_ & Hc & _); exact Hc.
Qed.

Lemma parsed_tags_are_plain_witness :
  plain_tag (lit "tv").
Proof.
  apply (proj1 (parsed_tags_are_plain (lit " movies , tv ,, ") (lit "tv"))).
  vm_compute; right; left; reflexivity.
Defined.

Lemma plain_tags_round_trip_witness :
  parsed_tags (join comma [lit "movies"; lit "tv shows"; lit "iso"])
    = [lit "movies"; lit "tv shows"; lit "iso"].
Proof.
  apply (plain_tags_round_trip [lit "movies"; lit "tv shows"; lit "iso"]).
  repeat (apply Forall_cons;
          [split; [discriminate |];
           split; [vm_compute; intuition discriminate | reflexivity] |]).
  apply Forall_nil.
Defined.

(* ================================================================= *)
(** ** The thresholds at their edges *)

Lemma SFcompare_refl (p : spec_float) :
  p <> S754_nan -> SFcompare p p = Some Eq.
Proof.
  destruct p as [z | i | | sg m e]; intros H; simpl.
  - reflexivity.
  - destruct i; reflexivity.
  - congruence.
  - rewrite Z.compare_refl, Pos.compare_cont_refl; destruct sg; reflexivity.
Qed.

Lemma SFcompare_nan_r (p : spec_float) : SFcompare p S754_nan = None.
Proof. destruct p; reflexivity. Qed.

Lemma float_is_nan_iff (f : float) :
  PrimFloat.is_nan f = true <-> Prim2SF f = S754_nan.
Proof.
  unfold PrimFloat.is_nan; rewrite eqb_spec; unfold SFeqb; split.
  - intros H; destruct (Prim2SF f) as [z | i | | sg m e] eqn:E; [| | reflexivity |];
      rewrite SFcompare_refl in H by discriminate; discriminate.
  - intros ->; reflexivity.
Qed.

(** Every value but what is not a number is at least itself. *)
Lemma at_least_refl (a : Exact) : a <> NotANumber -> at_least a a = true.
Proof.
  destruct a as [| | | n]; intros H; try reflexivity; [congruence |].
  apply Z.leb_refl.
Qed.

(** No comparison with a NaN holds. *)
Lemma ge_nan (x y : num) : is_nan x = true \/ is_nan y = true -> ge x y = false.
Proof.
  destruct x as [a | a], y as [b | b]; simpl;
    intros [H | H]; try discriminate; apply float_is_nan_iff in H.
  - unfold Z_compare_float; rewrite H; reflexivity.
  - unfold Z_compare_float; rewrite H; reflexivity.
  - rewrite leb_spec; unfold SFleb; rewrite H, SFcompare_nan_r; reflexivity.
  - rewrite leb_spec; unfold SFleb; rewrite H; reflexivity.
Qed.

Section Edges.
Context {W Client : Type} {api : ClientAPI W Client}.

Implicit Types (s : State W Client) (torrent : Torrent).

(** X11. The limits are inclusive.  A record past both category gates whose
    ratio has exactly the value of the ratio limit, or whose seeding time in
    minutes has exactly the value of the seeding-time limit, is deleted, and
    the decision is logged: reaching a limit is enough, it need not be
    exceeded.  The values are compared, not their representations: the
    [int] 2 has the value of the [float] 2.0.  The ratio must be one the log
    record can format. *)
Theorem limit_reached_is_enough s torrent minutes :
  ~ In (category torrent) (exclude_tags (self s)) ->
  include_tags (self s) = [] \/ In (category torrent) (include_tags (self s)) ->
  truediv (seeding_time torrent) (PyInt 60) = inr minutes ->
  loggable torrent ->
  (exact (ratio torrent) = exact (ratio_limit (self s)) /\
   exact (ratio torrent) <> NotANumber) \/
  (exact minutes = exact (seeding_time_limit (self s)) /\
   exact minutes <> NotANumber) ->
  should_delete_torrent torrent s =
    mkResult (inr true) s
      [Log INFO (MsgMeetsCondition (name torrent) (ratio torrent) minutes)].
Proof.
  intros Hex Hin Hdiv Hlog Hedge.
  rewrite (should_delete_loggable s torrent minutes Hex Hin Hdiv Hlog).
  assert (V : ge (ratio torrent) (ratio_limit (self s))
              || ge minutes (seeding_time_limit (self s)) = true).
  { apply orb_true_iff.
    destruct Hedge as [[E N] | [E N]]; [left | right];
      rewrite ge_exact, <- E; apply at_least_refl; exact N. }
  cbv zeta; rewrite V; reflexivity.
Qed.

(** X21. The decision past the category gates, in full.  For a record that
    passes both gates and whose seeding time can be divided by 60, the
    deletion condition is met when the value of its ratio is at least the
    value of the ratio limit, or the value of its seeding time in minutes,
    the quotient Python computes, is at least the value of the seeding-time
    limit; either alone suffices.  The decision returns True exactly when
    the condition is met and the ratio can be formatted for the log, False
    exactly when the condition is not met, and it raises exactly when the
    condition is met and the formatting of the ratio raises.  It never
    changes the state. *)
Theorem threshold_decision s torrent minutes :
  ~ In (category torrent) (exclude_tags (self s)) ->
  include_tags (self s) = [] \/ In (category torrent) (include_tags (self s)) ->
  truediv (seeding_time torrent) (PyInt 60) = inr minutes ->
  let r := should_delete_torrent torrent s in
  let met := reaches (ratio torrent) (ratio_limit (self s)) \/
             reaches minutes (seeding_time_limit (self s)) in
  (res r = inr true <-> met /\ loggable torrent) /\
  (res r = inr false <-> ~ met) /\
  (forall e, res r = inl e <-> met /\ format_f (ratio torrent) = inl e) /\
  state r = s.
Proof.
  intros Hex Hin Hdiv r met; subst r.
  rewrite (should_delete_thresholds s torrent minutes Hex Hin Hdiv).
  assert (M : met <-> ge (ratio torrent) (ratio_limit (self s))
                      || ge minutes (seeding_time_limit (self s)) = true).
  { subst met; rewrite <- !ge_reaches, orb_true_iff; tauto. }
  clearbody met; unfold loggable.
  destruct (ge (ratio torrent) (ratio_limit (self s))
            || ge minutes (seeding_time_limit (self s))).
  - assert (Hm : met) by (apply M; reflexivity).
    destruct (format_f (ratio torrent)) as [e | []]; cbn [res state].
    + split; [split; [discriminate | intros [_ [=]]] |].
      split; [split; [discriminate | intros N; contradiction] |].
      split; [| reflexivity].
      intros e'; split; [intros [= ->]; auto | intros [_ [= ->]]; reflexivity].
    + split; [split; auto |].
      split; [split; [discriminate | intros N; contradiction] |].
      split; [| reflexivity].
      intros e'; split; [discriminate | intros [_ [=]]].
  - assert (Hm : ~ met) by (intros K; apply M in K; discriminate).
    cbn [res state].
    split; [split; [discriminate | intros [K _]; contradiction] |].
    split; [split; auto |].
    split; [| reflexivity].
    intros e'; split; [discriminate | intros [K _]; contradiction].
Qed.

(** X12. Limits that are not numbers.  [float] accepts the text [nan]; when
    both limits are NaN no record ever qualifies: the decision is never
    True and logs nothing, whatever the record and the category lists. *)
Theorem nan_limits_keep_everything s torrent :
  is_nan (ratio_limit (self s)) = true ->
  is_nan (seeding_time_limit (self s)) = true ->
  qualifies s torrent = false /\
  events (should_delete_torrent torrent s) = [] /\
  state (should_delete_torrent torrent s) = s.
Proof.
  intros Hr Ht; unfold qualifies, should_delete_torrent; run.
  destruct (str_in _ (exclude_tags (self s))); [repeat split |].
  destruct (truthy (include_tags (self s)) && _); [repeat split |].
  destruct (truediv (seeding_time torrent) (PyInt 60)) as [e | minutes];
    [repeat split |].
  run.
  rewrite (ge_nan (ratio torrent) _ (or_intror Hr)).
  rewrite (ge_nan minutes _ (or_intror Ht)).
  repeat split.
Qed.

End Edges.

(** A ratio that is the [int] 2 under the default limit, the [float] 2.0. *)
Lemma limit_reached_is_enough_witness :
  res (should_delete_torrent (Sim.torrent "e" "" (PyInt 2) 60)
         (mkState (Sim.connected (Sim.config [] [])) Sim.inventory))
    = inr true.
Proof.
  rewrite (limit_reached_is_enough
             (mkState (Sim.connected (Sim.config [] [])) Sim.inventory)
             (Sim.torrent "e" "" (PyInt 2) 60) (PyFloat 1)).
  - reflexivity.
  - simpl; tauto.
  - left; reflexivity.
  - vm_compute; reflexivity.
  - reflexivity.
  - left; split; [vm_compute; reflexivity | discriminate].
Defined.

(** Seeded for 150 minutes at ratio 0.5 under the default limits of 2.0 and
    120 minutes: the seeding-time limit alone condemns the record. *)
Lemma threshold_decision_witness :
  res (should_delete_torrent Sim.over_time
         (mkState (Sim.connected (Sim.config [] [])) Sim.inventory))
    = inr true.
Proof.
  apply (proj1 (threshold_decision
                  (mkState (Sim.connected (Sim.config [] [])) Sim.inventory)
                  Sim.over_time (PyFloat 150%float)
                  ltac:(simpl; tauto) ltac:(left; reflexivity)
                  ltac:(vm_compute; reflexivity))).
  split; [right; vm_compute; reflexivity | reflexivity].
Defined.

(** Seeded for 50 minutes at ratio 0.5: neither limit is reached, the record
    stays. *)
Example threshold_decision_spares :
  res (should_delete_torrent Sim.under_both
         (mkState (Sim.connected (Sim.config [] [])) Sim.inventory))
    = inr false.
Proof. vm_compute; reflexivity. Qed.

(** Both limits NaN: the torrent far over any ratio stays. *)
Lemma nan_limits_keep_everything_witness :
  qualifies (mkState (Sim.connected Cases.nan_config) Sim.inventory) Sim.movie = false.
Proof.
  apply (nan_limits_keep_everything
           (mkState (Sim.connected Cases.nan_config) Sim.inventory) Sim.movie);
    vm_compute; reflexivity.
Defined.

(* ================================================================= *)
(** ** The cleaner [main] builds *)

Section LoadedCleaner.
Context {W Client : Type} {api : ClientAPI W Client}.
Variable py_float : str -> exn + float.
Variable py_int : str -> exn + Z.
Variable lower : str -> str.

(** X13. The policy of the cleaner comes from the environment.  When
    [load_config] returns, the cleaner [__init__] builds from it takes both
    limits, as floats, from [float] of the variable or of its default text,
    and both category lists from the variables: the defaults written in
    [__init__] itself are never used.  The lists hold plain categories only,
    data files are deleted exactly when [DELETE_FILES] is [true] in any
    letter case, and the cleaner starts without a client handle. *)
Theorem loaded_policy_from_environment environ config :
  load_config py_float py_int lower environ = inr config ->
  let o := init Client (qbittorrent config) in
  (exists r t,
     py_float (getenv environ (lit "RATIO_LIMIT") (lit "2.0")) = inr r /\
     py_float (getenv environ (lit "SEEDING_TIME_LIMIT") (lit "120")) = inr t /\
     ratio_limit o = PyFloat r /\ seeding_time_limit o = PyFloat t) /\
  exclude_tags o = parsed_tags (getenv environ (lit "EXCLUDE_TAGS") (lit "")) /\
  include_tags o = parsed_tags (getenv environ (lit "INCLUDE_TAGS") (lit "")) /\
  Forall plain_tag (exclude_tags o) /\
  Forall plain_tag (include_tags o) /\
  (forall w : W,
     purge (mkState o w)
     = str_eqb (lower (getenv environ (lit "DELETE_FILES") (lit "false"))) (lit "true")) /\
  py_int (getenv environ (lit "CHECK_INTERVAL") (lit "60"))
    = inr (interval_minutes (scheduler config)) /\
  qb o = None.
Proof.
  intros H o; subst o; unfold load_config in H.
  destruct (py_float (getenv environ (lit "RATIO_LIMIT") (lit "2.0"))) as [e | r];
    [discriminate |].
  destruct (py_float (getenv environ (lit "SEEDING_TIME_LIMIT") (lit "120"))) as [e | t];
    [discriminate |].
  destruct (py_int (getenv environ (lit "CHECK_INTERVAL") (lit "60"))) as [e | i];
    [discriminate |].
  injection H as <-.
  split; [exists r, t; repeat split; reflexivity |].
  split; [reflexivity |].
  split; [reflexivity |].
  split; [apply parsed_tags_plain |].
  split; [apply parsed_tags_plain |].
  repeat split; reflexivity.
Qed.

(** X14. A loaded configuration always gets as far as the client.
    [load_config] fills in the address, the port, the user name and the
    password, from the environment or from their defaults; so the connection
    attempt of the cleaner built from it never ends on a missing entry: it
    logs that it is connecting and builds the client from those four values,
    and whatever else it logs, it is not that the configuration is
    incomplete. *)
Theorem loaded_config_reaches_client environ config w :
  load_config py_float py_int lower environ = inr config ->
  let url := getenv environ (lit "QB_URL") (lit "http://localhost") in
  let port := getenv environ (lit "QB_PORT") (lit "8080") in
  let username := getenv environ (lit "QB_USERNAME") (lit "admin") in
  let password := getenv environ (lit "QB_PASSWORD") (lit "adminadmin") in
  let rc := connect_qbittorrent (mkState (init Client (qbittorrent config)) w) in
  (exists failure rest,
     events rc = Log INFO (MsgConnecting url port username)
                 :: Call (ReqClient url port username password) failure :: rest) /\
  ~ In MsgConfigMissing (errors (events rc)).
Proof.
  intros H url port username password rc; subst rc; unfold load_config in H.
  destruct (py_float (getenv environ (lit "RATIO_LIMIT") (lit "2.0"))) as [e | r];
    [discriminate |].
  destruct (py_float (getenv environ (lit "SEEDING_TIME_LIMIT") (lit "120"))) as [e | t];
    [discriminate |].
  destruct (py_int (getenv environ (lit "CHECK_INTERVAL") (lit "60"))) as [e | i];
    [discriminate |].
  injection H as <-.
  unfold connect_qbittorrent; run.
  fold url port username password.
  repeat next_case;
    (split; [eexists; eexists; reflexivity | simpl; intuition discriminate]).
Qed.

End LoadedCleaner.

(** The exclude list is read from a value with stray blanks and commas. *)
Lemma loaded_policy_from_environment_witness :
  Forall plain_tag
    (exclude_tags (init Sim.Handle (qbittorrent (Sim.loaded ["movies"%string; "tv"%string] [])))).
Proof.
  apply (loaded_policy_from_environment (W := Sim.Inventory) (Client := Sim.Handle)
           Sim.py_float Sim.py_int Sim.lower
           (Sim.environ " movies ,, tv ," "") (Sim.loaded ["movies"%string; "tv"%string] [])).
  vm_compute; reflexivity.
Defined.

(** With an empty environment and a service that refuses the connection, the
    client is still built, from the defaults. *)
Lemma loaded_config_reaches_client_witness :
  exists failure rest,
    events (connect_qbittorrent (api := Sim.api Sim.unreachable)
              (mkState (init Sim.Handle (qbittorrent (Sim.loaded [] [])))
                       Sim.inventory))
    = Log INFO (MsgConnecting (lit "http://localhost") (lit "8080") (lit "admin"))
      :: Call (ReqClient (lit "http://localhost") (lit "8080")
                         (lit "admin") (lit "adminadmin")) failure
      :: rest.
Proof.
  apply (loaded_config_reaches_client (api := Sim.api Sim.unreachable)
           Sim.py_float Sim.py_int Sim.lower
           (Sim.environ "" "") (Sim.loaded [] []) Sim.inventory).
  vm_compute; reflexivity.
Defined.

(* ================================================================= *)
(** ** Passes against an obedient service *)

Lemma survivors_nil (ts : list Torrent) : survivors [] ts = ts.
Proof.
  unfold survivors; induction ts as [|t ts IH]; [reflexivity |].
  cbn [filter str_in existsb negb]; f_equal; exact IH.
Qed.

Lemma survivors_cons (h : str) (hashes : list str) (ts : list Torrent) :
  survivors hashes (survivors [h] ts) = survivors (h :: hashes) ts.
Proof.
  unfold survivors; induction ts as [|t ts IH]; [reflexivity |].
  cbn [filter].
  change (str_in (hash t) [h]) with (str_eqb (hash t) h || false).
  change (str_in (hash t) (h :: hashes))
    with (str_eqb (hash t) h || str_in (hash t) hashes).
  rewrite orb_false_r.
  destruct (str_eqb (hash t) h); cbn [negb orb filter]; [exact IH |].
  rewrite IH; reflexivity.
Qed.

Lemma survivors_incl (hashes : list str) (ts : list Torrent) :
  incl (survivors hashes ts) ts.
Proof. intros t H; apply filter_In in H; tauto. Qed.

Section Obedient.
Context {W Client : Type} {api : ClientAPI W Client}.
Variable view : W -> list Torrent.
Hypothesis service : obedient view.

Implicit Types (s : State W Client) (torrent : Torrent) (c : Client).

(** The loop against an obedient service: every condemned record is
    deleted. *)
Lemma cleanup_loop_obedient c ts : forall n s,
  qb (self s) = Some c ->
  Forall (decided s) ts ->
  let r := cleanup_loop ts n s in
  let cands := filter (qualifies s) ts in
  view (world (state r)) = survivors (map hash cands) (view (world s)) /\
  res r = inr (n + List.length cands) /\
  errors (events r) = [] /\
  delete_calls (events r) = map (fun t => (hash t, None)) cands.
Proof.
  destruct service as [_ Hdel].
  induction ts as [|t rest IH]; intros n s Hc Hdec; cbv zeta.
  - simpl; rewrite survivors_nil, Nat.add_0_r; repeat split; reflexivity.
  - inversion Hdec as [|? ? [verdict Hv] Hrest]; subst.
    destruct verdict.
    + destruct (Hdel c (purge s) (hash t) (world s)) as (w' & D & V).
      rewrite (cleanup_loop_delete s c t rest n (inr tt) w' Hv Hc D).
      cbn [res state events failure_of].
      set (s1 := mkState (self s) w').
      assert (Ef : filter (qualifies s1) rest = filter (qualifies s) rest).
      { apply filter_ext; intros; apply qualifies_self; reflexivity. }
      assert (Hdec1 : Forall (decided s1) rest).
      { eapply Forall_impl; [| exact Hrest]; intros a; apply decided_self; reflexivity. }
      destruct (IH (S n) s1 Hc Hdec1) as (I1 & I2 & I3 & I4).
      rewrite Ef in *.
      assert (Q : qualifies s t = true) by (unfold qualifies; rewrite Hv; reflexivity).
      cbn [filter]; rewrite Q; cbn [map List.length].
      rewrite I1, I2; cbn [world s1]; rewrite V, survivors_cons.
      destruct (should_delete_events s t) as [(_ & m & _ & E) | (_ & E)];
        rewrite E, errors_app, delete_calls_app, errors_app, delete_calls_app, I3, I4;
        repeat split; try reflexivity; f_equal; lia.
    + rewrite (cleanup_loop_keep s t rest n Hv).
      assert (Q : qualifies s t = false) by (unfold qualifies; rewrite Hv; reflexivity).
      cbn [filter]; rewrite Q.
      apply IH; assumption.
Qed.

(** What is left once the condemned hashes are gone is spared by the
    policy. *)
Lemma survivors_spared s (ts : list Torrent) :
  Forall (fun t => qualifies s t = false)
         (survivors (map hash (filter (qualifies s) ts)) ts).
Proof.
  apply Forall_forall; intros t H.
  apply filter_In in H; destruct H as [I N].
  destruct (qualifies s t) eqn:Q; [| reflexivity].
  assert (M : In (hash t) (map hash (filter (qualifies s) ts))).
  { apply in_map, filter_In; split; assumption. }
  apply str_in_In in M; rewrite M in N; discriminate.
Qed.

Lemma filter_none {A : Type} (f : A -> bool) (l : list A) :
  Forall (fun a => f a = false) l -> filter f l = [].
Proof.
  induction 1 as [|a l Ha _ IH]; [reflexivity |].
  cbn [filter]; rewrite Ha; exact IH.
Qed.

(** A pass against an obedient service. *)
Lemma pass_obedient s c :
  qb (self s) = Some c ->
  Forall (decided s) (view (world s)) ->
  let r := cleanup_torrents s in
  let cands := filter (qualifies s) (view (world s)) in
  res r = inr tt /\
  self (state r) = self s /\
  view (world (state r)) = survivors (map hash cands) (view (world s)) /\
  delete_calls (events r) = map (fun t => (hash t, None)) cands /\
  errors (events r) = [] /\
  deleted (events r) = [List.length cands].
Proof.
  intros Hc Hdec r cands; subst r cands.
  pose proof (proj1 service c (lit "completed") (world s)) as Hl.
  rewrite cleanup_torrents_unfold, Hc.
  rewrite (checked_pass_listed s c (view (world s)) (world s) Hc Hl);
    cbn [res state events].
  assert (Es : mkState (self s) (world s) = s) by (destruct s; reflexivity).
  rewrite Es.
  destruct (cleanup_loop_obedient c (view (world s)) 0 s Hc Hdec) as (A1 & A2 & A3 & A4).
  destruct (cleanup_loop_frame c (view (world s)) 0 s Hc) as (F1 & _ & _ & F4).
  set (r' := cleanup_loop (view (world s)) 0 s) in *.
  rewrite A2.
  rewrite !delete_calls_app, !errors_app.
  unfold deleted in *; rewrite !pick_app, F4.
  fold (delete_calls (events r')); rewrite A1, A3, A4.
  repeat split; try assumption; try reflexivity.
  simpl; apply app_nil_r.
Qed.

(** X15. A pass against an obedient service removes what the policy
    condemns.  On a live handle, when the service lists its completed
    torrents and carries out every deletion, the pass leaves on the service
    exactly the torrents whose hash is not that of a condemned record; it
    reports no error and counts every condemned record as deleted.  A record
    the policy spares still goes when it shares its hash with a condemned
    one. *)
Theorem pass_removes_condemned s c :
  qb (self s) = Some c ->
  Forall (decided s) (view (world s)) ->
  let r := cleanup_torrents s in
  let cands := filter (qualifies s) (view (world s)) in
  view (world (state r)) = survivors (map hash cands) (view (world s)) /\
  Forall (fun t => qualifies s t = false) (view (world (state r))) /\
  errors (events r) = [] /\
  deleted (events r) = [List.length cands].
Proof.
  intros Hc Hdec r cands; subst r cands.
  destruct (pass_obedient s c Hc Hdec) as (_ & _ & P3 & _ & P5 & P6).
  repeat split; try assumption.
  rewrite P3; apply survivors_spared.
Qed.

(** X16. The second pass finds nothing to do.  Against an obedient service,
    the pass that follows a pass asks for no deletion, reports zero deleted
    and no error, and leaves the torrents of the service as they were: what
    the first pass left is exactly what the policy spares. *)
Theorem second_pass_deletes_nothing s c :
  qb (self s) = Some c ->
  Forall (decided s) (view (world s)) ->
  let s1 := state (cleanup_torrents s) in
  let r2 := cleanup_torrents s1 in
  res r2 = inr tt /\
  delete_calls (events r2) = [] /\
  errors (events r2) = [] /\
  deleted (events r2) = [0] /\
  view (world (state r2)) = view (world s1).
Proof.
  intros Hc Hdec s1 r2; subst r2.
  destruct (pass_obedient s c Hc Hdec) as (_ & P2 & P3 & _).
  fold s1 in P2, P3.
  assert (Hc1 : qb (self s1) = Some c) by (rewrite P2; exact Hc).
  assert (Hdec1 : Forall (decided s1) (view (world s1))).
  { rewrite P3; apply Forall_forall; intros t H.
    apply survivors_incl in H.
    apply (decided_self s s1 t (eq_sym P2)).
    exact (proj1 (Forall_forall _ _) Hdec t H). }
  assert (E : filter (qualifies s1) (view (world s1)) = []).
  { apply filter_none; rewrite P3.
    eapply Forall_impl; [| apply (survivors_spared s)].
    intros t Q; rewrite (qualifies_self s1 s t P2); exact Q. }
  destruct (pass_obedient s1 c Hc1 Hdec1) as (Q1 & _ & Q3 & Q4 & Q5 & Q6).
  rewrite E in *.
  repeat split; try assumption.
  rewrite Q3; apply survivors_nil.
Qed.

End Obedient.

(** The simulated service without faults is obedient. *)
Lemma healthy_obedient : obedient (api := Sim.api Sim.healthy) (fun w => w).
Proof.
  split; [reflexivity |].
  intros c df h w; exists (survivors [h] w); split; [| reflexivity].
  simpl; unfold survivors; apply f_equal, filter_ext; intros t.
  unfold str_in; simpl; rewrite orb_false_r; reflexivity.
Qed.

(** The three condemned torrents of the inventory go, the fourth stays. *)
Lemma pass_removes_condemned_witness :
  let s := mkState (Sim.connected (Sim.config [] [])) Sim.inventory in
  let r := cleanup_torrents (api := Sim.api Sim.healthy) s in
  let cands := filter (qualifies s) Sim.inventory in
  world (state r) = survivors (map hash cands) Sim.inventory /\
  Forall (fun t => qualifies s t = false) (world (state r)) /\
  errors (events r) = [] /\
  deleted (events r) = [List.length cands].
Proof.
  apply (pass_removes_condemned (api := Sim.api Sim.healthy) (fun w => w)
           healthy_obedient
           (mkState (Sim.connected (Sim.config [] [])) Sim.inventory) Sim.handle).
  - reflexivity.
  - repeat (apply Forall_cons; [eexists; vm_compute; reflexivity |]).
    apply Forall_nil.
Defined.

Example pass_removes_condemned_trace :
  let s := mkState (Sim.connected (Sim.config [] [])) Sim.inventory in
  let r := cleanup_torrents (api := Sim.api Sim.healthy) s in
  world (state r) = [Sim.under_both] /\ deleted (events r) = [3].
Proof. vm_compute; split; reflexivity. Qed.

Lemma second_pass_deletes_nothing_witness :
  let s := mkState (Sim.connected (Sim.config [] [])) Sim.inventory in
  let s1 := state (cleanup_torrents (api := Sim.api Sim.healthy) s) in
  let r2 := cleanup_torrents (api := Sim.api Sim.healthy) s1 in
  res r2 = inr tt /\
  delete_calls (events r2) = [] /\
  errors (events r2) = [] /\
  deleted (events r2) = [0] /\
  world (state r2) = world s1.
Proof.
  apply (second_pass_deletes_nothing (api := Sim.api Sim.healthy) (fun w => w)
           healthy_obedient
           (mkState (Sim.connected (Sim.config [] [])) Sim.inventory) Sim.handle).
  - reflexivity.
  - repeat (apply Forall_cons; [eexists; vm_compute; reflexivity |]).
    apply Forall_nil.
Defined.

(* ================================================================= *)
(** ** How [main] ends *)

Lemma fires_after_stop (pre post : list SchedEvent) (stop : SchedEvent) :
  stop <> Fire ->
  fires (pre ++ stop :: post) = fires (pre ++ [stop]) /\
  stop_cause (pre ++ stop :: post) = stop_cause (pre ++ [stop]).
Proof.
  intros H; induction pre as [|ev pre [IH1 IH2]].
  - destruct stop; [congruence | |]; split; reflexivity.
  - destruct ev; simpl; [rewrite IH1, IH2 | |]; split; reflexivity.
Qed.

Section MainEnd.
Context {W Client : Type} {api : ClientAPI W Client}.
Variable py_float : str -> exn + float.
Variable py_int : str -> exn + Z.
Variable lower : str -> str.
Variable IntervalTrigger : Z -> exn + unit.

Implicit Types (s : State W Client) (c : Client).

(** Nothing but [main] itself shuts the scheduler down. *)
Lemma connect_no_shutdown s : shutdowns (events (connect_qbittorrent s)) = [].
Proof.
  unfold connect_qbittorrent; run.
  repeat next_case; reflexivity.
Qed.

Lemma cleanup_loop_no_shutdown c ts : forall n s,
  qb (self s) = Some c -> shutdowns (events (cleanup_loop ts n s)) = [].
Proof.
  induction ts as [|t rest IH]; intros n s Hc; [reflexivity |].
  destruct (res (should_delete_torrent t s)) as [e | [|]] eqn:V.
  - rewrite (cleanup_loop_raise s t rest n e V); reflexivity.
  - destruct (torrents_delete c (purge s) (hash t) (world s)) as [v w'] eqn:D.
    rewrite (cleanup_loop_delete s c t rest n v w' V Hc D); cbn [res state events].
    pose proof (IH (match v with inr _ => S n | inl _ => n end)
                   (mkState (self s) w') Hc) as I.
    unfold shutdowns in *; rewrite !pick_app, I.
    destruct (should_delete_events s t) as [(_ & m & _ & E) | (_ & E)];
      rewrite E; destruct v; reflexivity.
  - rewrite (cleanup_loop_keep s t rest n V); apply IH; assumption.
Qed.

Lemma checked_pass_no_shutdown s c :
  qb (self s) = Some c -> shutdowns (events (checked_pass s)) = [].
Proof.
  intros Hc.
  destruct (torrents_info c (lit "completed") (world s)) as [[e | ts] w1] eqn:L.
  - rewrite (checked_pass_listing_failed s c e w1 Hc L); reflexivity.
  - rewrite (checked_pass_listed s c ts w1 Hc L); cbn [events].
    pose proof (cleanup_loop_no_shutdown c ts 0 (mkState (self s) w1) Hc) as Q.
    unfold shutdowns in *; rewrite !pick_app, Q.
    destruct (res (cleanup_loop ts 0 (mkState (self s) w1))); reflexivity.
Qed.

Lemma passes_no_shutdown n : forall s c,
  qb (self s) = Some c -> shutdowns (events (passes n s)) = [].
Proof.
  induction n as [|n IH]; intros s c Hc; [reflexivity |].
  rewrite passes_S.
  pose proof (cleanup_keeps_handle s c Hc) as K.
  pose proof (IH (state (cleanup_torrents s)) c K) as I.
  assert (J : shutdowns (events (cleanup_torrents s)) = []).
  { rewrite cleanup_torrents_unfold, Hc; apply (checked_pass_no_shutdown s c Hc). }
  destruct (passes n (state (cleanup_torrents s))) as [v st evs]; cbn [events] in *.
  unfold shutdowns in *; rewrite pick_app, J, I; reflexivity.
Qed.

(** X17. How [main] ends.  Once the configuration is loaded, nothing the
    service answers makes [main] raise: it raises only what the constructor
    of the interval trigger raises, after a successful connection test, and
    then before the job is registered and before any pass.  Otherwise it
    returns before the scheduler exists when the connection test fails, it
    is still waiting inside the scheduler while only fires arrive, and it has
    stopped once an interrupt or an exception of the scheduler arrived.  The
    scheduler is shut down exactly when [main] stops, once, and as the last
    thing [main] does. *)
Theorem main_outcome environ pending w config :
  load_config py_float py_int lower environ = inr config ->
  let s0 := mkState (init Client (qbittorrent config)) w in
  let m := main py_float py_int lower IntervalTrigger environ pending w in
  exit m = match res (connect_qbittorrent s0) with
           | inr false => inr NotStarted
           | _ =>
               match IntervalTrigger (interval_minutes (scheduler config)) with
               | inl e => inl e
               | inr _ => inr (match stop_cause pending with
                               | None => Waiting
                               | Some _ => Stopped
                               end)
               end
           end /\
  List.length (shutdowns (trace m))
    = match exit m with inr Stopped => 1 | _ => 0 end /\
  (exit m = inr Stopped -> exists front note, trace m = front ++ [note; Shutdown]) /\
  (forall e, exit m = inl e ->
     jobs (trace m) = [] /\ listing_calls (trace m) = [] /\
     delete_calls (trace m) = []).
Proof.
  intros Hload s0 m; subst m.
  unfold main; rewrite Hload; cbn [exit trace]; fold s0.
  destruct (connect_returns s0) as [[|] Hc]; rewrite Hc.
  - destruct (IntervalTrigger (interval_minutes (scheduler config))) as [e | []] eqn:Ht.
    { rewrite (main_loop_trigger_raises IntervalTrigger (scheduler config) pending s0 e Hc Ht).
      cbn [res events].
      pose proof (connect_no_shutdown s0) as N.
      destruct (connect_no_pass_requests s0) as [N1 N2].
      pose proof (connect_no_jobs s0) as N3.
      change (Log INFO MsgServiceStarting :: ?l) with ([Log INFO MsgServiceStarting] ++ l).
      unfold shutdowns, jobs, listing_calls, delete_calls in *.
      rewrite !pick_app, N, N1, N2, N3.
      repeat split; try reflexivity; discriminate. }
    rewrite (main_loop_connected IntervalTrigger (scheduler config) pending s0 Hc Ht).
    cbn [res events].
    destruct (connect_true_handle s0 Hc) as [c Hq].
    set (s1 := state (connect_qbittorrent s0)) in *.
    pose proof (cleanup_keeps_handle s1 c Hq) as K.
    pose proof (connect_no_shutdown s0) as N.
    assert (F : shutdowns (events (cleanup_torrents s1)) = []).
    { rewrite cleanup_torrents_unfold, Hq; apply (checked_pass_no_shutdown s1 c Hq). }
    pose proof (passes_no_shutdown (fires pending) (state (cleanup_torrents s1)) c K) as P.
    pose proof (stop_cause_Some pending) as NF.
    set (A := events (connect_qbittorrent s0)) in *.
    set (B := events (cleanup_torrents s1)) in *.
    set (C := events (passes (fires pending) (state (cleanup_torrents s1)))) in *.
    set (i := interval_minutes (scheduler config)).
    split; [reflexivity |]; split; [| split; [| discriminate]].
    + change (Log INFO MsgServiceStarting :: ?l) with ([Log INFO MsgServiceStarting] ++ l).
      unfold shutdowns in *; rewrite !pick_app, N, F, P.
      destruct (stop_cause pending) as [[| |e]|]; [| reflexivity ..].
      destruct (NF Fire eq_refl) as [_ []]; reflexivity.
    + destruct (stop_cause pending) as [[| |e]|]; intros Hs.
      * destruct (NF Fire eq_refl) as [_ []]; reflexivity.
      * exists (Log INFO MsgServiceStarting
                :: A ++ [AddJob i; Log INFO MsgFirstCheck] ++ B
                   ++ [Log INFO (MsgServiceStarted i)] ++ C),
               (Log INFO MsgStopSignal).
        cbn [closing]; repeat (progress (rewrite <- ?app_assoc; cbn [app])); reflexivity.
      * exists (Log INFO MsgServiceStarting
                :: A ++ [AddJob i; Log INFO MsgFirstCheck] ++ B
                   ++ [Log INFO (MsgServiceStarted i)] ++ C),
               (Log ERROR (MsgSchedulerError e)).
        cbn [closing]; repeat (progress (rewrite <- ?app_assoc; cbn [app])); reflexivity.
      * discriminate.
  - rewrite (main_loop_failed_start IntervalTrigger (scheduler config) pending s0 Hc).
    cbn [res events].
    pose proof (connect_no_shutdown s0) as N.
    change (Log INFO MsgServiceStarting :: ?l) with ([Log INFO MsgServiceStarting] ++ l).
    unfold shutdowns in *; rewrite !pick_app, N.
    repeat split; discriminate.
Qed.

(** X18. Nothing runs after the stop.  Whatever would have reached the
    scheduler after an interrupt or an exception of the scheduler changes
    nothing: [main] ends in the same state, with the same torrents left on
    the service and the same trace, as if the stop had been the last event. *)
Theorem nothing_runs_after_stop environ pre stop post w :
  stop <> Fire ->
  main py_float py_int lower IntervalTrigger environ (pre ++ stop :: post) w
  = main py_float py_int lower IntervalTrigger environ (pre ++ [stop]) w.
Proof.
  intros H; unfold main.
  destruct (load_config py_float py_int lower environ) as [e | config]; [reflexivity |].
  cbv zeta.
  set (s0 := mkState (init Client (qbittorrent config)) w).
  destruct (fires_after_stop pre post stop H) as [E1 E2].
  destruct (connect_returns s0) as [[|] Hc].
  - destruct (IntervalTrigger (interval_minutes (scheduler config))) as [e | []] eqn:Ht.
    + rewrite !(main_loop_trigger_raises IntervalTrigger (scheduler config) _ s0 e Hc Ht);
        reflexivity.
    + rewrite !(main_loop_connected IntervalTrigger (scheduler config) _ s0 Hc Ht), E1, E2;
        reflexivity.
  - rewrite !(main_loop_failed_start IntervalTrigger (scheduler config) _ s0 Hc); reflexivity.
Qed.

End MainEnd.

(** The interrupt arrives after one fire. *)
Lemma main_outcome_witness :
  exit (main (api := Sim.api Sim.healthy) Sim.py_float Sim.py_int Sim.lower Sim.IntervalTrigger
             (Sim.environ "" "") [Fire; Interrupt; Fire] Sim.inventory)
    = inr Stopped.
Proof.
  apply (main_outcome (api := Sim.api Sim.healthy) Sim.py_float Sim.py_int Sim.lower Sim.IntervalTrigger
           (Sim.environ "" "") [Fire; Interrupt; Fire] Sim.inventory (Sim.loaded [] [])).
  vm_compute; reflexivity.
Defined.

Lemma nothing_runs_after_stop_witness :
  main (api := Sim.api Sim.healthy) Sim.py_float Sim.py_int Sim.lower Sim.IntervalTrigger
       (Sim.environ "" "") ([Fire] ++ Interrupt :: [Fire; Fault Sim.forbidden])
       Sim.inventory
  = main (api := Sim.api Sim.healthy) Sim.py_float Sim.py_int Sim.lower Sim.IntervalTrigger
         (Sim.environ "" "") ([Fire] ++ [Interrupt]) Sim.inventory.
Proof.
  apply (nothing_runs_after_stop (api := Sim.api Sim.healthy)
           Sim.py_float Sim.py_int Sim.lower Sim.IntervalTrigger
           (Sim.environ "" "") [Fire] Interrupt [Fire; Fault Sim.forbidden]
           Sim.inventory).
  discriminate.
Defined.

(* ================================================================= *)
(** ** The two requests on their own *)

Section Requests.
Context {W Client : Type} {api : ClientAPI W Client}.

Implicit Types (s : State W Client) (torrent : Torrent).

(** X19. [delete_torrent] keeps every failure to itself.  Whatever the
    client does and whether or not there is a handle, it returns a boolean
    and never raises, it asks for at most one deletion, of the hash of the
    record and with the flag it was given, and it leaves the cleaner as it
    was.  It returns True exactly when it logged no error.  Without a handle
    it asks for nothing, changes nothing on the service and returns False. *)
Theorem delete_torrent_contains_failure s torrent delete_files :
  let r := delete_torrent torrent delete_files s in
  (exists ok, res r = inr ok /\ (ok = true <-> errors (events r) = [])) /\
  self (state r) = self s /\
  (delete_calls (events r) = [] \/
   exists failure, delete_calls (events r) = [(hash torrent, failure)] /\
                   delete_flags (events r) = [delete_files]) /\
  (qb (self s) = None ->
   r = mkResult (inr false) s
         [Log ERROR (MsgDeleteFailed (name torrent)
                       (AttributeError (lit "torrents_delete")))]).
Proof.
  cbv zeta; destruct (qb (self s)) as [c |] eqn:Hc.
  - destruct (torrents_delete c delete_files (hash torrent) (world s)) as [v w'] eqn:D.
    rewrite (delete_torrent_live s c torrent delete_files v w' Hc D).
    cbn [res state events self].
    split; [| split; [reflexivity | split; [| discriminate]]].
    + destruct v as [e | []]; eexists; (split; [reflexivity |]);
        split; intros H; try reflexivity; discriminate.
    + right; exists (failure_of v); destruct v; split; reflexivity.
  - unfold delete_torrent; run; rewrite Hc; simpl.
    split; [| split; [reflexivity | split; [left; reflexivity |]]].
    + eexists; split; [reflexivity |]; split; discriminate.
    + intros _; destruct s; reflexivity.
Qed.

(** X20. [get_completed_torrents] keeps every failure to itself.  Whatever
    the client does and whether or not there is a handle, it returns a list
    and never raises, it asks for at most one listing, of completed torrents,
    and it leaves the cleaner as it was.  Whenever it logged an error the
    list is empty.  Without a handle it asks for nothing and returns the
    empty list. *)
Theorem get_completed_contains_failure s :
  let r := get_completed_torrents s in
  (exists l, res r = inr l /\ (errors (events r) <> [] -> l = [])) /\
  self (state r) = self s /\
  (listing_filters (events r) = [] \/ listing_filters (events r) = [lit "completed"]) /\
  (qb (self s) = None ->
   r = mkResult (inr []) s
         [Log ERROR (MsgListFailed (AttributeError (lit "torrents_info")))]).
Proof.
  cbv zeta; destruct (qb (self s)) as [c |] eqn:Hc.
  - destruct (torrents_info c (lit "completed") (world s)) as [v w'] eqn:L.
    rewrite (get_completed_live s c v w' Hc L).
    cbn [res state events self].
    split; [| split; [reflexivity | split; [destruct v; right; reflexivity | discriminate]]].
    destruct v as [e | l]; eexists; (split; [reflexivity |]);
      [reflexivity | intros H; exfalso; apply H; reflexivity].
  - unfold get_completed_torrents; run; rewrite Hc; simpl.
    split; [| split; [reflexivity | split; [left; reflexivity |]]].
    + eexists; split; reflexivity.
    + intros _; destruct s; reflexivity.
Qed.

End Requests.

(** A cleaner that never connected: the deletion is not even asked for. *)
Lemma delete_torrent_contains_failure_witness :
  delete_torrent (api := Sim.api Sim.healthy) Sim.over_ratio true
    (mkState (init Sim.Handle (Sim.config [] [])) Sim.inventory)
  = mkResult (inr false)
      (mkState (init Sim.Handle (Sim.config [] [])) Sim.inventory)
      [Log ERROR (MsgDeleteFailed (name Sim.over_ratio)
                    (AttributeError (lit "torrents_delete")))].
Proof.
  apply (delete_torrent_contains_failure (api := Sim.api Sim.healthy)
           (mkState (init Sim.Handle (Sim.config [] [])) Sim.inventory)
           Sim.over_ratio true).
  reflexivity.
Defined.

Lemma get_completed_contains_failure_witness :
  get_completed_torrents (api := Sim.api Sim.healthy)
    (mkState (init Sim.Handle (Sim.config [] [])) Sim.inventory)
  = mkResult (inr [])
      (mkState (init Sim.Handle (Sim.config [] [])) Sim.inventory)
      [Log ERROR (MsgListFailed (AttributeError (lit "torrents_info")))].
Proof.
  apply (get_completed_contains_failure (api := Sim.api Sim.healthy)
           (mkState (init Sim.Handle (Sim.config [] [])) Sim.inventory)).
  reflexivity.
Defined.
